(** * RSS Guard: the feed tree model (core/feedsmodel.cpp) and the debug
    message handler (core/debugging.cpp)

    The C++ objects live in a store of items addressed by pointers; the
    model works on that store through the item pointers it is handed.
    Dereferencing a pointer that addresses no item is undefined behaviour
    and is kept apart from a loop that does not end. *)

From stdpp Require Import gmap strings list fin_maps.
From Stdlib Require Import ZArith Lia.

Local Open Scope Z_scope.

(** ** Results of C++ computations *)

Inductive res (A : Type) : Type :=
  | Ret (a : A)
  | Undefined
  | Diverges.
Arguments Ret {A} a.
Arguments Undefined {A}.
Arguments Diverges {A}.

#[global] Instance res_ret : MRet res := fun A a => Ret a.
#[global] Instance res_bind : MBind res := fun A B f x =>
  match x with
  | Ret a => f a
  | Undefined => Undefined
  | Diverges => Diverges
  end.

(** Pointers are pointer-sized unsigned integers (quintptr). *)
Abbreviation ptr := Z.
Definition nullptr : ptr := 0.

(** QList<T>::indexOf: position of the first occurrence, -1 when absent. *)
Fixpoint indexOf (x : ptr) (l : list ptr) : Z :=
  match l with
  | [] => -1
  | y :: l' =>
      if decide (x = y) then 0
      else let r := indexOf x l' in if r <? 0 then -1 else r + 1
  end.

(** QList<T>::removeOne: drops the first occurrence. *)
Fixpoint removeOne (x : ptr) (l : list ptr) : list ptr :=
  match l with
  | [] => []
  | y :: l' => if decide (x = y) then l' else y :: removeOne x l'
  end.

(** ** Items of the tree

    The item classes (services/abstract/rootitem.h, feed.h) are not among
    the sources; the model file uses them through the members below. *)

Module RootItemKind.
(** Modelled from the spec: the kinds of items, "kind (Root | ServiceRoot |
    Category | Feed | RecycleBin)". *)
Inductive t := Root | Bin | Feed | Category | ServiceRoot.
#[global] Instance eq_dec : EqDecision t.
Proof. solve_decision. Defined.
End RootItemKind.

Module Feed.
(** Modelled from the spec: the state of a feed, of which the model asks
    whether it is the "new messages" state. *)
Inductive Status := Normal | NewMessages | NetworkError.
#[global] Instance status_eq_dec : EqDecision Status.
Proof. solve_decision. Defined.
End Feed.

Module RootItem.
(** Modelled from the spec: the Item of the data model, with its "kind",
    its "back-reference to parent (non-owning)", its "ordered sequence of
    child Items", its "unread-message count" and, for a feed, its state. *)
Record t := mk {
  kind : RootItemKind.t;
  parent : ptr;
  childItems : list ptr;
  unread : Z;
  status : Feed.Status
}.

(** Modelled from the spec: RootItem::childCount, the "number of children
    of the addressed item". *)
Definition childCount (it : t) : Z := Z.of_nat (length (childItems it)).

(** Modelled from the spec: RootItem::child, the row-th child; out of
    range there is none and the pointer is null, which index tests
    ("or an invalid/null coordinate if out of range"). *)
Definition child (it : t) (row : Z) : ptr :=
  if row <? 0 then nullptr
  else default nullptr (childItems it !! Z.to_nat row).

(** Field updates. *)
Definition setParent (p : ptr) (it : t) : t :=
  mk (kind it) p (childItems it) (unread it) (status it).

Definition setChildItems (l : list ptr) (it : t) : t :=
  mk (kind it) (parent it) l (unread it) (status it).
End RootItem.

Abbreviation store := (gmap Z RootItem.t).

Definition deref (h : store) (p : ptr) : res RootItem.t :=
  match h !! p with
  | Some it => Ret it
  | None => Undefined
  end.

(** The members of RootItem that follow pointers. *)
Module Item.
(** Modelled from the spec: RootItem::row, the "index-of-child lookup":
    the item's index among its parent's children; an item without a
    parent is taken to be at row 0. *)
Definition row (h : store) (self : ptr) : res Z :=
  it ← deref h self;
  if RootItem.parent it =? nullptr then Ret 0
  else par ← deref h (RootItem.parent it);
       Ret (indexOf self (RootItem.childItems par)).

(** Modelled from the spec: RootItem::getParentServiceRoot, the account
    an item belongs to: "a ServiceRoot's descendants all belong to the
    same account". The nearest service root on the way up from the item,
    the item itself included; the Root item belongs to no account. *)
Fixpoint getParentServiceRoot_walk (fuel : nat) (h : store) (p : ptr)
  : res ptr :=
  match fuel with
  | O => Diverges
  | S fuel' =>
      it ← deref h p;
      match RootItem.kind it with
      | RootItemKind.Root => Ret nullptr
      | RootItemKind.ServiceRoot => Ret p
      | _ => getParentServiceRoot_walk fuel' h (RootItem.parent it)
      end
  end.

(** A walk over more items than the store holds meets an item twice and
    never ends. *)
Definition getParentServiceRoot (h : store) (self : ptr) : res ptr :=
  getParentServiceRoot_walk (S (size h)) h self.

(** Modelled from the spec: RootItem::countOfUnreadMessages, "an item's
    unread count equals the sum of its children's counts (feeds are the
    only leaves holding a directly-owned count)". *)
Fixpoint countOfUnreadMessages_rec (fuel : nat) (h : store) (p : ptr)
  : res Z :=
  match fuel with
  | O => Diverges
  | S fuel' =>
      it ← deref h p;
      match RootItem.kind it with
      | RootItemKind.Feed => Ret (RootItem.unread it)
      | _ =>
          foldr (fun c acc => n ← countOfUnreadMessages_rec fuel' h c;
                              total ← acc; Ret (n + total))
                (Ret 0) (RootItem.childItems it)
      end
  end.

Definition countOfUnreadMessages (h : store) (self : ptr) : res Z :=
  countOfUnreadMessages_rec (S (size h)) h self.

(** Modelled from the spec: RootItem::getSubTreeFeeds, the feeds of the
    subtree below an item (the item itself when it is a feed). *)
Fixpoint getSubTreeFeeds_rec (fuel : nat) (h : store) (p : ptr)
  : res (list ptr) :=
  match fuel with
  | O => Diverges
  | S fuel' =>
      it ← deref h p;
      match RootItem.kind it with
      | RootItemKind.Feed => Ret [p]
      | _ =>
          foldr (fun c acc => fs ← getSubTreeFeeds_rec fuel' h c;
                              rest ← acc; Ret (fs ++ rest))
                (Ret []) (RootItem.childItems it)
      end
  end.

Definition getSubTreeFeeds (h : store) (self : ptr) : res (list ptr) :=
  getSubTreeFeeds_rec (S (size h)) h self.

(** Modelled from the spec: RootItem::removeChild, "removal-by-identity"
    from the child sequence. *)
Definition removeChild (h : store) (self child : ptr) : store :=
  alter (fun it =>
           RootItem.setChildItems (removeOne child (RootItem.childItems it)) it)
        self h.

(** Modelled from the spec: RootItem::appendChild, "ordered append"; the
    child's back reference follows its new parent. *)
Definition appendChild (h : store) (self child : ptr) : store :=
  alter (RootItem.setParent self) child
    (alter (fun it =>
              RootItem.setChildItems (RootItem.childItems it ++ [child]) it)
           self h).
End Item.

(** ** Model indexes (QModelIndex) *)

Module QModelIndex.
Record t := mk {
  row : Z;
  column : Z;
  internalPointer : ptr;
  model : ptr
}.

(** The default-constructed index. *)
Definition invalid : t := mk (-1) (-1) nullptr nullptr.

Definition isValid (i : t) : bool :=
  (0 <=? row i) && (0 <=? column i) && negb (model i =? nullptr).

#[global] Instance eq_dec : EqDecision t.
Proof. solve_decision. Defined.
End QModelIndex.

(** ** Constants of definitions/definitions.h *)

(** Modelled from the spec: definitions.h is not among the sources; the
    spec's data model has two columns, column 0 for the title and column 1
    for the counts. *)
Definition FDS_MODEL_TITLE_INDEX : Z := 0.
Definition FDS_MODEL_COUNTS_INDEX : Z := 1.
Definition FEEDS_VIEW_COLUMN_COUNT : Z := 2.

(** ** What the model emits and asks of its collaborators

    The signals of the model, the warning it has the application show, and
    the call of the reparenting operation of an item. The lines of qDebug
    are left out. *)

Inductive Event :=
  | dataChanged (top_left bottom_right : QModelIndex.t)
  | layoutAboutToBeChanged
  | layoutChanged
  | messageCountsChanged (unread_count : Z) (any_new : bool)
  | requireItemValidationAfterDragDrop (i : QModelIndex.t)
  | beginRemoveRows (parent : QModelIndex.t) (first last : Z)
  | endRemoveRows
  | beginInsertRows (parent : QModelIndex.t) (first last : Z)
  | endInsertRows
  | showGuiMessage_Warning
  | performDragDropChange_called (dragged target : ptr).

(** ** The model *)

Module FeedsModel.
Record t := mk {
  this : ptr;
  m_rootItem : ptr;
  items : store
}.

Definition createIndex (m : t) (row column : Z) (p : ptr) : QModelIndex.t :=
  QModelIndex.mk row column p (this m).

Definition itemForIndex (m : t) (index : QModelIndex.t) : ptr :=
  if QModelIndex.isValid index && (QModelIndex.model index =? this m)
  then QModelIndex.internalPointer index
  else m_rootItem m.

Definition columnCount (m : t) (parent : QModelIndex.t) : Z :=
  FEEDS_VIEW_COLUMN_COUNT.

Definition rowCount (m : t) (parent : QModelIndex.t) : res Z :=
  if 0 <? QModelIndex.column parent then Ret 0
  else it ← deref (items m) (itemForIndex m parent);
       Ret (RootItem.childCount it).

(** QAbstractItemModel::hasIndex, as Qt defines it. *)
Definition hasIndex (m : t) (row column : Z) (parent : QModelIndex.t)
  : res bool :=
  if (row <? 0) || (column <? 0) then Ret false
  else rc ← rowCount m parent;
       Ret ((row <? rc) && (column <? columnCount m parent)).

Definition index (m : t) (row column : Z) (parent : QModelIndex.t)
  : res QModelIndex.t :=
  ok ← hasIndex m row column parent;
  if negb ok then Ret QModelIndex.invalid
  else
    parent_item ← deref (items m) (itemForIndex m parent);
    let child_item := RootItem.child parent_item row in
    if child_item =? nullptr then Ret QModelIndex.invalid
    else Ret (createIndex m row column child_item).

Definition parent (m : t) (child : QModelIndex.t) : res QModelIndex.t :=
  if negb (QModelIndex.isValid child) then Ret QModelIndex.invalid
  else
    child_item ← deref (items m) (itemForIndex m child);
    let parent_item := RootItem.parent child_item in
    if parent_item =? m_rootItem m then Ret QModelIndex.invalid
    else r ← Item.row (items m) parent_item;
         Ret (createIndex m r 0 parent_item).

(** QModelIndex::parent asks the model the index belongs to; an index
    without a model has the invalid index for parent, and what another
    model answers is not this model's to say. *)
Definition parentOf (m : t) (indx : QModelIndex.t) : res QModelIndex.t :=
  if QModelIndex.model indx =? nullptr then Ret QModelIndex.invalid
  else if QModelIndex.model indx =? this m then parent m indx
  else Undefined.

Definition countOfUnreadMessages (m : t) : res Z :=
  Item.countOfUnreadMessages (items m) (m_rootItem m).

(** The first loop of indexForItem: the stack has its top at the head. *)
Fixpoint indexForItem_chain (fuel : nat) (m : t) (item : ptr)
  (chain : list ptr) : res (list ptr) :=
  match fuel with
  | O => Diverges
  | S fuel' =>
      it ← deref (items m) item;
      if decide (RootItem.kind it = RootItemKind.Root) then Ret chain
      else indexForItem_chain fuel' m (RootItem.parent it) (item :: chain)
  end.

(** The second loop of indexForItem. *)
Fixpoint indexForItem_descend (m : t) (chain : list ptr)
  (target_index : QModelIndex.t) : res QModelIndex.t :=
  match chain with
  | [] => Ret target_index
  | parent_item :: chain' =>
      it ← deref (items m) parent_item;
      par ← deref (items m) (RootItem.parent it);
      target_index' ←
        index m (indexOf parent_item (RootItem.childItems par)) 0 target_index;
      indexForItem_descend m chain' target_index'
  end.

Fixpoint indexForItem_rec (fuel : nat) (m : t) (item : ptr)
  : res QModelIndex.t :=
  match fuel with
  | O => Diverges
  | S fuel' =>
      if item =? nullptr then Ret QModelIndex.invalid
      else
        it ← deref (items m) item;
        if decide (RootItem.kind it = RootItemKind.Root)
        then Ret QModelIndex.invalid
        else
          chain ← indexForItem_chain fuel' m item [];
          target_index ← indexForItem_rec fuel' m (m_rootItem m);
          indexForItem_descend m chain target_index
  end.

(** The walk to the root visits each item once at most, or never ends. *)
Definition indexForItem (m : t) (item : ptr) : res QModelIndex.t :=
  indexForItem_rec (2 + size (items m)) m item.

Fixpoint hasAnyFeedNewMessages_loop (h : store) (feeds : list ptr)
  : res bool :=
  match feeds with
  | [] => Ret false
  | feed :: feeds' =>
      fit ← deref h feed;
      if decide (RootItem.status fit = Feed.NewMessages) then Ret true
      else hasAnyFeedNewMessages_loop h feeds'
  end.

Definition hasAnyFeedNewMessages (m : t) : res bool :=
  feeds ← Item.getSubTreeFeeds (items m) (m_rootItem m);
  hasAnyFeedNewMessages_loop (items m) feeds.

Fixpoint reloadChangedLayout_loop (fuel : nat) (m : t)
  (pending : list QModelIndex.t) : res (list Event) :=
  match pending with
  | [] => Ret []
  | indx :: pending' =>
      match fuel with
      | O => Diverges
      | S fuel' =>
          if QModelIndex.isValid indx then
            indx_parent ← parentOf m indx;
            top_left ← index m (QModelIndex.row indx) 0 indx_parent;
            bottom_right ←
              index m (QModelIndex.row indx) FDS_MODEL_COUNTS_INDEX indx_parent;
            later ← reloadChangedLayout_loop fuel' m (pending' ++ [indx_parent]);
            Ret (dataChanged top_left bottom_right :: later)
          else reloadChangedLayout_loop fuel' m pending'
      end
  end.

(** The list of the source is [pending]. Each index of it is followed up
    to the root: over more steps than the store has items, some item is
    met twice and the loop never ends. *)
Definition reloadChangedLayout (m : t) (pending : list QModelIndex.t)
  : res (list Event) :=
  reloadChangedLayout_loop (length pending * S (size (items m))) m pending.

Definition reloadChangedItem (m : t) (item : ptr) : res (list Event) :=
  index_item ← indexForItem m item;
  reloadChangedLayout m [index_item].

Definition notifyWithCounts (m : t) : res (list Event) :=
  unread_count ← countOfUnreadMessages m;
  any_new ← hasAnyFeedNewMessages m;
  Ret [messageCountsChanged unread_count any_new].

Definition reloadWholeLayout (m : t) : list Event :=
  [layoutAboutToBeChanged; layoutChanged].

Fixpoint reloadChangedItems (m : t) (changed : list ptr) : res (list Event) :=
  match changed with
  | [] => Ret []
  | item :: changed' =>
      evs ← reloadChangedItem m item;
      later ← reloadChangedItems m changed';
      Ret (evs ++ later)
  end.

Section Threshold.
(** RELOAD_MODEL_BORDER_NUM of definitions.h, which is not among the
    sources: a fixed number of items. *)
Variable RELOAD_MODEL_BORDER_NUM : Z.

Definition onItemDataChanged (m : t) (changed : list ptr)
  : res (list Event) :=
  evs ← (if RELOAD_MODEL_BORDER_NUM <? Z.of_nat (length changed)
         then Ret (reloadWholeLayout m)
         else reloadChangedItems m changed);
  counts ← notifyWithCounts m;
  Ret (evs ++ counts).
End Threshold.

Definition reassignNodeToNewParent (m : t) (original_node new_parent : ptr)
  : res (t * list Event) :=
  node ← deref (items m) original_node;
  let original_parent := RootItem.parent node in
  if original_parent =? new_parent then Ret (m, [])
  else
    '(m1, removal) ←
      (if original_parent =? nullptr then Ret (m, [])
       else
         op ← deref (items m) original_parent;
         let original_index_of_item :=
           indexOf original_node (RootItem.childItems op) in
         if 0 <=? original_index_of_item then
           parent_index ← indexForItem m original_parent;
           Ret (mk (this m) (m_rootItem m)
                   (Item.removeChild (items m) original_parent original_node),
                [beginRemoveRows parent_index original_index_of_item
                                 original_index_of_item;
                 endRemoveRows])
         else Ret (m, []));
    np ← deref (items m1) new_parent;
    let new_index_of_item := RootItem.childCount np in
    new_parent_index ← indexForItem m1 new_parent;
    Ret (mk (this m1) (m_rootItem m1)
            (Item.appendChild (items m1) new_parent original_node),
         removal ++ [beginInsertRows new_parent_index new_index_of_item
                                     new_index_of_item;
                     endInsertRows]).
End FeedsModel.

(** ** Drag and drop *)

(** A byte array (QByteArray): bytes as integers in [0, 256). *)
Abbreviation QByteArray := (list Z) (only parsing).

(** QDataStream << quint64 on a 64-bit platform: eight bytes, the most
    significant first. *)
Definition encode_quintptr (p : ptr) : QByteArray :=
  [ (p / 2 ^ 56) mod 256; (p / 2 ^ 48) mod 256; (p / 2 ^ 40) mod 256;
    (p / 2 ^ 32) mod 256; (p / 2 ^ 24) mod 256; (p / 2 ^ 16) mod 256;
    (p / 2 ^ 8) mod 256; p mod 256 ].

(** QDataStream >> quint64 over eight bytes read. *)
Definition decode_quintptr (bytes : QByteArray) : ptr :=
  fold_left (fun acc b => 256 * acc + b) bytes 0.

Module QMimeData.
Abbreviation t := (gmap string QByteArray).
Definition setData (fmt : string) (bytes : QByteArray) (d : t) : t :=
  <[fmt := bytes]> d.
(** An empty array for a format the object does not hold. *)
Definition data (d : t) (fmt : string) : QByteArray := default [] (d !! fmt).
End QMimeData.

(** Qt::DropAction. *)
Inductive DropAction :=
  | CopyAction | MoveAction | LinkAction | TargetMoveAction | IgnoreAction.

#[global] Instance DropAction_eq_dec : EqDecision DropAction.
Proof. solve_decision. Defined.

Module DragDrop.
Import FeedsModel.

Section Collaborators.
(** MIME_TYPE_ITEM_POINTER of definitions.h. *)
Variable MIME_TYPE_ITEM_POINTER : string.

(** RootItem::performDragDropChange is virtual: each kind of item
    decides on the move its own way and has the tree changed through
    its account. It answers whether the move was done, with the
    store as it left it and what the model emitted meanwhile. *)
Variable performDragDropChange :
  FeedsModel.t -> ptr -> ptr -> res (bool * FeedsModel.t * list Event).

Fixpoint mimeData_stream (m : t) (indexes : list QModelIndex.t)
  : res QByteArray :=
  match indexes with
  | [] => Ret []
  | index :: indexes' =>
      if negb (QModelIndex.column index =? 0) then
        mimeData_stream m indexes'
      else
        let item_for_index := itemForIndex m index in
        it ← deref (items m) item_for_index;
        later ← mimeData_stream m indexes';
        if decide (RootItem.kind it = RootItemKind.Root) then Ret later
        else Ret (encode_quintptr item_for_index ++ later)
  end.

Definition mimeData (m : t) (indexes : list QModelIndex.t)
  : res QMimeData.t :=
  encoded_data ← mimeData_stream m indexes;
  Ret (QMimeData.setData MIME_TYPE_ITEM_POINTER encoded_data ∅).

Definition mimeTypes (m : t) : list string := [MIME_TYPE_ITEM_POINTER].

Definition supportedDropActions (m : t) : list DropAction := [MoveAction].

(** One turn of the loop of dropMimeData on the token read: [Some b]
    when the turn returns [b] from the function, [None] when the loop
    goes on. *)
Definition dropMimeData_item (m : t) (parent : QModelIndex.t)
  (pointer_to_item : ptr) : res (option bool * t * list Event) :=
  let dragged_item := pointer_to_item in
  let target_item := itemForIndex m parent in
  dragged_item_root ← Item.getParentServiceRoot (items m) dragged_item;
  target_item_root ← Item.getParentServiceRoot (items m) target_item;
  dragged ← deref (items m) dragged_item;
  if (dragged_item =? target_item)
     || (RootItem.parent dragged =? target_item)
  then Ret (Some false, m, [])
  else if negb (dragged_item_root =? target_item_root)
  then Ret (Some false, m, [showGuiMessage_Warning])
  else
    '(done, m', evs) ← performDragDropChange m dragged_item target_item;
    let evs' := performDragDropChange_called dragged_item target_item :: evs in
    if (done : bool) then
      i ← indexForItem m' dragged_item;
      Ret (None, m', evs' ++ [requireItemValidationAfterDragDrop i])
    else Ret (None, m', evs').

(** The loop over the stream. A token is eight bytes; a shorter rest
    reads as 0 and leaves the stream at its end. *)
Fixpoint dropMimeData_loop (stream : QByteArray) (m : t)
  (parent : QModelIndex.t) (log : list Event) {struct stream}
  : res (bool * t * list Event) :=
  match stream with
  | [] => Ret (true, m, log)
  | b7 :: b6 :: b5 :: b4 :: b3 :: b2 :: b1 :: b0 :: stream' =>
      '(returned, m', evs) ←
        dropMimeData_item m parent
          (decode_quintptr [b7; b6; b5; b4; b3; b2; b1; b0]);
      match returned with
      | Some b => Ret (b, m', log ++ evs)
      | None => dropMimeData_loop stream' m' parent (log ++ evs)
      end
  | _ :: _ =>
      '(returned, m', evs) ← dropMimeData_item m parent 0;
      match returned with
      | Some b => Ret (b, m', log ++ evs)
      | None => Ret (true, m', log ++ evs)
      end
  end.

Definition dropMimeData (m : t) (data : QMimeData.t) (action : DropAction)
  (row column : Z) (parent : QModelIndex.t)
  : res (bool * t * list Event) :=
  match action with
  | IgnoreAction => Ret (true, m, [])
  | MoveAction =>
      let dragged_items_data := QMimeData.data data MIME_TYPE_ITEM_POINTER in
      match dragged_items_data with
      | [] => Ret (false, m, [])
      | _ :: _ => dropMimeData_loop dragged_items_data m parent []
      end
  | _ => Ret (false, m, [])
  end.
End Collaborators.
End DragDrop.

(** ** The message handler (core/debugging.cpp) *)

Module Debugging.
Inductive QtMsgType :=
  | QtDebugMsg | QtWarningMsg | QtCriticalMsg | QtFatalMsg | QtInfoMsg.

Record QMessageLogContext := mkContext { file : string; line : Z }.

(** What the handler does to the outside: a line on the standard error
    stream, given by the arguments of its format
    "[%s] %s (%s:%d): %s\n", and the request to leave the application. *)
Inductive Effect :=
  | fprintf_stderr (app type_string file : string) (line : Z)
                   (message : string)
  | qApp_exit (code : Z).

Definition EXIT_FAILURE : Z := 1.

(** QString::section(separator, -1): what follows the last separator. *)
Fixpoint section_last (separator : Ascii.ascii) (s : string) (acc : string)
  : string :=
  match s with
  | EmptyString => acc
  | String c s' =>
      if decide (c = separator) then section_last separator s' EmptyString
      else section_last separator s' (acc +:+ String c EmptyString)
  end.

(** The character arrays of the QByteArray temporaries that qPrintable
    makes: the characters of each, and whether the array is still alive.
    A const char * into one of them is the position of the array. *)
Record Temporary := mkTemporary { characters : string; alive : bool }.

Abbreviation Temporaries := (list Temporary).

(** qPrintable(s) is QString(s).toLocal8Bit().constData(): a pointer to
    the characters of a QByteArray that is a temporary of the full
    expression the macro stands in. *)
Definition qPrintable (s : string) (mem : Temporaries) : nat * Temporaries :=
  (length mem, mem ++ [mkTemporary s true]).

(** The end of a full expression destroys its temporary; the pointers
    taken to its characters stay as they are. *)
Definition destroy (p : nat) (mem : Temporaries) : Temporaries :=
  alter (fun t => mkTemporary (characters t) false) p mem.

(** What %s of fprintf reads at a pointer: the characters of an array
    that is alive; reading an array that was destroyed is undefined. *)
Definition c_str (mem : Temporaries) (p : nat) : res string :=
  match mem !! p with
  | Some t => if alive t then Ret (characters t) else Undefined
  | None => Undefined
  end.

Section Build.
(** APP_LOW_NAME of core/defs.h, the separator of the platform
    (QDir::separator) and whether the build defines
    QT_NO_DEBUG_OUTPUT. *)
Variable APP_LOW_NAME : string.
Variable separator : Ascii.ascii.
Variable QT_NO_DEBUG_OUTPUT : bool.

(** The macro is one fprintf: the temporary of its qPrintable(message)
    lives until the call is over. *)
Definition DEBUG_OUTPUT_WORKER (type_string : string) (file : nat) (line : Z)
  (message : string) (mem : Temporaries) : res (list Effect * Temporaries) :=
  let '(message_chars, mem1) := qPrintable message mem in
  file_text ← c_str mem1 file;
  message_text ← c_str mem1 message_chars;
  Ret ([fprintf_stderr APP_LOW_NAME type_string file_text line message_text],
       destroy message_chars mem1).

(** The declaration of [file]: the pointer is kept, and the temporary
    it points into is destroyed when the declaration ends. *)
Definition declare_file (placement : QMessageLogContext)
  : nat * Temporaries :=
  let '(file, mem) :=
    qPrintable (section_last separator (file placement) EmptyString) [] in
  (file, destroy file mem).

(** The switch over the type of the message. *)
Definition debugHandler_switch (type : QtMsgType) (file : nat) (line : Z)
  (message : string) (mem : Temporaries) : res (list Effect) :=
  match type with
  | QtDebugMsg =>
      '(written, mem') ← DEBUG_OUTPUT_WORKER "INFO" file line message mem;
      Ret written
  | QtWarningMsg =>
      '(written, mem') ← DEBUG_OUTPUT_WORKER "WARNING" file line message mem;
      Ret written
  | QtCriticalMsg =>
      '(written, mem') ← DEBUG_OUTPUT_WORKER "CRITICAL" file line message mem;
      Ret written
  | QtFatalMsg =>
      '(written, mem') ← DEBUG_OUTPUT_WORKER "FATAL" file line message mem;
      Ret (written ++ [qApp_exit EXIT_FAILURE])
  | QtInfoMsg => Ret []
  end.

Definition debugHandler (type : QtMsgType) (placement : QMessageLogContext)
  (message : string) : res (list Effect) :=
  if QT_NO_DEBUG_OUTPUT then Ret []
  else
    let '(file, mem) := declare_file placement in
    debugHandler_switch type file (line placement) message mem.
End Build.
End Debugging.

(** ** The reparenting operation of standard feeds and categories *)

Module StandardItem.
Import FeedsModel.

(** Modelled from the spec: the legal containers, "a Feed may live under
    a Category or ServiceRoot but not under another Feed". *)
Definition legal_container (item_kind destination_kind : RootItemKind.t)
  : bool :=
  match destination_kind, item_kind with
  | (RootItemKind.Category | RootItemKind.ServiceRoot),
    (RootItemKind.Feed | RootItemKind.Category) => true
  | _, _ => false
  end.

(** Whether [ancestor] lies on the way from [p] up to the Root. *)
Fixpoint isBelow_walk (fuel : nat) (h : store) (ancestor p : ptr)
  : res bool :=
  match fuel with
  | O => Diverges
  | S fuel' =>
      if p =? ancestor then Ret true
      else
        it ← deref h p;
        if decide (RootItem.kind it = RootItemKind.Root) then Ret false
        else isBelow_walk fuel' h ancestor (RootItem.parent it)
  end.

(** Modelled from the spec: RootItem::performDragDropChange of the
    standard items, which are not among the sources. "The moved item
    must validate that the destination is a legal container for its kind
    and that the move does not create a cycle (destination is not a
    descendant of the moved item, and destination is not the item's
    current parent). On success, the item is detached from its original
    parent's child sequence and appended to the destination's child
    sequence": the tree changes through reassignNodeToNewParent. *)
Definition performDragDropChange (m : t) (self target_item : ptr)
  : res (bool * t * list Event) :=
  it ← deref (items m) self;
  target ← deref (items m) target_item;
  if negb (legal_container (RootItem.kind it) (RootItem.kind target))
  then Ret (false, m, [])
  else
    below ← isBelow_walk (S (size (items m))) (items m) self target_item;
    if (below : bool) || (RootItem.parent it =? target_item)
    then Ret (false, m, [])
    else
      '(m', evs) ← reassignNodeToNewParent m self target_item;
      Ret (true, m', evs).
End StandardItem.

(** ** Trees *)

(** An item is attached to the tree of the model when parent links lead
    from it to the Root item, each through an item that its parent lists
    among its children. The chain holds the items met on the way up, the
    item first and the Root left out: its length is the item's depth. *)
Inductive attached (m : FeedsModel.t) : ptr -> list ptr -> Prop :=
  | attached_root : attached m (FeedsModel.m_rootItem m) []
  | attached_child p it pit chain :
      FeedsModel.items m !! p = Some it ->
      RootItem.kind it <> RootItemKind.Root ->
      FeedsModel.items m !! RootItem.parent it = Some pit ->
      p ∈ RootItem.childItems pit ->
      attached m (RootItem.parent it) chain ->
      attached m p (p :: chain).

Definition child_ok (h : store) (p c : ptr) : bool :=
  match h !! c with
  | Some cit =>
      (RootItem.parent cit =? p)
      && negb (bool_decide (RootItem.kind cit = RootItemKind.Root))
  | None => false
  end.

Definition item_ok (h : store) (entry : ptr * RootItem.t) : bool :=
  let '(p, it) := entry in
  (0 <? p) && (p <? 2 ^ 64)
  && bool_decide (NoDup (RootItem.childItems it))
  && forallb (child_ok h p) (RootItem.childItems it)
  && match RootItem.kind it, RootItem.childItems it with
     | RootItemKind.Feed, _ :: _ => false
     | _, _ => true
     end.

(** The invariants of the data model: the model object and the Root item
    exist, the Root item has no parent, items are at addresses of the
    platform, every child is listed once and points back to the item that
    lists it, feeds are leaves. *)
Definition well_formedb (m : FeedsModel.t) : bool :=
  negb (FeedsModel.this m =? nullptr)
  && match FeedsModel.items m !! FeedsModel.m_rootItem m with
     | Some r =>
         bool_decide (RootItem.kind r = RootItemKind.Root)
         && (RootItem.parent r =? nullptr)
     | None => false
     end
  && forallb (item_ok (FeedsModel.items m)) (map_to_list (FeedsModel.items m)).

Definition well_formed (m : FeedsModel.t) : Prop := well_formedb m = true.

(** The check that a chain is the chain of an attached item. *)
Fixpoint attachedb (m : FeedsModel.t) (p : ptr) (chain : list ptr) : bool :=
  match chain with
  | [] => p =? FeedsModel.m_rootItem m
  | x :: chain' =>
      (x =? p)
      && match FeedsModel.items m !! p with
         | Some it =>
             negb (bool_decide (RootItem.kind it = RootItemKind.Root))
             && match FeedsModel.items m !! RootItem.parent it with
                | Some pit =>
                    bool_decide (p ∈ RootItem.childItems pit)
                    && attachedb m (RootItem.parent it) chain'
                | None => false
                end
         | None => false
         end
  end.

(** ** A tree to run the model on

    Root -> Account1 -> { CategoryX -> FeedA, CategoryY -> FeedB },
    Root -> Account2 -> FeedC. *)
Module Example.
Definition Root : ptr := 4096.
Definition Account1 : ptr := 4097.
Definition CategoryX : ptr := 4098.
Definition CategoryY : ptr := 4099.
Definition FeedA : ptr := 4100.
Definition FeedB : ptr := 4101.
Definition Account2 : ptr := 4102.
Definition FeedC : ptr := 4103.

Definition heap : store :=
  list_to_map
    [ (Root, RootItem.mk RootItemKind.Root nullptr [Account1; Account2]
               0 Feed.Normal);
      (Account1, RootItem.mk RootItemKind.ServiceRoot Root
                   [CategoryX; CategoryY] 0 Feed.Normal);
      (CategoryX, RootItem.mk RootItemKind.Category Account1 [FeedA]
                    0 Feed.Normal);
      (CategoryY, RootItem.mk RootItemKind.Category Account1 [FeedB]
                    0 Feed.Normal);
      (FeedA, RootItem.mk RootItemKind.Feed CategoryX [] 3 Feed.Normal);
      (FeedB, RootItem.mk RootItemKind.Feed CategoryY [] 4 Feed.NewMessages);
      (Account2, RootItem.mk RootItemKind.ServiceRoot Root [FeedC]
                   0 Feed.Normal);
      (FeedC, RootItem.mk RootItemKind.Feed Account2 [] 5 Feed.Normal) ].

Definition model : FeedsModel.t := FeedsModel.mk 512 Root heap.

Definition MIME_TYPE_ITEM_POINTER : string := "rssguard/itempointer".

(** The separator of a Unix platform, '/'. *)
Definition separator : Ascii.ascii := Ascii.ascii_of_nat 47.

Definition indexOfItem (r : Z) (p : ptr) : QModelIndex.t :=
  QModelIndex.mk r 0 p 512.

(** Dropping FeedB and then FeedA on CategoryX, which already holds
    FeedA. *)
Definition payload : QMimeData.t :=
  QMimeData.setData MIME_TYPE_ITEM_POINTER
    (encode_quintptr FeedB ++ encode_quintptr FeedA) ∅.

Definition drop (data : QMimeData.t) (target : QModelIndex.t)
  : res (bool * FeedsModel.t * list Event) :=
  DragDrop.dropMimeData MIME_TYPE_ITEM_POINTER
    StandardItem.performDragDropChange model data MoveAction 0 0 target.

(** The model and the log once FeedB alone was dropped on CategoryX. *)
Definition after_FeedB : FeedsModel.t * list Event :=
  match DragDrop.dropMimeData_loop StandardItem.performDragDropChange
          (encode_quintptr FeedB) model (indexOfItem 0 CategoryX) [] with
  | Ret (_, m1, log) => (m1, log)
  | _ => (model, [])
  end.
End Example.

(** ** Coordinates, in the words of the spec *)

(** The coordinate of an item: the null coordinate for the Root item, and
    for another item its index among its parent's children, in column 0,
    anchored at the item. *)
Definition coordinate (m : FeedsModel.t) (item : ptr) : QModelIndex.t :=
  match FeedsModel.items m !! item with
  | Some it =>
      if decide (RootItem.kind it = RootItemKind.Root) then QModelIndex.invalid
      else
        match FeedsModel.items m !! RootItem.parent it with
        | Some pit =>
            FeedsModel.createIndex m
              (indexOf item (RootItem.childItems pit)) 0 item
        | None => QModelIndex.invalid
        end
  | None => QModelIndex.invalid
  end.

(** The same coordinate in another column. *)
Definition inColumn (column : Z) (i : QModelIndex.t) : QModelIndex.t :=
  QModelIndex.mk (QModelIndex.row i) column (QModelIndex.internalPointer i)
                 (QModelIndex.model i).

(** Re-descending from the Root's coordinate along a path of ancestors,
    the topmost first, "using each ancestor's index among its parent's
    children". *)
Definition redescend (m : FeedsModel.t) (path : list ptr)
  : res QModelIndex.t :=
  foldl (fun coord ancestor =>
           c ← coord;
           it ← deref (FeedsModel.items m) ancestor;
           par ← deref (FeedsModel.items m) (RootItem.parent it);
           FeedsModel.index m (indexOf ancestor (RootItem.childItems par)) 0 c)
        (Ret QModelIndex.invalid) path.

(** The data-changed region of an item's row: column 0 through the last
    column. *)
Definition row_signal (m : FeedsModel.t) (item : ptr) : Event :=
  dataChanged (coordinate m item)
              (inColumn (FEEDS_VIEW_COLUMN_COUNT - 1) (coordinate m item)).

(** The coordinates a caller can hold: the default one, those of other
    models, and those this model made. *)
Inductive produced (m : FeedsModel.t) : QModelIndex.t -> Prop :=
  | produced_default : produced m QModelIndex.invalid
  | produced_foreign i :
      QModelIndex.model i <> FeedsModel.this m -> produced m i
  | produced_index r c par i :
      produced m par -> FeedsModel.index m r c par = Ret i -> produced m i
  | produced_parent child i :
      produced m child -> FeedsModel.parent m child = Ret i -> produced m i
  | produced_indexForItem item i :
      FeedsModel.indexForItem m item = Ret i -> produced m i.

(** A valid coordinate of this model is anchored at an item of the tree
    below the Root. *)
Definition anchored (m : FeedsModel.t) (i : QModelIndex.t) : Prop :=
  QModelIndex.isValid i = true ->
  QModelIndex.model i = FeedsModel.this m ->
  exists chain,
    attached m (QModelIndex.internalPointer i) chain
    /\ QModelIndex.internalPointer i <> FeedsModel.m_rootItem m.

(** The items a selection drags: those of its column-0 coordinates that
    are not of the Root kind. *)
Definition draggable (m : FeedsModel.t) (p : ptr) : bool :=
  match FeedsModel.items m !! p with
  | Some it => negb (bool_decide (RootItem.kind it = RootItemKind.Root))
  | None => false
  end.

Definition dragged_items (m : FeedsModel.t) (indexes : list QModelIndex.t)
  : list ptr :=
  List.filter (draggable m)
    (FeedsModel.itemForIndex m <$>
       List.filter (fun i => QModelIndex.column i =? 0) indexes).

(** The tokens the loop of dropMimeData reads from a stream. *)
Fixpoint stream_tokens (stream : QByteArray) : list ptr :=
  match stream with
  | [] => []
  | b7 :: b6 :: b5 :: b4 :: b3 :: b2 :: b1 :: b0 :: stream' =>
      decode_quintptr [b7; b6; b5; b4; b3; b2; b1; b0] :: stream_tokens stream'
  | _ :: _ => [0]
  end.

(** The unread messages of a list of feeds. *)
Definition unread_of (h : store) (f : ptr) : Z :=
  match h !! f with
  | Some it => RootItem.unread it
  | None => 0
  end.

Definition total_unread (h : store) (feeds : list ptr) : Z :=
  foldr (fun f acc => unread_of h f + acc) 0 feeds.

(** A feed that is in the tree. *)
Definition feed_in_tree (m : FeedsModel.t) (f : ptr) (fit : RootItem.t) : Prop :=
  FeedsModel.items m !! f = Some fit
  /\ RootItem.kind fit = RootItemKind.Feed
  /\ exists chain, attached m f chain.

(** * More of the model

    The functions of core/feedsmodel.cpp that change the tree or walk the
    accounts and the feeds. *)

(** What these functions do besides emitting signals: the deferred
    deletion of an item, the connections to an account and its start. *)
Inductive Action :=
  | emit (e : Event)
  | deleteLater (item : ptr)
  | connect (sender : ptr) (signal : string) (receiver : string)
  | ServiceRoot_start (root : ptr) (freshly_activated : bool).

Module Tree.
Import FeedsModel.

Definition withItems (m : t) (h : store) : t := mk (this m) (m_rootItem m) h.

(** removeItem, the overload on a model index. *)
Definition removeItem_index (m : t) (index : QModelIndex.t)
  : res (t * list Action) :=
  if QModelIndex.isValid index then
    let deleting_item := itemForIndex m index in
    parent_index ← parentOf m index;
    it ← deref (items m) deleting_item;
    let parent_item := RootItem.parent it in
    parent_record ← deref (items m) parent_item;
    let m' :=
      withItems m (Item.removeChild (items m) parent_item deleting_item) in
    counts ← notifyWithCounts m';
    Ret (m',
         emit (beginRemoveRows parent_index (QModelIndex.row index)
                               (QModelIndex.row index))
         :: emit endRemoveRows
         :: deleteLater deleting_item
         :: (emit <$> counts))
  else Ret (m, []).

(** removeItem, the overload on an item pointer. *)
Definition removeItem (m : t) (deleting_item : ptr) : res (t * list Action) :=
  if negb (deleting_item =? nullptr) then
    index ← indexForItem m deleting_item;
    parent_index ← parentOf m index;
    it ← deref (items m) deleting_item;
    let parent_item := RootItem.parent it in
    parent_record ← deref (items m) parent_item;
    let m' :=
      withItems m (Item.removeChild (items m) parent_item deleting_item) in
    counts ← notifyWithCounts m';
    Ret (m',
         emit (beginRemoveRows parent_index (QModelIndex.row index)
                               (QModelIndex.row index))
         :: emit endRemoveRows
         :: deleteLater deleting_item
         :: (emit <$> counts))
  else Ret (m, []).

Fixpoint serviceRoots_loop (h : store) (children : list ptr)
  : res (list ptr) :=
  match children with
  | [] => Ret []
  | root :: children' =>
      it ← deref h root;
      later ← serviceRoots_loop h children';
      if decide (RootItem.kind it = RootItemKind.ServiceRoot)
      then Ret (root :: later)
      else Ret later
  end.

Definition serviceRoots (m : t) : res (list ptr) :=
  r ← deref (items m) (m_rootItem m);
  serviceRoots_loop (items m) (RootItem.childItems r).

Definition addServiceAccount (m : t) (root : ptr) (freshly_activated : bool)
  : res (bool * t * list Action) :=
  r ← deref (items m) (m_rootItem m);
  let new_row_index := RootItem.childCount r in
  root_index ← indexForItem m (m_rootItem m);
  root_record ← deref (items m) root;
  let m' := withItems m (Item.appendChild (items m) (m_rootItem m) root) in
  Ret (true, m',
       [emit (beginInsertRows root_index new_row_index new_row_index);
        emit endInsertRows;
        connect root "itemRemovalRequested(RootItem*)"
                "removeItem(RootItem*)";
        connect root "itemReassignmentRequested(RootItem*,RootItem*)"
                "reassignNodeToNewParent(RootItem*,RootItem*)";
        connect root "dataChanged(QList<RootItem*>)"
                "onItemDataChanged(QList<RootItem*>)";
        connect root "reloadMessageListRequested(bool)"
                "reloadMessageListRequested(bool)";
        connect root "itemExpandRequested(QList<RootItem*>,bool)"
                "itemExpandRequested(QList<RootItem*>,bool)";
        connect root "itemExpandStateSaveRequested(RootItem*)"
                "itemExpandStateSaveRequested(RootItem*)";
        ServiceRoot_start root freshly_activated]).

(** An item that no item of the store lists among its children. *)
Definition unlistedb (h : store) (a : ptr) : bool :=
  forallb (fun entry : ptr * RootItem.t =>
             negb (bool_decide (a ∈ RootItem.childItems entry.2)))
          (map_to_list h).

(** An account that is not in the tree yet: an item of the ServiceRoot
    kind that no item lists. *)
Definition new_accountb (h : store) (a : ptr) : bool :=
  match h !! a with
  | Some ait => bool_decide (RootItem.kind ait = RootItemKind.ServiceRoot)
  | None => false
  end
  && unlistedb h a.

Definition new_account (h : store) (a : ptr) : Prop := new_accountb h a = true.

(** FeedsModel::loadActivatedServiceAccounts. The entry points are
    collaborators: [feedServices] holds, for each entry point in turn,
    the accounts that its initializeSubtree answers. *)
Fixpoint loadActivatedServiceAccounts_roots (m : t) (roots : list ptr)
  : res (t * list Action) :=
  match roots with
  | [] => Ret (m, [])
  | root :: roots' =>
      '(added, m1, actions) ← addServiceAccount m root false;
      '(m2, later) ← loadActivatedServiceAccounts_roots m1 roots';
      Ret (m2, actions ++ later)
  end.

Fixpoint loadActivatedServiceAccounts (m : t) (feedServices : list (list ptr))
  : res (t * list Action) :=
  match feedServices with
  | [] => Ret (m, [])
  | roots :: feedServices' =>
      '(m1, actions) ← loadActivatedServiceAccounts_roots m roots;
      '(m2, later) ← loadActivatedServiceAccounts m1 feedServices';
      Ret (m2, actions ++ later)
  end.

(** The accounts started among the actions, in order, each with the
    flag it was started with. *)
Definition started (actions : list Action) : list (ptr * bool) :=
  omap (fun a => match a with
                 | ServiceRoot_start root freshly_activated =>
                     Some (root, freshly_activated)
                 | _ => None
                 end) actions.

Section Bins.
(** The recycle bins are collaborators: what an account answers for its
    bin (null when it has none), and what restoring or emptying a bin
    answers and does to the world outside the tree. *)
Variable World : Type.
Variable recycleBin : ptr -> ptr.
Variable restore : World -> ptr -> bool * World.
Variable empty : World -> ptr -> bool * World.

(** The loop of restoreAllBins and of emptyAllBins, which differ by the
    operation on the bin. The calls made are recorded with their answers. *)
Fixpoint allBins_loop (operation : World -> ptr -> bool * World)
  (roots : list ptr) (result : bool) (w : World) (calls : list (ptr * bool))
  : bool * World * list (ptr * bool) :=
  match roots with
  | [] => (result, w, calls)
  | root :: roots' =>
      let bin_of_root := recycleBin root in
      if negb (bin_of_root =? nullptr) then
        let '(answer, w') := operation w bin_of_root in
        allBins_loop operation roots' (result && answer) w'
                     (calls ++ [(bin_of_root, answer)])
      else allBins_loop operation roots' result w calls
  end.

Definition restoreAllBins (m : t) (w : World)
  : res (bool * World * list (ptr * bool)) :=
  roots ← serviceRoots m;
  Ret (allBins_loop restore roots true w []).

Definition emptyAllBins (m : t) (w : World)
  : res (bool * World * list (ptr * bool)) :=
  roots ← serviceRoots m;
  Ret (allBins_loop empty roots true w []).
End Bins.
End Tree.

(** The operation on the bins one after the other, each on the world
    that the one before left: the answers in turn and the world at the
    end. *)
Fixpoint operate {World : Type} (operation : World -> ptr -> bool * World)
  (bins : list ptr) (w : World) : list bool * World :=
  match bins with
  | [] => ([], w)
  | bin :: bins' =>
      let '(answer, w1) := operation w bin in
      let '(answers, w2) := operate operation bins' w1 in
      (answer :: answers, w2)
  end.

(** Whether an item of the store is an account. *)
Definition is_account (h : store) (a : ptr) : bool :=
  match h !! a with
  | Some it => bool_decide (RootItem.kind it = RootItemKind.ServiceRoot)
  | None => false
  end.

(** ** Scheduled updates *)

Module Schedule.
(** Feed::AutoUpdateType and the two intervals of a feed, which the feed
    class keeps beside the fields of an item. *)
Inductive AutoUpdateType :=
  | DontAutoUpdate | DefaultAutoUpdate | SpecificAutoUpdate.

Record t := mk {
  autoUpdateType : AutoUpdateType;
  autoUpdateInitialInterval : Z;
  autoUpdateRemainingInterval : Z
}.

Definition setAutoUpdateRemainingInterval (v : Z) (f : t) : t :=
  mk (autoUpdateType f) (autoUpdateInitialInterval f) v.

(** The least value of an int. *)
Definition INT_MIN : Z := - 2 ^ 31.

(** The loop of feedsForScheduledUpdate over the feeds of the tree. The
    decrement of an int at its least value is an overflow. *)
Fixpoint feedsForScheduledUpdate_loop (auto_update_now : bool)
  (feeds : list ptr) (s : gmap Z t) : res (list ptr * gmap Z t) :=
  match feeds with
  | [] => Ret ([], s)
  | feed :: feeds' =>
      match s !! feed with
      | None => Undefined
      | Some f =>
          match autoUpdateType f with
          | DontAutoUpdate =>
              feedsForScheduledUpdate_loop auto_update_now feeds' s
          | DefaultAutoUpdate =>
              '(later, s') ←
                feedsForScheduledUpdate_loop auto_update_now feeds' s;
              Ret (if auto_update_now then feed :: later else later, s')
          | SpecificAutoUpdate =>
              let remaining_interval := autoUpdateRemainingInterval f in
              if remaining_interval =? INT_MIN then Undefined
              else
                let remaining_interval := remaining_interval - 1 in
                if remaining_interval <=? 0 then
                  '(later, s') ←
                    feedsForScheduledUpdate_loop auto_update_now feeds'
                      (<[feed := setAutoUpdateRemainingInterval
                                   (autoUpdateInitialInterval f) f]> s);
                  Ret (feed :: later, s')
                else
                  '(later, s') ←
                    feedsForScheduledUpdate_loop auto_update_now feeds'
                      (<[feed := setAutoUpdateRemainingInterval
                                   remaining_interval f]> s);
                  Ret (later, s')
          end
      end
  end.

Definition feedsForScheduledUpdate (m : FeedsModel.t) (s : gmap Z t)
  (auto_update_now : bool) : res (list ptr * gmap Z t) :=
  feeds ← Item.getSubTreeFeeds (FeedsModel.items m) (FeedsModel.m_rootItem m);
  feedsForScheduledUpdate_loop auto_update_now feeds s.

(** Whether a call selects a feed, and what it leaves of its schedule. *)
Definition due (auto_update_now : bool) (f : t) : bool :=
  match autoUpdateType f with
  | DontAutoUpdate => false
  | DefaultAutoUpdate => auto_update_now
  | SpecificAutoUpdate => autoUpdateRemainingInterval f - 1 <=? 0
  end.

Definition tick (f : t) : t :=
  match autoUpdateType f with
  | SpecificAutoUpdate =>
      if autoUpdateRemainingInterval f - 1 <=? 0
      then setAutoUpdateRemainingInterval (autoUpdateInitialInterval f) f
      else setAutoUpdateRemainingInterval (autoUpdateRemainingInterval f - 1) f
  | _ => f
  end.

(** The schedule of a feed is within the range of int and its decrement
    does not overflow, now or after the interval is set anew. *)
Definition in_range (f : t) : Prop :=
  autoUpdateType f = SpecificAutoUpdate ->
  INT_MIN < autoUpdateRemainingInterval f
  /\ INT_MIN < autoUpdateInitialInterval f.

(** The check that every feed of the store has a schedule in range. *)
Definition in_rangeb (f : t) : bool :=
  match autoUpdateType f with
  | SpecificAutoUpdate =>
      (INT_MIN <? autoUpdateRemainingInterval f)
      && (INT_MIN <? autoUpdateInitialInterval f)
  | _ => true
  end.

Definition scheduledb (h : store) (s : gmap Z t) : bool :=
  forallb (fun entry : ptr * RootItem.t =>
             match RootItem.kind entry.2 with
             | RootItemKind.Feed =>
                 match s !! entry.1 with
                 | Some f => in_rangeb f
                 | None => false
                 end
             | _ => true
             end)
          (map_to_list h).

(** Successive calls on the same tree: the feeds each call selected, the
    first call first, and the schedules at the end. *)
Fixpoint calls (n : nat) (m : FeedsModel.t) (s : gmap Z t)
  (auto_update_now : bool) : res (list (list ptr) * gmap Z t) :=
  match n with
  | O => Ret ([], s)
  | S n' =>
      '(selected, s') ← feedsForScheduledUpdate m s auto_update_now;
      '(later, s'') ← calls n' m s' auto_update_now;
      Ret (selected :: later, s'')
  end.
End Schedule.

(** ** A second example

    The tree of the example with two accounts that are not in the tree
    yet, the schedules of its feeds, and the recycle bins of its
    accounts. *)

Module Scenario.
Definition Account3 : ptr := 4104.
Definition Account4 : ptr := 4105.

Definition heap : store :=
  <[Account3 := RootItem.mk RootItemKind.ServiceRoot nullptr [] 0 Feed.Normal]>
    (<[Account4 := RootItem.mk RootItemKind.ServiceRoot nullptr [] 0
                     Feed.Normal]> Example.heap).

Definition model : FeedsModel.t := FeedsModel.mk 512 Example.Root heap.

(** FeedA is never updated, FeedB follows the default interval, FeedC
    is updated every third call and is due at the second. *)
Definition schedules : gmap Z Schedule.t :=
  list_to_map
    [ (Example.FeedA, Schedule.mk Schedule.DontAutoUpdate 0 0);
      (Example.FeedB, Schedule.mk Schedule.DefaultAutoUpdate 0 0);
      (Example.FeedC, Schedule.mk Schedule.SpecificAutoUpdate 3 2) ].

(** Account1 has a recycle bin, Account2 has none. The world outside
    the tree is the list of the bins operated on, the last one first;
    restoring answers true and emptying answers false. *)
Definition recycleBin (account : ptr) : ptr :=
  if account =? Example.Account1 then 8193 else nullptr.

Definition restore (w : list ptr) (bin : ptr) : bool * list ptr :=
  (true, bin :: w).

Definition empty (w : list ptr) (bin : ptr) : bool * list ptr :=
  (false, bin :: w).

(** The tree without FeedB, removed from CategoryY. *)
Definition without_FeedB : FeedsModel.t :=
  Tree.withItems Example.model
    (Item.removeChild Example.heap Example.CategoryY Example.FeedB).

(** The model and the signals once FeedB decided on its move under
    CategoryX. *)
Definition moved : FeedsModel.t * list Event :=
  match StandardItem.performDragDropChange Example.model Example.FeedB
          Example.CategoryX with
  | Ret (_, m1, evs) => (m1, evs)
  | _ => (Example.model, [])
  end.
End Scenario.

(** * Properties *)

(** ** Lists and results *)

Lemma bind_Ret {A B} (a : A) (f : A -> res B) : (Ret a ≫= f) = f a.
Proof. reflexivity. Qed.

Lemma bind_inv {A B} (x : res A) (f : A -> res B) (b : B) :
  x ≫= f = Ret b -> exists a, x = Ret a /\ f a = Ret b.
Proof. destruct x; [eauto | discriminate | discriminate]. Qed.

Lemma deref_Some (h : store) p it : h !! p = Some it -> deref h p = Ret it.
Proof. unfold deref. by intros ->. Qed.

Lemma indexOf_bounds x l : -1 <= indexOf x l < Z.of_nat (length l).
Proof.
  induction l as [|y l IH]; simpl; [lia|].
  destruct (decide (x = y)); [lia|].
  destruct (indexOf x l <? 0) eqn:E; lia.
Qed.

Lemma indexOf_elem x l :
  x ∈ l -> 0 <= indexOf x l /\ l !! Z.to_nat (indexOf x l) = Some x.
Proof.
  induction l as [|y l IH]; intros Hin; [by apply elem_of_nil in Hin|].
  simpl. destruct (decide (x = y)) as [->|Hne]; [done|].
  apply elem_of_cons in Hin as [?|Hin]; [done|].
  destruct (IH Hin) as [Hge Hl].
  destruct (indexOf x l <? 0) eqn:E; [lia|].
  split; [lia|].
  replace (Z.to_nat (indexOf x l + 1)) with (S (Z.to_nat (indexOf x l))) by lia.
  done.
Qed.

Lemma indexOf_lookup l (i : nat) x :
  NoDup l -> l !! i = Some x -> indexOf x l = Z.of_nat i.
Proof.
  revert i. induction l as [|y l IH]; intros i Hnd Hl; [done|].
  apply NoDup_cons in Hnd as [Hny Hnd]. simpl.
  destruct i as [|i]; simpl in Hl.
  - injection Hl as ->. by rewrite decide_True.
  - destruct (decide (x = y)) as [->|Hne].
    + exfalso. apply Hny. by eapply list_elem_of_lookup_2.
    + rewrite (IH i Hnd Hl).
      destruct (Z.of_nat i <? 0) eqn:E; lia.
Qed.

(** ** Well-formed trees *)

Section WellFormed.
Import FeedsModel.
Variable m : FeedsModel.t.
Hypothesis Hwf : well_formed m.

Lemma wf_this : this m <> nullptr.
Proof using Hwf.
  unfold well_formed, well_formedb in Hwf.
  apply andb_prop in Hwf as [H _]. apply andb_prop in H as [H _].
  apply negb_true_iff in H. by apply Z.eqb_neq in H.
Qed.

Lemma wf_root_item :
  exists r, items m !! m_rootItem m = Some r
            /\ RootItem.kind r = RootItemKind.Root
            /\ RootItem.parent r = nullptr.
Proof using Hwf.
  unfold well_formed, well_formedb in Hwf.
  apply andb_prop in Hwf as [H _]. apply andb_prop in H as [_ H].
  destruct (items m !! m_rootItem m) as [r|]; [|done].
  apply andb_prop in H as [Hk Hp].
  exists r. split; [done|]. split; [by apply bool_decide_eq_true in Hk|].
  by apply Z.eqb_eq.
Qed.

Lemma wf_root :
  exists r, items m !! m_rootItem m = Some r
            /\ RootItem.kind r = RootItemKind.Root.
Proof using Hwf. destruct wf_root_item as (r & ? & ? & _). eauto. Qed.

Lemma wf_item p it :
  items m !! p = Some it -> item_ok (items m) (p, it) = true.
Proof using Hwf.
  intros Hp. unfold well_formed, well_formedb in Hwf.
  apply andb_prop in Hwf as [_ H].
  rewrite forallb_forall in H. apply H.
  apply list_elem_of_In. by apply elem_of_map_to_list.
Qed.

Lemma wf_range p it : items m !! p = Some it -> 0 < p < 2 ^ 64.
Proof using Hwf.
  intros Hp. apply wf_item in Hp. simpl in Hp.
  repeat (apply andb_prop in Hp as [Hp ?]). lia.
Qed.

Lemma wf_nodup p it :
  items m !! p = Some it -> NoDup (RootItem.childItems it).
Proof using Hwf.
  intros Hp. apply wf_item in Hp. simpl in Hp.
  repeat (apply andb_prop in Hp as [Hp ?]).
  by eapply bool_decide_eq_true.
Qed.

Lemma wf_child p it c :
  items m !! p = Some it -> c ∈ RootItem.childItems it ->
  exists cit, items m !! c = Some cit /\ RootItem.parent cit = p
              /\ RootItem.kind cit <> RootItemKind.Root.
Proof using Hwf.
  intros Hp Hc. apply wf_item in Hp. simpl in Hp.
  repeat (apply andb_prop in Hp as [Hp ?]).
  match goal with H : forallb _ _ = true |- _ => rewrite forallb_forall in H;
    specialize (H c (proj1 (list_elem_of_In _ _) Hc)); rename H into Hok end.
  unfold child_ok in Hok. destruct (items m !! c) as [cit|]; [|done].
  apply andb_prop in Hok as [Hpar Hk]. exists cit.
  split; [done|]. split; [by apply Z.eqb_eq|].
  apply negb_true_iff in Hk. by apply bool_decide_eq_false in Hk.
Qed.

Lemma wf_feed_leaf p it :
  items m !! p = Some it -> RootItem.kind it = RootItemKind.Feed ->
  RootItem.childItems it = [].
Proof using Hwf.
  intros Hp Hk. apply wf_item in Hp. simpl in Hp.
  apply andb_prop in Hp as [_ Hp]. rewrite Hk in Hp.
  by destruct (RootItem.childItems it).
Qed.

Lemma attached_lookup p chain :
  attached m p chain -> exists it, items m !! p = Some it.
Proof using Hwf.
  destruct 1; [|eauto]. destruct wf_root as (r & ? & _). eauto.
Qed.

Lemma attached_chain_items p chain :
  attached m p chain ->
  Forall (fun x => exists it, items m !! x = Some it
                              /\ RootItem.kind it <> RootItemKind.Root) chain.
Proof.
  induction 1; constructor; eauto.
Qed.

Lemma attached_suffix p chain x :
  attached m p chain -> x ∈ chain ->
  exists c, attached m x c /\ (length c <= length chain)%nat.
Proof.
  induction 1 as [|p it pit chain Hp Hk Hpar Hin Hatt IH]; intros Hx.
  - by apply elem_of_nil in Hx.
  - apply elem_of_cons in Hx as [->|Hx].
    + exists (p :: chain). split; [by econstructor|done].
    + destruct (IH Hx) as (c & Hc & Hlen). exists c. split; [done|].
      simpl. lia.
Qed.

Lemma attached_unique p c1 c2 :
  attached m p c1 -> attached m p c2 -> c1 = c2.
Proof using Hwf.
  intros H1. revert c2.
  induction H1 as [|p it pit chain Hp Hk Hpar Hin Hatt IH]; intros c2 H2.
  - inversion H2 as [|? it' ? ? Hp' Hk']; [done|]; subst.
    destruct wf_root as (r & Hr & Hkr). congruence.
  - inversion H2 as [Hroot|? it' pit' chain' Hp' Hk' Hpar' Hin' Hatt']; subst.
    + destruct wf_root as (r & Hr & Hkr). congruence.
    + assert (it' = it) as -> by congruence.
      f_equal. by apply IH.
Qed.

Lemma attached_NoDup p chain : attached m p chain -> NoDup chain.
Proof using Hwf.
  induction 1 as [|p it pit chain Hp Hk Hpar Hin Hatt IH]; [constructor|].
  constructor; [|done].
  intros Hx. destruct (attached_suffix _ _ _ Hatt Hx) as (c & Hc & Hlen).
  assert (c = p :: chain) as ->
    by (eapply attached_unique; [done|by econstructor]).
  simpl in Hlen. lia.
Qed.

(** The depth of an attached item is below the number of items. *)
Lemma attached_depth p chain :
  attached m p chain -> (length chain < size (items m))%nat.
Proof using Hwf.
  intros Hatt. destruct wf_root as (r & Hr & Hkr).
  pose proof (attached_chain_items _ _ Hatt) as Hall.
  rewrite Forall_forall in Hall.
  assert (NoDup (m_rootItem m :: chain)) as Hnd.
  { constructor; [|by eapply attached_NoDup].
    intros Hx. destruct (Hall _ Hx) as (it & Hit & Hk). congruence. }
  assert (m_rootItem m :: chain ⊆+ (map_to_list (items m)).*1) as Hsub.
  { apply NoDup_submseteq; [done|]. intros x Hx.
    assert (exists it, items m !! x = Some it) as [it Hit].
    { apply elem_of_cons in Hx as [->|Hx]; [eauto|].
      destruct (Hall _ Hx) as (it & Hit & _). eauto. }
    apply list_elem_of_fmap. exists (x, it). split; [done|].
    by apply elem_of_map_to_list. }
  apply submseteq_length in Hsub.
  rewrite length_fmap, length_map_to_list in Hsub. simpl in Hsub. lia.
Qed.

Lemma attached_child_of p it c chain :
  attached m p chain -> items m !! p = Some it ->
  c ∈ RootItem.childItems it -> attached m c (c :: chain).
Proof using Hwf.
  intros Hatt Hp Hc.
  destruct (wf_child _ _ _ Hp Hc) as (cit & Hcit & Hpar & Hk).
  eapply attached_child; eauto; rewrite Hpar; eauto.
Qed.

Lemma attached_root_kind p it chain :
  attached m p chain -> items m !! p = Some it ->
  (RootItem.kind it = RootItemKind.Root <-> p = m_rootItem m).
Proof using Hwf.
  intros Hatt Hp. destruct wf_root as (r & Hr & Hkr). split.
  - intros Hk. inversion Hatt; subst; [done|congruence].
  - intros ->. congruence.
Qed.
End WellFormed.

(** ** Coordinates of attached items *)

Section Coordinates.
Import FeedsModel.
Variable m : FeedsModel.t.
Hypothesis Hwf : well_formed m.

Lemma itemForIndex_invalid : itemForIndex m QModelIndex.invalid = m_rootItem m.
Proof. reflexivity. Qed.

Lemma itemForIndex_createIndex r c p :
  0 <= r -> 0 <= c -> itemForIndex m (createIndex m r c p) = p.
Proof using Hwf.
  intros Hr Hc. pose proof (wf_this m Hwf) as Hthis.
  unfold itemForIndex, createIndex, QModelIndex.isValid, nullptr in *. simpl.
  rewrite (proj2 (Z.leb_le 0 r) Hr), (proj2 (Z.leb_le 0 c) Hc).
  rewrite (proj2 (Z.eqb_neq _ _) Hthis), Z.eqb_refl. done.
Qed.

Lemma isValid_createIndex r c p :
  0 <= r -> 0 <= c -> QModelIndex.isValid (createIndex m r c p) = true.
Proof using Hwf.
  intros Hr Hc. pose proof (wf_this m Hwf) as Hthis.
  unfold createIndex, QModelIndex.isValid, nullptr in *. simpl.
  rewrite (proj2 (Z.leb_le 0 r) Hr), (proj2 (Z.leb_le 0 c) Hc).
  by rewrite (proj2 (Z.eqb_neq _ _) Hthis).
Qed.

(** The row-th child of the item a coordinate addresses. *)
Lemma index_child target pit x col :
  items m !! itemForIndex m target = Some pit ->
  QModelIndex.column target <= 0 ->
  x ∈ RootItem.childItems pit ->
  0 <= col < FEEDS_VIEW_COLUMN_COUNT ->
  index m (indexOf x (RootItem.childItems pit)) col target
  = Ret (createIndex m (indexOf x (RootItem.childItems pit)) col x).
Proof using Hwf.
  intros Hp Hcol Hx Hc.
  destruct (indexOf_elem _ _ Hx) as [Hge Hl].
  pose proof (indexOf_bounds x (RootItem.childItems pit)) as Hb.
  destruct (wf_child m Hwf _ _ _ Hp Hx) as (cit & Hcit & _ & _).
  pose proof (wf_range m Hwf _ _ Hcit) as Hrange.
  unfold index, hasIndex, rowCount, columnCount, deref.
  rewrite (proj2 (Z.ltb_ge _ 0) Hge), (proj2 (Z.ltb_ge col 0) (proj1 Hc)).
  rewrite (proj2 (Z.ltb_ge 0 _) Hcol). simpl.
  rewrite Hp. simpl. unfold RootItem.childCount.
  rewrite (proj2 (Z.ltb_lt _ _) (proj2 Hb)), (proj2 (Z.ltb_lt _ _) (proj2 Hc)).
  simpl. unfold RootItem.child.
  rewrite (proj2 (Z.ltb_ge _ 0) Hge), Hl. simpl.
  unfold nullptr. by rewrite (proj2 (Z.eqb_neq x 0)) by lia.
Qed.

(** What index answers, whenever it answers. *)
Lemma index_inv r c par i :
  index m r c par = Ret i ->
  i = QModelIndex.invalid
  \/ exists pit x,
       items m !! itemForIndex m par = Some pit
       /\ RootItem.childItems pit !! Z.to_nat r = Some x
       /\ 0 <= r /\ 0 <= c < FEEDS_VIEW_COLUMN_COUNT
       /\ QModelIndex.column par <= 0
       /\ i = createIndex m r c x.
Proof.
  unfold index, hasIndex, rowCount, columnCount, deref.
  destruct (r <? 0) eqn:Er; simpl; [intros [= <-]; by left|].
  destruct (c <? 0) eqn:Ec; simpl; [intros [= <-]; by left|].
  destruct (0 <? QModelIndex.column par) eqn:Ecol; simpl.
  { replace (r <? 0) with false by (symmetry; lia). simpl.
    intros [= <-]. by left. }
  destruct (items m !! itemForIndex m par) as [pit|] eqn:Hp; [|done]. simpl.
  destruct (r <? RootItem.childCount pit) eqn:Erc; simpl;
    [|intros [= <-]; by left].
  destruct (c <? FEEDS_VIEW_COLUMN_COUNT) eqn:Ecc; simpl;
    [|intros [= <-]; by left].
  unfold RootItem.child. rewrite Er.
  destruct (RootItem.childItems pit !! Z.to_nat r) as [x|] eqn:Hx; simpl;
    [|intros [= <-]; by left].
  destruct (x =? nullptr) eqn:Ex; intros [= <-]; [by left|].
  right. exists pit, x. repeat split; try done; lia.
Qed.

Lemma coordinate_root : coordinate m (m_rootItem m) = QModelIndex.invalid.
Proof using Hwf.
  destruct (wf_root m Hwf) as (r & Hr & Hkr).
  unfold coordinate. rewrite Hr. by rewrite decide_True.
Qed.

Lemma coordinate_child p it pit :
  items m !! p = Some it -> RootItem.kind it <> RootItemKind.Root ->
  items m !! RootItem.parent it = Some pit ->
  coordinate m p
  = createIndex m (indexOf p (RootItem.childItems pit)) 0 p.
Proof.
  intros Hp Hk Hpar. unfold coordinate.
  rewrite Hp. rewrite decide_False by done. by rewrite Hpar.
Qed.

Lemma coordinate_column p : QModelIndex.column (coordinate m p) <= 0.
Proof.
  unfold coordinate.
  repeat (case_match; simpl; try lia).
Qed.

Lemma itemForIndex_coordinate p chain :
  attached m p chain -> itemForIndex m (coordinate m p) = p.
Proof using Hwf.
  destruct 1 as [|p it pit chain Hp Hk Hpar Hin Hatt].
  - by rewrite coordinate_root.
  - rewrite (coordinate_child _ _ _ Hp Hk Hpar).
    apply itemForIndex_createIndex; [|done].
    by apply indexOf_elem.
Qed.

(** The first loop collects the chain, the topmost ancestor on top. *)
Lemma indexForItem_chain_attached p chain :
  attached m p chain ->
  forall fuel acc, (length chain < fuel)%nat ->
    indexForItem_chain fuel m p acc = Ret (rev chain ++ acc).
Proof using Hwf.
  induction 1 as [|p it pit chain Hp Hk Hpar Hin Hatt IH];
    intros fuel acc Hfuel.
  - destruct (wf_root m Hwf) as (r & Hr & Hkr).
    destruct fuel as [|fuel]; [simpl in Hfuel; lia|].
    simpl. unfold deref. rewrite Hr. simpl. by rewrite decide_True.
  - destruct fuel as [|fuel]; [simpl in Hfuel; lia|].
    simpl. unfold deref. rewrite Hp. simpl. rewrite decide_False by done.
    rewrite IH by (simpl in Hfuel; lia).
    by rewrite <- app_assoc.
Qed.

(** The second loop ends on the coordinate of the item. *)
Lemma indexForItem_descend_attached p chain :
  attached m p chain ->
  forall rest,
    indexForItem_descend m (rev chain ++ rest) QModelIndex.invalid
    = indexForItem_descend m rest (coordinate m p).
Proof using Hwf.
  induction 1 as [|p it pit chain Hp Hk Hpar Hin Hatt IH]; intros rest.
  - by rewrite coordinate_root.
  - simpl. rewrite <- app_assoc. rewrite IH. simpl.
    unfold deref. rewrite Hp. simpl. rewrite Hpar. simpl.
    rewrite (index_child _ pit p 0); try done.
    + simpl. by rewrite (coordinate_child _ _ _ Hp Hk Hpar).
    + by rewrite (itemForIndex_coordinate _ _ Hatt).
    + apply coordinate_column.
Qed.

Lemma indexForItem_rec_root fuel :
  indexForItem_rec (S fuel) m (m_rootItem m) = Ret QModelIndex.invalid.
Proof using Hwf.
  destruct (wf_root m Hwf) as (r & Hr & Hkr). simpl.
  destruct (m_rootItem m =? nullptr); [done|].
  unfold deref. rewrite Hr. simpl. by rewrite decide_True.
Qed.

Lemma indexForItem_rec_S fuel item :
  indexForItem_rec (S fuel) m item
  = if item =? nullptr then Ret QModelIndex.invalid
    else
      it ← deref (items m) item;
      if decide (RootItem.kind it = RootItemKind.Root)
      then Ret QModelIndex.invalid
      else
        chain ← indexForItem_chain fuel m item [];
        target_index ← indexForItem_rec fuel m (m_rootItem m);
        indexForItem_descend m chain target_index.
Proof. reflexivity. Qed.

(** The coordinate of an attached item is what indexForItem answers. *)
Lemma indexForItem_attached p chain :
  attached m p chain -> indexForItem m p = Ret (coordinate m p).
Proof using Hwf.
  intros Hatt. pose proof (attached_depth m Hwf _ _ Hatt) as Hdepth.
  unfold indexForItem.
  destruct Hatt as [|p it pit chain Hp Hk Hpar Hin Hatt].
  - rewrite coordinate_root. apply indexForItem_rec_root.
  - pose proof (wf_range m Hwf _ _ Hp) as Hrange.
    change (2 + size (items m))%nat with (S (S (size (items m)))).
    rewrite indexForItem_rec_S.
    unfold nullptr. rewrite (proj2 (Z.eqb_neq p 0)) by lia.
    rewrite (deref_Some _ _ _ Hp), bind_Ret.
    rewrite decide_False by done.
    rewrite (indexForItem_chain_attached p (p :: chain))
      by (try (by econstructor); lia).
    rewrite bind_Ret, indexForItem_rec_root, bind_Ret.
    rewrite (indexForItem_descend_attached p (p :: chain))
      by (by econstructor).
    done.
Qed.
End Coordinates.

(** ** Round trips between items and coordinates *)

Section RoundTrips.
Import FeedsModel.
Variable m : FeedsModel.t.

Lemma foldl_not_Ret {A B} (f : res A -> B -> res A) (x : res A) l :
  (forall b, f Undefined b = Undefined) ->
  (forall b, f Diverges b = Diverges) ->
  x = Undefined \/ x = Diverges -> foldl f x l = x.
Proof.
  intros HU HD. induction l as [|b l IH]; intros Hx; [done|].
  simpl. destruct Hx as [-> | ->]; [rewrite HU | rewrite HD]; auto.
Qed.

(** The second loop of indexForItem is the re-descent of the spec. *)
Lemma indexForItem_descend_redescend path :
  indexForItem_descend m path QModelIndex.invalid = redescend m path.
Proof.
  unfold redescend. generalize QModelIndex.invalid.
  induction path as [|a path IH]; intros c; [done|].
  simpl.
  destruct (deref (items m) a) as [it| |] eqn:Ha; simpl;
    [|by rewrite foldl_not_Ret; auto..].
  destruct (deref (items m) (RootItem.parent it)) as [par| |] eqn:Hpar; simpl;
    [|by rewrite foldl_not_Ret; auto..].
  destruct (index m _ 0 c) as [c'| |] eqn:Hc; simpl;
    [apply IH|by rewrite foldl_not_Ret; auto..].
Qed.

Lemma indexForItem_nullptr : indexForItem m nullptr = Ret QModelIndex.invalid.
Proof. reflexivity. Qed.

Lemma indexForItem_Root_kind item it :
  items m !! item = Some it -> RootItem.kind it = RootItemKind.Root ->
  indexForItem m item = Ret QModelIndex.invalid.
Proof.
  intros Hp Hk. unfold indexForItem.
  change (2 + size (items m))%nat with (S (S (size (items m)))).
  rewrite indexForItem_rec_S.
  destruct (item =? nullptr); [done|].
  rewrite (deref_Some _ _ _ Hp), bind_Ret. by rewrite decide_True.
Qed.

Lemma attached_not_root item chain :
  attached m item chain -> item <> m_rootItem m ->
  exists it pit chain',
    chain = item :: chain'
    /\ items m !! item = Some it
    /\ RootItem.kind it <> RootItemKind.Root
    /\ items m !! RootItem.parent it = Some pit
    /\ item ∈ RootItem.childItems pit
    /\ attached m (RootItem.parent it) chain'.
Proof.
  destruct 1 as [|p it pit chain Hp Hk Hpar Hin Hatt]; [done|].
  intros _. exists it, pit, chain. eauto 10.
Qed.

(** C5: a null item and the Root item map to the null coordinate; for
    another item attached to the tree, the walk up the parent links
    collects the chain of the item and its ancestors below the Root, and
    the answer is the re-descent from the Root's coordinate along that
    chain, each step taking the ancestor's index among its parent's
    children: a coordinate anchored at the item. *)
Theorem indexForItem_walk :
  indexForItem m nullptr = Ret QModelIndex.invalid
  /\ (forall item it,
        items m !! item = Some it ->
        RootItem.kind it = RootItemKind.Root ->
        indexForItem m item = Ret QModelIndex.invalid)
  /\ (well_formed m ->
      forall item chain,
        attached m item chain -> item <> m_rootItem m ->
        indexForItem_chain (S (size (items m))) m item [] = Ret (rev chain)
        /\ indexForItem m item = redescend m (rev chain)
        /\ exists it pit,
             items m !! item = Some it
             /\ items m !! RootItem.parent it = Some pit
             /\ indexForItem m item
                = Ret (createIndex m
                         (indexOf item (RootItem.childItems pit)) 0 item)).
Proof.
  split; [apply indexForItem_nullptr|].
  split; [apply indexForItem_Root_kind|].
  intros Hwf item chain Hatt Hne.
  pose proof (attached_depth m Hwf _ _ Hatt) as Hdepth.
  pose proof (indexForItem_attached m Hwf _ _ Hatt) as Hidx.
  split; [|split].
  - rewrite (indexForItem_chain_attached m Hwf _ _ Hatt) by lia.
    by rewrite app_nil_r.
  - rewrite <- indexForItem_descend_redescend.
    rewrite <- (app_nil_r (rev chain)).
    by rewrite (indexForItem_descend_attached m Hwf _ _ Hatt).
  - destruct (attached_not_root _ _ Hatt Hne)
      as (it & pit & chain' & -> & Hp & Hk & Hpar & Hin & Hatt').
    exists it, pit. split; [done|]. split; [done|].
    by rewrite Hidx, (coordinate_child m _ _ _ Hp Hk Hpar).
Qed.

(** C10: for an item attached to the tree other than the Root item, the
    coordinate indexForItem answers resolves back to the item and is in
    column 0. *)
Theorem itemForIndex_indexForItem item chain :
  well_formed m -> attached m item chain -> item <> m_rootItem m ->
  exists c,
    indexForItem m item = Ret c
    /\ itemForIndex m c = item
    /\ QModelIndex.column c = 0.
Proof.
  intros Hwf Hatt Hne. exists (coordinate m item).
  split; [by eapply indexForItem_attached|].
  split; [by eapply itemForIndex_coordinate|].
  destruct (attached_not_root _ _ Hatt Hne)
    as (it & pit & chain' & -> & Hp & Hk & Hpar & Hin & Hatt').
  by rewrite (coordinate_child m _ _ _ Hp Hk Hpar).
Qed.

(** C2, as the code has it: for a valid coordinate c that index made for
    a child of an item of the tree, indexForItem of the item c resolves
    to is c moved to column 0; it is c itself when c is in column 0. *)
Theorem indexForItem_itemForIndex r col par chain c :
  well_formed m ->
  attached m (itemForIndex m par) chain ->
  index m r col par = Ret c ->
  QModelIndex.isValid c = true ->
  indexForItem m (itemForIndex m c) = Ret (inColumn 0 c)
  /\ (col = 0 -> indexForItem m (itemForIndex m c) = Ret c).
Proof.
  intros Hwf Hatt Hidx Hvalid.
  destruct (index_inv m _ _ _ _ Hidx)
    as [->|(pit & x & Hp & Hx & Hr & Hc & _ & ->)]; [done|].
  assert (x ∈ RootItem.childItems pit) as Hin
    by (by eapply list_elem_of_lookup_2).
  destruct (wf_child m Hwf _ _ _ Hp Hin) as (xit & Hxit & Hxpar & Hxk).
  pose proof (attached_child_of m Hwf _ _ _ _ Hatt Hp Hin) as Hattx.
  rewrite (itemForIndex_createIndex m Hwf) by lia.
  rewrite (indexForItem_attached m Hwf _ _ Hattx).
  rewrite (coordinate_child m x xit pit) by (by rewrite ?Hxpar).
  rewrite (indexOf_lookup _ _ _ (wf_nodup m Hwf _ _ Hp) Hx).
  rewrite Z2Nat.id by done.
  split; [done|]. by intros ->.
Qed.
End RoundTrips.

(** ** The coordinates the model makes address items of the tree *)

Section Produced.
Import FeedsModel.
Variable m : FeedsModel.t.
Hypothesis Hwf : well_formed m.

Local Abbreviation anchored := (anchored m).

Lemma anchored_invalid : anchored QModelIndex.invalid.
Proof. intros Hv. done. Qed.

Lemma anchored_itemForIndex i :
  anchored i -> exists chain, attached m (itemForIndex m i) chain.
Proof.
  intros Hi. unfold itemForIndex.
  destruct (QModelIndex.isValid i) eqn:Hv; simpl;
    [|eexists; constructor].
  destruct (QModelIndex.model i =? this m) eqn:Hm;
    [|eexists; constructor].
  apply Z.eqb_eq in Hm. destruct (Hi Hv Hm) as (chain & ? & _). eauto.
Qed.

Lemma anchored_createIndex r c x chain :
  attached m x chain -> x <> m_rootItem m -> anchored (createIndex m r c x).
Proof. intros Hatt Hne _ _. simpl. eauto. Qed.

Lemma index_anchored r c par i :
  anchored par -> index m r c par = Ret i -> anchored i.
Proof using Hwf.
  intros Hpar Hidx.
  destruct (index_inv m _ _ _ _ Hidx)
    as [->|(pit & x & Hp & Hx & Hr & Hc & _ & ->)];
    [apply anchored_invalid|].
  destruct (anchored_itemForIndex _ Hpar) as (chain & Hatt).
  assert (x ∈ RootItem.childItems pit) as Hin
    by (by eapply list_elem_of_lookup_2).
  destruct (wf_child m Hwf _ _ _ Hp Hin) as (xit & Hxit & _ & Hxk).
  eapply anchored_createIndex.
  - by eapply attached_child_of.
  - intros ->. destruct (wf_root m Hwf) as (r0 & Hr0 & Hk0). congruence.
Qed.

Lemma parent_anchored child i :
  anchored child -> parent m child = Ret i -> anchored i.
Proof using Hwf.
  intros Hchild. unfold parent.
  destruct (QModelIndex.isValid child) eqn:Hv; simpl;
    [|intros [= <-]; apply anchored_invalid].
  destruct (wf_root_item m Hwf) as (r0 & Hr0 & Hk0 & Hpar0).
  unfold itemForIndex. rewrite Hv. simpl.
  destruct (QModelIndex.model child =? this m) eqn:Hm.
  - apply Z.eqb_eq in Hm.
    destruct (Hchild Hv Hm) as (chain & Hatt & Hne).
    destruct (attached_not_root m _ _ Hatt Hne)
      as (it & pit & chain' & -> & Hp & Hk & Hpar & Hin & Hatt').
    rewrite (deref_Some _ _ _ Hp), bind_Ret.
    destruct (RootItem.parent it =? m_rootItem m) eqn:Hq;
      [intros [= <-]; apply anchored_invalid|].
    apply Z.eqb_neq in Hq.
    destruct (attached_not_root m _ _ Hatt' Hq)
      as (qit & qpit & chain'' & -> & Hqp & Hqk & Hqpar & Hqin & _).
    pose proof (wf_range m Hwf _ _ Hqpar) as Hrange.
    unfold Item.row. rewrite (deref_Some _ _ _ Hqp), bind_Ret.
    unfold nullptr. rewrite (proj2 (Z.eqb_neq _ 0)) by lia.
    rewrite (deref_Some _ _ _ Hqpar), bind_Ret.
    intros [= <-]. by eapply anchored_createIndex.
  - rewrite (deref_Some _ _ _ Hr0), bind_Ret. rewrite Hpar0.
    destruct (nullptr =? m_rootItem m);
      [intros [= <-]; apply anchored_invalid|].
    unfold Item.row, deref.
    destruct (items m !! nullptr) as [z|] eqn:Hz; [|done].
    pose proof (wf_range m Hwf _ _ Hz). unfold nullptr in *. lia.
Qed.

Lemma indexForItem_descend_anchored chain target i :
  anchored target -> indexForItem_descend m chain target = Ret i ->
  anchored i.
Proof using Hwf.
  revert target. induction chain as [|a chain IH]; intros target Ht; simpl.
  - by intros [= <-].
  - intros H.
    apply bind_inv in H as (it & _ & H).
    apply bind_inv in H as (par & _ & H).
    apply bind_inv in H as (t' & Ht' & H).
    eapply IH; [|done]. by eapply index_anchored.
Qed.

Lemma indexForItem_rec_anchored fuel item i :
  indexForItem_rec fuel m item = Ret i -> anchored i.
Proof using Hwf.
  revert item i. induction fuel as [|fuel IH]; intros item i; [done|].
  rewrite indexForItem_rec_S.
  destruct (item =? nullptr); [intros [= <-]; apply anchored_invalid|].
  intros H. apply bind_inv in H as (it & _ & H).
  destruct (decide (RootItem.kind it = RootItemKind.Root));
    [injection H as <-; apply anchored_invalid|].
  apply bind_inv in H as (chain & _ & H).
  apply bind_inv in H as (target & Ht & H).
  eapply indexForItem_descend_anchored; [|done]. by eapply IH.
Qed.

Lemma produced_anchored i : produced m i -> anchored i.
Proof using Hwf.
  induction 1 as [|i Hm|r c par i _ IH Hidx|child i _ IH Hpar|item i Hidx].
  - apply anchored_invalid.
  - intros _ Hm'. done.
  - by eapply index_anchored.
  - by eapply parent_anchored.
  - by eapply indexForItem_rec_anchored.
Qed.

(** C4: a coordinate that is not valid, or that is of another model,
    resolves to the Root item; and whatever coordinate a caller holds,
    itemForIndex does not answer a null pointer. *)
Theorem itemForIndex_never_null :
  (forall i,
     QModelIndex.isValid i = false \/ QModelIndex.model i <> this m ->
     itemForIndex m i = m_rootItem m)
  /\ (forall i, produced m i -> itemForIndex m i <> nullptr).
Proof using Hwf.
  split.
  - intros i Hi. unfold itemForIndex.
    destruct Hi as [-> | Hm]; [done|].
    apply Z.eqb_neq in Hm. rewrite Hm. by rewrite andb_false_r.
  - intros i Hi.
    destruct (anchored_itemForIndex _ (produced_anchored _ Hi))
      as (chain & Hatt).
    destruct (attached_lookup m Hwf _ _ Hatt) as (it & Hit).
    pose proof (wf_range m Hwf _ _ Hit). unfold nullptr. lia.
Qed.
End Produced.

(** ** Counts *)

Section Counts.
Import FeedsModel.
Variable m : FeedsModel.t.
Hypothesis Hwf : well_formed m.

Lemma attached_same_chain p q chain :
  attached m p chain -> attached m q chain -> p = q.
Proof. intros Hp Hq. inversion Hp; subst; inversion Hq; subst; congruence. Qed.

(** An item below [p] in the tree is [p] or is below a child of [p]. *)
Lemma attached_split p pit chain pre f :
  attached m p chain -> items m !! p = Some pit ->
  attached m f (pre ++ chain) ->
  (pre = [] /\ f = p)
  \/ exists c pre',
       pre = pre' ++ [c] /\ c ∈ RootItem.childItems pit
       /\ attached m f (pre' ++ c :: chain).
Proof.
  intros Hp Hpit. revert f.
  induction pre as [|x pre IH]; intros f Hf.
  - left. split; [done|]. by eapply attached_same_chain.
  - right. simpl in Hf.
    inversion Hf as [|? it qit ? Hfit Hk Hq Hin Hatt]; subst.
    destruct (IH _ Hatt) as [[-> Heq]|(c & pre' & -> & Hc & Hatt')].
    + exists x, []. rewrite Heq in Hq.
      assert (qit = pit) as -> by congruence. done.
    + exists c, (x :: pre'). split; [done|]. split; [done|].
      simpl. econstructor; eauto.
Qed.

Lemma total_unread_app h l1 l2 :
  total_unread h (l1 ++ l2) = total_unread h l1 + total_unread h l2.
Proof. induction l1 as [|f l1 IH]; simpl; [done|]. rewrite IH. lia. Qed.

Lemma getSubTreeFeeds_rec_S fuel h p :
  Item.getSubTreeFeeds_rec (S fuel) h p
  = it ← deref h p;
    if decide (RootItem.kind it = RootItemKind.Feed) then Ret [p]
    else foldr (fun c acc => fs ← Item.getSubTreeFeeds_rec fuel h c;
                             rest ← acc; Ret (fs ++ rest))
               (Ret []) (RootItem.childItems it).
Proof.
  simpl. destruct (deref h p) as [it| |]; [|done..]. simpl.
  by destruct (RootItem.kind it).
Qed.

Lemma countOfUnreadMessages_rec_S fuel h p :
  Item.countOfUnreadMessages_rec (S fuel) h p
  = it ← deref h p;
    if decide (RootItem.kind it = RootItemKind.Feed)
    then Ret (RootItem.unread it)
    else foldr (fun c acc => n ← Item.countOfUnreadMessages_rec fuel h c;
                             total ← acc; Ret (n + total))
               (Ret 0) (RootItem.childItems it).
Proof.
  simpl. destruct (deref h p) as [it| |]; [|done..]. simpl.
  by destruct (RootItem.kind it).
Qed.

(** Summing over children that all answer. *)
Lemma foldr_children (F : ptr -> res (list ptr)) (C : ptr -> res Z) h l :
  (forall c, c ∈ l ->
     exists fs, F c = Ret fs /\ C c = Ret (total_unread h fs)) ->
  exists fs,
    foldr (fun c acc => fs ← F c; rest ← acc; Ret (fs ++ rest)) (Ret []) l
    = Ret fs
    /\ foldr (fun c acc => n ← C c; total ← acc; Ret (n + total)) (Ret 0) l
       = Ret (total_unread h fs)
    /\ forall f, f ∈ fs <-> exists c fs', c ∈ l /\ F c = Ret fs' /\ f ∈ fs'.
Proof.
  induction l as [|c l IH]; intros Hall.
  - exists []. split; [done|]. split; [done|].
    intros f. split; [by intros ?%elem_of_nil|].
    by intros (c & fs' & ?%elem_of_nil & _).
  - destruct (Hall c) as (fs & HF & HC); [by left|].
    destruct IH as (rest & HFr & HCr & Hmem);
      [intros c' Hc'; apply Hall; by right|].
    exists (fs ++ rest). simpl. rewrite HF, HC, HFr, HCr. simpl.
    split; [done|]. split; [by rewrite total_unread_app|].
    intros f. rewrite elem_of_app, Hmem. split.
    + intros [Hf|(c' & fs' & Hc' & HF' & Hf)].
      * exists c, fs. split; [by left|done].
      * exists c', fs'. split; [by right|done].
    + intros (c' & fs' & Hc' & HF' & Hf).
      apply elem_of_cons in Hc' as [->|Hc'].
      * left. congruence.
      * right. eauto.
Qed.

(** The feeds below an attached item, and the unread messages that it
    counts: the traversal ends within the number of items. *)
Lemma subtree_feeds fuel : forall p chain,
  attached m p chain ->
  (size (items m) < length chain + fuel)%nat ->
  exists fs,
    Item.getSubTreeFeeds_rec fuel (items m) p = Ret fs
    /\ Item.countOfUnreadMessages_rec fuel (items m) p
       = Ret (total_unread (items m) fs)
    /\ forall f,
         f ∈ fs <->
         (exists fit, items m !! f = Some fit
                      /\ RootItem.kind fit = RootItemKind.Feed)
         /\ exists pre, attached m f (pre ++ chain).
Proof using Hwf.
  induction fuel as [|fuel IH]; intros p chain Hatt Hfuel.
  { pose proof (attached_depth m Hwf _ _ Hatt). lia. }
  destruct (attached_lookup m Hwf _ _ Hatt) as (it & Hit).
  rewrite getSubTreeFeeds_rec_S, countOfUnreadMessages_rec_S.
  rewrite (deref_Some _ _ _ Hit), !bind_Ret.
  destruct (decide (RootItem.kind it = RootItemKind.Feed)) as [Hk|Hk].
  - exists [p]. split; [done|]. split.
    { simpl. unfold unread_of. rewrite Hit. f_equal. lia. }
    intros f. rewrite list_elem_of_singleton. split.
    + intros ->. split; [eauto|]. by exists [].
    + intros [_ (pre & Hf)].
      destruct (attached_split _ _ _ _ _ Hatt Hit Hf)
        as [[_ ->]|(c & pre' & _ & Hc & _)]; [done|].
      rewrite (wf_feed_leaf m Hwf _ _ Hit Hk) in Hc.
      by apply elem_of_nil in Hc.
  - destruct (foldr_children
                (Item.getSubTreeFeeds_rec fuel (items m))
                (Item.countOfUnreadMessages_rec fuel (items m))
                (items m) (RootItem.childItems it))
      as (fs & HF & HC & Hmem).
    { intros c Hc.
      destruct (IH c (c :: chain)) as (fs & ? & ? & _);
        [by eapply attached_child_of|simpl in *; lia|eauto]. }
    exists fs. split; [done|]. split; [done|].
    intros f. rewrite Hmem. split.
    + intros (c & fs' & Hc & HF' & Hf).
      destruct (IH c (c :: chain)) as (fs'' & HF'' & _ & Hspec);
        [by eapply attached_child_of|simpl in *; lia|].
      assert (fs'' = fs') as -> by congruence.
      apply Hspec in Hf as [Hfeed (pre & Hpre)].
      split; [done|]. exists (pre ++ [c]). by rewrite <- app_assoc.
    + intros [Hfeed (pre & Hf)].
      destruct (attached_split _ _ _ _ _ Hatt Hit Hf)
        as [[_ ->]|(c & pre' & _ & Hc & Hf')].
      { destruct Hfeed as (fit & ? & ?). congruence. }
      destruct (IH c (c :: chain)) as (fs' & HF' & _ & Hspec);
        [by eapply attached_child_of|simpl in *; lia|].
      exists c, fs'. split; [done|]. split; [done|].
      apply Hspec. eauto.
Qed.

Lemma hasAnyFeedNewMessages_loop_spec h feeds :
  (forall f, f ∈ feeds -> exists fit, h !! f = Some fit) ->
  exists b,
    hasAnyFeedNewMessages_loop h feeds = Ret b
    /\ (b = true <->
        exists f fit, f ∈ feeds /\ h !! f = Some fit
                      /\ RootItem.status fit = Feed.NewMessages).
Proof.
  induction feeds as [|f feeds IH]; intros Hall.
  - exists false. split; [done|]. split; [done|].
    by intros (f & fit & ?%elem_of_nil & _).
  - destruct (Hall f) as (fit & Hf); [by left|].
    simpl. rewrite (deref_Some _ _ _ Hf), bind_Ret.
    destruct (decide (RootItem.status fit = Feed.NewMessages)) as [Hs|Hs].
    + exists true. split; [done|]. split; [|done].
      intros _. exists f, fit. split; [by left|done].
    + destruct IH as (b & Hb & Hspec);
        [intros f' Hf'; apply Hall; by right|].
      exists b. split; [done|]. rewrite Hspec. split.
      * intros (f' & fit' & Hin & ? & ?). exists f', fit'.
        split; [by right|done].
      * intros (f' & fit' & Hin & Hf' & Hs').
        apply elem_of_cons in Hin as [->|Hin]; [congruence|eauto].
Qed.

(** The traversals of notifyWithCounts end on a well-formed tree. *)
Lemma notifyWithCounts_answer :
  exists feeds any_new,
    Item.getSubTreeFeeds (items m) (m_rootItem m) = Ret feeds
    /\ Item.countOfUnreadMessages (items m) (m_rootItem m)
       = Ret (total_unread (items m) feeds)
    /\ hasAnyFeedNewMessages_loop (items m) feeds = Ret any_new
    /\ notifyWithCounts m
       = Ret [messageCountsChanged (total_unread (items m) feeds) any_new]
    /\ (forall f, f ∈ feeds <-> exists fit, feed_in_tree m f fit).
Proof using Hwf.
  destruct (subtree_feeds (S (size (items m))) (m_rootItem m) [])
    as (feeds & HF & HC & Hmem); [constructor|simpl; lia|].
  assert (forall f, f ∈ feeds <-> exists fit, feed_in_tree m f fit) as Hfeeds.
  { intros f. rewrite Hmem. unfold feed_in_tree. split.
    - intros [(fit & ? & ?) (pre & Hpre)]. rewrite app_nil_r in Hpre.
      eauto 10.
    - intros (fit & ? & ? & chain & Hatt). split; [eauto|].
      exists chain. by rewrite app_nil_r. }
  destruct (hasAnyFeedNewMessages_loop_spec (items m) feeds)
    as (b & Hb & _).
  { intros f Hf. apply Hfeeds in Hf as (fit & ? & _). eauto. }
  exists feeds, b. repeat split; try done; try apply Hfeeds.
  unfold notifyWithCounts, countOfUnreadMessages, hasAnyFeedNewMessages.
  unfold Item.countOfUnreadMessages, Item.getSubTreeFeeds in *.
  by rewrite HC, bind_Ret, HF, bind_Ret, Hb.
Qed.

(** C8: notifyWithCounts emits one messageCountsChanged, with the unread
    count of the Root item, which sums the unread counts of the feeds of
    the tree, and with a flag that is true exactly when a feed of the
    tree has new messages. *)
Theorem notifyWithCounts_pair :
  exists unread_count any_new feeds,
    notifyWithCounts m = Ret [messageCountsChanged unread_count any_new]
    /\ Item.countOfUnreadMessages (items m) (m_rootItem m) = Ret unread_count
    /\ unread_count = total_unread (items m) feeds
    /\ (forall f, f ∈ feeds <-> exists fit, feed_in_tree m f fit)
    /\ (any_new = true <->
        exists f fit, feed_in_tree m f fit
                      /\ RootItem.status fit = Feed.NewMessages).
Proof using Hwf.
  destruct notifyWithCounts_answer
    as (feeds & any_new & _ & Hcount & Hloop & Hnotify & Hfeeds).
  exists (total_unread (items m) feeds), any_new, feeds.
  split; [done|]. split; [done|]. split; [done|]. split; [done|].
  destruct (hasAnyFeedNewMessages_loop_spec (items m) feeds)
    as (b & Hb & Hspec).
  { intros f Hf. apply Hfeeds in Hf as (fit & ? & _). eauto. }
  assert (b = any_new) as -> by congruence.
  rewrite Hspec. split.
  - intros (f & fit & Hin & Hf & Hs). exists f, fit. split; [|done].
    apply Hfeeds in Hin as (fit' & Hfit' & Hk & Hatt).
    assert (fit' = fit) as -> by congruence. by split.
  - intros (f & fit & Hft & Hs). exists f, fit.
    split; [apply Hfeeds; eauto|]. by destruct Hft.
Qed.
End Counts.

(** ** Change notification *)

Section Notification.
Import FeedsModel.
Variable m : FeedsModel.t.
Hypothesis Hwf : well_formed m.

(** The parent of an item's coordinate is its parent's coordinate. *)
Lemma parentOf_coordinate p it pit chain :
  items m !! p = Some it -> RootItem.kind it <> RootItemKind.Root ->
  items m !! RootItem.parent it = Some pit ->
  p ∈ RootItem.childItems pit ->
  attached m (RootItem.parent it) chain ->
  parentOf m (coordinate m p) = Ret (coordinate m (RootItem.parent it)).
Proof using Hwf.
  intros Hp Hk Hpar Hin Hatt.
  pose proof (wf_this m Hwf) as Hthis.
  destruct (indexOf_elem _ _ Hin) as [Hge _].
  rewrite (coordinate_child m _ _ _ Hp Hk Hpar).
  unfold parentOf. cbn [createIndex QModelIndex.model].
  rewrite (proj2 (Z.eqb_neq _ _) Hthis), Z.eqb_refl.
  unfold parent.
  rewrite (isValid_createIndex m Hwf), (itemForIndex_createIndex m Hwf)
    by done.
  cbn [negb]. rewrite (deref_Some _ _ _ Hp), bind_Ret.
  destruct (RootItem.parent it =? m_rootItem m) eqn:Hq.
  - apply Z.eqb_eq in Hq. rewrite Hq. by rewrite coordinate_root.
  - apply Z.eqb_neq in Hq.
    destruct (attached_not_root m _ _ Hatt Hq)
      as (qit & qpit & chain' & -> & Hqp & Hqk & Hqpar & Hqin & _).
    pose proof (wf_range m Hwf _ _ Hqpar) as Hrange.
    unfold Item.row. rewrite (deref_Some _ _ _ Hqp), bind_Ret.
    unfold nullptr. rewrite (proj2 (Z.eqb_neq _ 0)) by lia.
    rewrite (deref_Some _ _ _ Hqpar), bind_Ret.
    by rewrite (coordinate_child m _ _ _ Hqp Hqk Hqpar).
Qed.

(** From the coordinate of an item, the loop signals the row of the item
    and then the row of each ancestor below the Root. *)
Lemma reloadChangedLayout_loop_attached p chain :
  attached m p chain ->
  forall fuel, (length chain < fuel)%nat ->
    reloadChangedLayout_loop fuel m [coordinate m p]
    = Ret (row_signal m <$> chain).
Proof using Hwf.
  induction 1 as [|p it pit chain Hp Hk Hpar Hin Hatt IH]; intros fuel Hfuel.
  - destruct fuel as [|fuel]; [simpl in Hfuel; lia|].
    rewrite (coordinate_root m Hwf). simpl. by destruct fuel.
  - destruct fuel as [|fuel]; [simpl in Hfuel; lia|].
    destruct (indexOf_elem _ _ Hin) as [Hge _].
    cbn [reloadChangedLayout_loop].
    rewrite (parentOf_coordinate _ _ _ _ Hp Hk Hpar Hin Hatt).
    rewrite fmap_cons. unfold row_signal at 1.
    rewrite (coordinate_child m _ _ _ Hp Hk Hpar).
    rewrite (isValid_createIndex m Hwf) by done.
    rewrite bind_Ret. cbn [createIndex QModelIndex.row].
    rewrite !(index_child m Hwf _ pit p);
      try done; try apply coordinate_column;
      try (by rewrite (itemForIndex_coordinate m Hwf _ _ Hatt)).
    rewrite !bind_Ret. cbn [app]. rewrite IH by (simpl in Hfuel; lia).
    done.
Qed.

Lemma reloadChangedItem_attached p chain :
  attached m p chain ->
  reloadChangedItem m p = Ret (row_signal m <$> chain).
Proof using Hwf.
  intros Hatt. unfold reloadChangedItem, reloadChangedLayout.
  rewrite (indexForItem_attached m Hwf _ _ Hatt), bind_Ret.
  apply reloadChangedLayout_loop_attached; [done|].
  pose proof (attached_depth m Hwf _ _ Hatt). simpl. lia.
Qed.

Lemma reloadChangedItems_attached changed chains :
  Forall2 (attached m) changed chains ->
  reloadChangedItems m changed
  = Ret (concat (fmap (M:=list) (fmap (M:=list) (row_signal m)) chains)).
Proof using Hwf.
  induction 1 as [|p chain changed chains Hatt _ IH]; [done|].
  simpl. by rewrite (reloadChangedItem_attached _ _ Hatt), IH.
Qed.

(** C3: above the threshold, onItemDataChanged emits one pair of layout
    signals and no signal for a row; at or below it, it signals, for each
    changed item, the row of the item from column 0 to the last column
    and then the row of each ancestor of the item below the Root; both
    ways it ends with the one messageCountsChanged of notifyWithCounts. *)
Theorem onItemDataChanged_signals (RELOAD_MODEL_BORDER_NUM : Z)
  (changed : list ptr) :
  exists unread_count any_new,
    notifyWithCounts m = Ret [messageCountsChanged unread_count any_new]
    /\ (RELOAD_MODEL_BORDER_NUM < Z.of_nat (length changed) ->
        onItemDataChanged RELOAD_MODEL_BORDER_NUM m changed
        = Ret [layoutAboutToBeChanged; layoutChanged;
               messageCountsChanged unread_count any_new])
    /\ (Z.of_nat (length changed) <= RELOAD_MODEL_BORDER_NUM ->
        forall chains,
          Forall2 (attached m) changed chains ->
          onItemDataChanged RELOAD_MODEL_BORDER_NUM m changed
          = Ret (concat (fmap (M:=list) (fmap (M:=list) (row_signal m)) chains)
                 ++ [messageCountsChanged unread_count any_new])).
Proof using Hwf.
  destruct (notifyWithCounts_answer m Hwf)
    as (feeds & b & _ & _ & _ & Hn & _).
  exists (total_unread (items m) feeds), b. split; [done|].
  unfold onItemDataChanged. split.
  - intros Hbig. rewrite (proj2 (Z.ltb_lt _ _) Hbig).
    by rewrite bind_Ret, Hn.
  - intros Hsmall chains Hatt. rewrite (proj2 (Z.ltb_ge _ _) Hsmall).
    by rewrite (reloadChangedItems_attached _ _ Hatt), bind_Ret, Hn.
Qed.
End Notification.

(** ** Drag and drop *)

Lemma decode_encode_quintptr p :
  0 <= p < 2 ^ 64 -> decode_quintptr (encode_quintptr p) = p.
Proof.
  intros Hp. unfold decode_quintptr, encode_quintptr. cbn [fold_left].
  change (2 ^ 56) with (256 * 2 ^ 48).
  Z.div_mod_to_equations; lia.
Qed.

Lemma stream_tokens_encode p stream :
  stream_tokens (encode_quintptr p ++ stream)
  = decode_quintptr (encode_quintptr p) :: stream_tokens stream.
Proof. reflexivity. Qed.

Section DragSource.
Import FeedsModel DragDrop.
Variable MIME_TYPE_ITEM_POINTER : string.
Variable m : FeedsModel.t.
Hypothesis Hwf : well_formed m.

Lemma produced_lookup i :
  produced m i -> exists it, items m !! itemForIndex m i = Some it.
Proof using Hwf.
  intros Hi.
  destruct (anchored_itemForIndex m _ (produced_anchored m Hwf _ Hi))
    as (chain & Hatt).
  by eapply attached_lookup.
Qed.

Lemma mimeData_stream_dragged indexes :
  Forall (produced m) indexes ->
  mimeData_stream m indexes
  = Ret (concat (encode_quintptr <$> dragged_items m indexes)).
Proof using Hwf.
  unfold dragged_items.
  induction 1 as [|i indexes Hi _ IH]; [done|].
  cbn [mimeData_stream List.filter].
  destruct (QModelIndex.column i =? 0) eqn:Hc; cbn [negb]; [|done].
  destruct (produced_lookup _ Hi) as (it & Hit).
  rewrite (deref_Some _ _ _ Hit), bind_Ret, IH, bind_Ret.
  rewrite fmap_cons. cbn [List.filter].
  replace (draggable m (itemForIndex m i))
    with (negb (bool_decide (RootItem.kind it = RootItemKind.Root)))
    by (unfold draggable; by rewrite Hit).
  destruct (decide (RootItem.kind it = RootItemKind.Root)) as [Hk|Hk].
  - by rewrite bool_decide_eq_true_2.
  - by rewrite bool_decide_eq_false_2.
Qed.

Lemma dragged_items_draggable indexes p :
  p ∈ dragged_items m indexes ->
  draggable m p = true
  /\ exists i, i ∈ indexes /\ QModelIndex.column i = 0
               /\ itemForIndex m i = p.
Proof.
  unfold dragged_items. rewrite list_elem_of_In, filter_In.
  intros [Hin Hd]. split; [done|].
  apply list_elem_of_In, list_elem_of_fmap in Hin as (i & -> & Hi).
  apply list_elem_of_In, filter_In in Hi as [Hi Hc].
  exists i. split; [by apply list_elem_of_In|]. split; [lia|done].
Qed.

Lemma stream_tokens_dragged (l : list ptr) :
  Forall (fun p => 0 <= p < 2 ^ 64) l ->
  stream_tokens (concat (encode_quintptr <$> l)) = l.
Proof.
  induction 1 as [|p l Hp _ IH]; [done|].
  rewrite fmap_cons. cbn [concat].
  by rewrite stream_tokens_encode, decode_encode_quintptr, IH.
Qed.

(** C7: the payload mimeData makes holds one eight-byte token for each
    selected coordinate of column 0 whose item is not of the Root kind,
    in the order of the selection, and nothing else: the stream reads
    back as these items, coordinates of other columns add nothing, and
    the Root item is not among them. *)
Theorem mimeData_tokens (indexes : list QModelIndex.t) :
  Forall (produced m) indexes ->
  exists payload,
    mimeData MIME_TYPE_ITEM_POINTER m indexes = Ret payload
    /\ QMimeData.data payload MIME_TYPE_ITEM_POINTER
       = concat (encode_quintptr <$> dragged_items m indexes)
    /\ stream_tokens (QMimeData.data payload MIME_TYPE_ITEM_POINTER)
       = dragged_items m indexes
    /\ length (QMimeData.data payload MIME_TYPE_ITEM_POINTER)
       = (8 * length (dragged_items m indexes))%nat
    /\ (m_rootItem m ∉ dragged_items m indexes)
    /\ (forall p, p ∈ dragged_items m indexes ->
          exists i, i ∈ indexes /\ QModelIndex.column i = 0
                    /\ itemForIndex m i = p)
    /\ (forall i, i ∈ indexes -> QModelIndex.column i = 0 ->
          itemForIndex m i <> m_rootItem m ->
          itemForIndex m i ∈ dragged_items m indexes).
Proof using Hwf.
  intros Hprod. eexists. unfold mimeData.
  rewrite (mimeData_stream_dragged _ Hprod), bind_Ret.
  split; [done|].
  unfold QMimeData.data, QMimeData.setData. rewrite lookup_insert_eq.
  cbn [default from_option id].
  assert (Forall (fun p => 0 <= p < 2 ^ 64) (dragged_items m indexes)) as Hr.
  { apply Forall_forall. intros p [Hd _]%dragged_items_draggable.
    unfold draggable in Hd.
    destruct (items m !! p) as [it|] eqn:Hit; [|done].
    pose proof (wf_range m Hwf _ _ Hit). lia. }
  split; [done|]. split; [by apply stream_tokens_dragged|].
  split; [|split; [|split]].
  - clear Hr. induction (dragged_items m indexes) as [|p l IH]; [done|].
    rewrite fmap_cons. cbn [concat]. rewrite length_app, IH.
    cbn [encode_quintptr length]. lia.
  - intros [Hd _]%dragged_items_draggable.
    destruct (wf_root m Hwf) as (r & Hroot & Hk).
    unfold draggable in Hd. rewrite Hroot in Hd.
    by rewrite bool_decide_eq_true_2 in Hd.
  - intros p Hp. by apply dragged_items_draggable in Hp as [_ ?].
  - intros i Hi Hc Hne. rewrite Forall_forall in Hprod.
    destruct (anchored_itemForIndex m _ (produced_anchored m Hwf _ (Hprod _ Hi)))
      as (chain & Hatt).
    destruct (attached_lookup m Hwf _ _ Hatt) as (it & Hit).
    unfold dragged_items. apply list_elem_of_In, filter_In. split.
    + apply list_elem_of_In, list_elem_of_fmap. exists i. split; [done|].
      apply list_elem_of_In, filter_In. split; [by apply list_elem_of_In|lia].
    + unfold draggable. rewrite Hit. rewrite bool_decide_eq_false_2; [done|].
      intros Hk. by apply (attached_root_kind m Hwf _ _ _ Hatt Hit) in Hk.
Qed.
End DragSource.

Section Drop.
Import FeedsModel DragDrop.
Variable MIME_TYPE_ITEM_POINTER : string.
Variable performDragDropChange :
  FeedsModel.t -> ptr -> ptr -> res (bool * FeedsModel.t * list Event).

Local Abbreviation dropMimeData :=
  (dropMimeData MIME_TYPE_ITEM_POINTER performDragDropChange).
Local Abbreviation dropMimeData_loop :=
  (dropMimeData_loop performDragDropChange).
Local Abbreviation dropMimeData_item :=
  (dropMimeData_item performDragDropChange).

(** C6: the move action is the one drop action the model supports; under
    an action other than the move action the drop handler answers at
    once, true for the ignore action and false for any other: the model
    is as it was, nothing is emitted and the reparenting operation is not
    called, whatever the payload holds. *)
Theorem dropMimeData_move_only m data action row column parent :
  supportedDropActions m = [MoveAction]
  /\ (action <> MoveAction ->
      dropMimeData m data action row column parent
      = Ret (bool_decide (action = IgnoreAction), m, [])).
Proof.
  split; [reflexivity|].
  intros Hne. unfold DragDrop.dropMimeData.
  destruct action; try reflexivity. by destruct Hne.
Qed.

(** A turn of the loop returns from the function only to refuse, and
    then with the model as it was. *)
Lemma dropMimeData_item_return m parent token b m' evs :
  dropMimeData_item m parent token = Ret (Some b, m', evs) ->
  b = false /\ m' = m /\ (evs = [] \/ evs = [showGuiMessage_Warning]).
Proof.
  unfold DragDrop.dropMimeData_item. intros H.
  apply bind_inv in H as (droot & _ & H).
  apply bind_inv in H as (troot & _ & H).
  apply bind_inv in H as (dragged & _ & H).
  destruct (_ || _); [injection H as <- <- <-; auto|].
  destruct (negb _); [injection H as <- <- <-; auto|].
  apply bind_inv in H as ([[done m''] evs''] & _ & H).
  destruct done.
  - apply bind_inv in H as (i & _ & H). done.
  - done.
Qed.

(** The turn on a token that meets one of the three refusals: the warning
    is shown for the third only. *)
Lemma dropMimeData_item_refuses m parent token dragged droot troot :
  items m !! token = Some dragged ->
  Item.getParentServiceRoot (items m) token = Ret droot ->
  Item.getParentServiceRoot (items m) (itemForIndex m parent) = Ret troot ->
  token = itemForIndex m parent
  \/ RootItem.parent dragged = itemForIndex m parent
  \/ droot <> troot ->
  dropMimeData_item m parent token
  = Ret (Some false, m,
         if (token =? itemForIndex m parent)
            || (RootItem.parent dragged =? itemForIndex m parent)
         then [] else [showGuiMessage_Warning]).
Proof.
  intros Hd Hdr Htr Hcase. unfold DragDrop.dropMimeData_item.
  rewrite Hdr, bind_Ret, Htr, bind_Ret, (deref_Some _ _ _ Hd), bind_Ret.
  destruct ((token =? itemForIndex m parent)
            || (RootItem.parent dragged =? itemForIndex m parent)) eqn:E;
    [done|].
  apply orb_false_elim in E as [E1%Z.eqb_neq E2%Z.eqb_neq].
  destruct Hcase as [?|[?|Hne]]; [done..|].
  by rewrite (proj2 (Z.eqb_neq _ _) Hne).
Qed.

(** The loop over whole tokens that all pass goes on with what follows
    them in the stream. *)
Lemma dropMimeData_loop_app before : forall stream m parent log m1 log1,
  Forall (fun token => length token = 8%nat) before ->
  dropMimeData_loop (concat before) m parent log = Ret (true, m1, log1) ->
  dropMimeData_loop (concat before ++ stream) m parent log
  = dropMimeData_loop stream m1 parent log1.
Proof.
  induction before as [|token before IH];
    intros stream m parent log m1 log1 Hlen Hloop.
  - simpl in Hloop. by injection Hloop as <- <-.
  - apply Forall_cons in Hlen as [Htok Hlen].
    do 8 (destruct token as [|? token]; [done|]).
    destruct token; [|done].
    cbn [concat app DragDrop.dropMimeData_loop] in *.
    destruct (dropMimeData_item m parent _) as [[[returned m'] evs]| |]
      eqn:Hitem; [|done..].
    rewrite bind_Ret in *. destruct returned as [b|].
    + apply dropMimeData_item_return in Hitem as (-> & _ & _). done.
    + by apply IH.
Qed.

(** C1, as the code has it: the drop is refused at the first token that
    meets one of the three refusals when its turn comes; nothing is
    reparented by it or after it, the warning is shown when the accounts
    differ, and the model is as the tokens before it left it: as it was
    before the drop when the token is the first of the payload. *)
Theorem dropMimeData_refuses m data row column parent
  (before : list (list Z)) (token after : list Z) m1 log
  dragged dragged_root target_root :
  QMimeData.data data MIME_TYPE_ITEM_POINTER
  = concat before ++ token ++ after ->
  Forall (fun token => length token = 8%nat) before ->
  length token = 8%nat ->
  dropMimeData_loop (concat before) m parent [] = Ret (true, m1, log) ->
  items m1 !! decode_quintptr token = Some dragged ->
  Item.getParentServiceRoot (items m1) (decode_quintptr token)
  = Ret dragged_root ->
  Item.getParentServiceRoot (items m1) (itemForIndex m1 parent)
  = Ret target_root ->
  decode_quintptr token = itemForIndex m1 parent
  \/ RootItem.parent dragged = itemForIndex m1 parent
  \/ dragged_root <> target_root ->
  dropMimeData m data MoveAction row column parent
  = Ret (false, m1,
         log ++ if (decode_quintptr token =? itemForIndex m1 parent)
                   || (RootItem.parent dragged =? itemForIndex m1 parent)
                then [] else [showGuiMessage_Warning])
  /\ (before = [] -> m1 = m /\ log = []).
Proof.
  intros Hdata Hlen Htok Hloop Hd Hdr Htr Hcase.
  pose proof (dropMimeData_item_refuses _ _ _ _ _ _ Hd Hdr Htr Hcase)
    as Hitem.
  split.
  - unfold DragDrop.dropMimeData. rewrite Hdata.
    assert (dropMimeData_loop (concat before ++ token ++ after) m parent []
            = Ret (false, m1,
                   log ++ if (decode_quintptr token =? itemForIndex m1 parent)
                             || (RootItem.parent dragged
                                 =? itemForIndex m1 parent)
                          then [] else [showGuiMessage_Warning])) as Hall.
    { rewrite (dropMimeData_loop_app _ _ _ _ _ _ _ Hlen Hloop).
      do 8 (destruct token as [|? token]; [done|]).
      destruct token; [|done].
      cbn [app DragDrop.dropMimeData_loop].
      by rewrite Hitem, bind_Ret. }
    destruct (concat before ++ token ++ after) eqn:E; [|done].
    apply app_eq_nil in E as [_ E]. apply app_eq_nil in E as [-> _]. done.
  - intros ->. simpl in Hloop. by injection Hloop as <- <-.
Qed.
End Drop.

(** ** The message handler *)

Section Handler.
Import Debugging.
Variable APP_LOW_NAME : string.
Variable separator : Ascii.ascii.

(** The line a printing case writes, and the temporaries afterwards,
    when the characters of the file name can be read. *)
Lemma DEBUG_OUTPUT_WORKER_alive label file line message mem text :
  c_str mem file = Ret text ->
  DEBUG_OUTPUT_WORKER APP_LOW_NAME label file line message mem
  = Ret ([fprintf_stderr APP_LOW_NAME label text line message],
         destroy (length mem) (mem ++ [mkTemporary message true])).
Proof.
  unfold DEBUG_OUTPUT_WORKER, qPrintable, c_str. intros Hfile.
  destruct (mem !! file) as [t|] eqn:Ht; [|done].
  rewrite (lookup_app_l_Some _ _ _ _ Ht). destruct (alive t); [|done].
  injection Hfile as ->. rewrite bind_Ret.
  rewrite lookup_app_r by lia. rewrite Nat.sub_diag. done.
Qed.

(** A printing case that returns has written one line. *)
Lemma DEBUG_OUTPUT_WORKER_inv label file line message mem written mem' :
  DEBUG_OUTPUT_WORKER APP_LOW_NAME label file line message mem
  = Ret (written, mem') ->
  exists text,
    written = [fprintf_stderr APP_LOW_NAME label text line message].
Proof.
  unfold DEBUG_OUTPUT_WORKER, qPrintable. intros H.
  apply bind_inv in H as (file_text & _ & H).
  apply bind_inv in H as (message_text & Hm & H).
  injection H as <- _. exists file_text.
  unfold c_str in Hm. rewrite lookup_app_r, Nat.sub_diag in Hm by done.
  simpl in Hm. by injection Hm as <-.
Qed.

(** C9: the handler asks to leave the application in its fatal case
    only. In a build that defines QT_NO_DEBUG_OUTPUT it does nothing and
    returns for every message, a fatal one included. In a build with
    debug output a QtInfoMsg message writes nothing and returns; and in
    whatever state the switch is entered, no message other than a fatal
    one leads to the request to leave, while a debug (labelled INFO),
    warning, critical or fatal message writes its one line when the
    characters of the file name can be read, the fatal one asking to
    leave with the failure code after its line. *)
Theorem debugHandler_fatal_only type placement message :
  debugHandler APP_LOW_NAME separator true type placement message = Ret []
  /\ debugHandler APP_LOW_NAME separator false QtInfoMsg placement message
     = Ret []
  /\ (forall no_output effects code,
        type <> QtFatalMsg ->
        debugHandler APP_LOW_NAME separator no_output type placement message
        = Ret effects ->
        qApp_exit code ∉ effects)
  /\ (forall file mem effects code,
        debugHandler_switch APP_LOW_NAME type file (line placement) message mem
        = Ret effects ->
        qApp_exit code ∈ effects ->
        type = QtFatalMsg /\ code = EXIT_FAILURE)
  /\ (forall file mem text,
        c_str mem file = Ret text ->
        type <> QtInfoMsg ->
        debugHandler_switch APP_LOW_NAME type file (line placement) message mem
        = Ret (fprintf_stderr APP_LOW_NAME
                 match type with
                 | QtDebugMsg => "INFO"
                 | QtWarningMsg => "WARNING"
                 | QtCriticalMsg => "CRITICAL"
                 | _ => "FATAL"
                 end text (line placement) message
               :: match type with
                  | QtFatalMsg => [qApp_exit EXIT_FAILURE]
                  | _ => []
                  end)).
Proof.
  assert (forall file mem effects code,
            debugHandler_switch APP_LOW_NAME type file (line placement)
              message mem = Ret effects ->
            qApp_exit code ∈ effects ->
            type = QtFatalMsg /\ code = EXIT_FAILURE) as Hswitch.
  { intros file mem effects code Hrun Hin.
    destruct type; cbn [debugHandler_switch] in Hrun;
      try (apply bind_inv in Hrun as ([written mem'] & Hw & Hrun);
           apply DEBUG_OUTPUT_WORKER_inv in Hw as (text & ->));
      injection Hrun as <-;
      repeat (apply elem_of_cons in Hin as [Hin|Hin]; [try done|]);
      try (by apply elem_of_nil in Hin).
    by injection Hin as ->. }
  split; [done|]. split; [done|]. split; [|split; [exact Hswitch|]].
  - intros no_output effects code Htype Hrun Hin.
    unfold debugHandler in Hrun. destruct no_output.
    { injection Hrun as <-. by apply elem_of_nil in Hin. }
    destruct (declare_file separator placement) as [file mem].
    by destruct (Hswitch _ _ _ _ Hrun Hin) as [-> _].
  - intros file mem text Hfile Htype.
    destruct type; [| | | |done]; cbn [debugHandler_switch];
      rewrite (DEBUG_OUTPUT_WORKER_alive _ _ _ _ _ _ Hfile), bind_Ret;
      reflexivity.
Qed.

End Handler.

(** ** The model at work on the tree of [Example] *)

Lemma attachedb_sound m chain : forall p,
  attachedb m p chain = true -> attached m p chain.
Proof.
  induction chain as [|x chain IH]; intros p; simpl.
  - intros ->%Z.eqb_eq. constructor.
  - intros [->%Z.eqb_eq H]%andb_prop.
    destruct (FeedsModel.items m !! p) as [it|] eqn:Hp; [|done].
    apply andb_prop in H as [Hk H].
    destruct (FeedsModel.items m !! RootItem.parent it) as [pit|] eqn:Hpar;
      [|done].
    apply andb_prop in H as [Hin H].
    econstructor; eauto.
    + apply negb_true_iff in Hk. by apply bool_decide_eq_false in Hk.
    + by apply bool_decide_eq_true in Hin.
Qed.

Lemma Example_well_formed : well_formed Example.model.
Proof. by vm_compute. Qed.

Lemma Example_FeedB_attached :
  attached Example.model Example.FeedB
    [Example.FeedB; Example.CategoryY; Example.Account1].
Proof. apply attachedb_sound. by vm_compute. Qed.

Lemma Example_FeedC_attached :
  attached Example.model Example.FeedC [Example.FeedC; Example.Account2].
Proof. apply attachedb_sound. by vm_compute. Qed.

Lemma Example_FeedB_not_root :
  Example.FeedB <> FeedsModel.m_rootItem Example.model.
Proof. by vm_compute. Qed.

Lemma indexForItem_walk_witness :
  FeedsModel.indexForItem Example.model nullptr = Ret QModelIndex.invalid
  /\ FeedsModel.indexForItem Example.model Example.Root
     = Ret QModelIndex.invalid
  /\ FeedsModel.indexForItem Example.model Example.FeedB
     = redescend Example.model
         [Example.Account1; Example.CategoryY; Example.FeedB].
Proof.
  destruct (indexForItem_walk Example.model) as (Hnull & Hroot & Hwalk).
  split; [exact Hnull|]. split.
  - eapply Hroot; by vm_compute.
  - exact (proj1 (proj2 (Hwalk Example_well_formed _ _
                           Example_FeedB_attached Example_FeedB_not_root))).
Defined.

Lemma itemForIndex_indexForItem_witness :
  exists c,
    FeedsModel.indexForItem Example.model Example.FeedB = Ret c
    /\ FeedsModel.itemForIndex Example.model c = Example.FeedB
    /\ QModelIndex.column c = 0.
Proof.
  exact (itemForIndex_indexForItem Example.model Example.FeedB _
           Example_well_formed Example_FeedB_attached Example_FeedB_not_root).
Defined.

Lemma indexForItem_itemForIndex_witness :
  FeedsModel.indexForItem Example.model
    (FeedsModel.itemForIndex Example.model
       (FeedsModel.createIndex Example.model 1 0 Example.Account2))
  = Ret (FeedsModel.createIndex Example.model 1 0 Example.Account2).
Proof.
  refine (proj2 (indexForItem_itemForIndex Example.model 1 0
                   QModelIndex.invalid [] _ Example_well_formed _ _ _) _).
  - apply attachedb_sound. by vm_compute.
  - by vm_compute.
  - by vm_compute.
  - reflexivity.
Defined.

(** C2 fails in column 1: the coordinate of the first account in the counts
    column is valid and made by index, its item is in the tree, and
    indexForItem of that item is another coordinate. *)
Lemma indexForItem_itemForIndex_column1 :
  let c := FeedsModel.createIndex Example.model 0 1 Example.Account1 in
  FeedsModel.index Example.model 0 1 QModelIndex.invalid = Ret c
  /\ QModelIndex.isValid c = true
  /\ attached Example.model (FeedsModel.itemForIndex Example.model c)
       [Example.Account1]
  /\ FeedsModel.indexForItem Example.model
       (FeedsModel.itemForIndex Example.model c) <> Ret c.
Proof.
  cbn zeta. split; [by vm_compute|]. split; [by vm_compute|]. split.
  - apply attachedb_sound. by vm_compute.
  - by vm_compute.
Qed.

Lemma itemForIndex_never_null_witness :
  FeedsModel.itemForIndex Example.model (QModelIndex.mk 0 0 Example.FeedA 7)
  = Example.Root
  /\ FeedsModel.itemForIndex Example.model
       (FeedsModel.createIndex Example.model 0 1 Example.Account1) <> nullptr.
Proof.
  destruct (itemForIndex_never_null Example.model Example_well_formed)
    as [Hroot Hnonnull].
  split.
  - apply Hroot. right. by vm_compute.
  - apply Hnonnull.
    apply (produced_index _ 0 1 QModelIndex.invalid);
      [apply produced_default|].
    by vm_compute.
Defined.

Lemma notifyWithCounts_pair_witness :
  exists unread_count any_new feeds,
    FeedsModel.notifyWithCounts Example.model
    = Ret [messageCountsChanged unread_count any_new]
    /\ Item.countOfUnreadMessages (FeedsModel.items Example.model)
         (FeedsModel.m_rootItem Example.model) = Ret unread_count
    /\ unread_count = total_unread (FeedsModel.items Example.model) feeds
    /\ (forall f, f ∈ feeds <-> exists fit, feed_in_tree Example.model f fit)
    /\ (any_new = true <->
        exists f fit, feed_in_tree Example.model f fit
                      /\ RootItem.status fit = Feed.NewMessages).
Proof. exact (notifyWithCounts_pair Example.model Example_well_formed). Defined.

Lemma onItemDataChanged_signals_witness :
  exists unread_count any_new,
    FeedsModel.onItemDataChanged 1 Example.model
      [Example.FeedB; Example.FeedC; Example.FeedB]
    = Ret [layoutAboutToBeChanged; layoutChanged;
           messageCountsChanged unread_count any_new]
    /\ FeedsModel.onItemDataChanged 10 Example.model
         [Example.FeedB; Example.FeedC]
       = Ret ([row_signal Example.model Example.FeedB;
               row_signal Example.model Example.CategoryY;
               row_signal Example.model Example.Account1;
               row_signal Example.model Example.FeedC;
               row_signal Example.model Example.Account2]
              ++ [messageCountsChanged unread_count any_new]).
Proof.
  destruct (onItemDataChanged_signals Example.model Example_well_formed 1
              [Example.FeedB; Example.FeedC; Example.FeedB])
    as (u & b & Hn & Hbig & _).
  destruct (onItemDataChanged_signals Example.model Example_well_formed 10
              [Example.FeedB; Example.FeedC])
    as (u' & b' & Hn' & _ & Hsmall).
  assert (u' = u /\ b' = b) as [-> ->].
  { rewrite Hn in Hn'. by injection Hn' as -> ->. }
  exists u, b. split.
  - apply Hbig. by vm_compute.
  - apply (Hsmall ltac:(by vm_compute)
             [[Example.FeedB; Example.CategoryY; Example.Account1];
              [Example.FeedC; Example.Account2]]).
    repeat constructor;
      [apply Example_FeedB_attached | apply Example_FeedC_attached].
Defined.

Lemma mimeData_tokens_witness :
  exists payload,
    DragDrop.mimeData Example.MIME_TYPE_ITEM_POINTER Example.model
      [Example.indexOfItem 0 Example.FeedB; QModelIndex.invalid;
       FeedsModel.createIndex Example.model 0 1 Example.Account1]
    = Ret payload
    /\ stream_tokens (QMimeData.data payload Example.MIME_TYPE_ITEM_POINTER)
       = [Example.FeedB].
Proof.
  destruct (mimeData_tokens Example.MIME_TYPE_ITEM_POINTER Example.model
              Example_well_formed
              [Example.indexOfItem 0 Example.FeedB; QModelIndex.invalid;
               FeedsModel.createIndex Example.model 0 1 Example.Account1])
    as (payload & Hp & _ & Htok & _).
  - apply Forall_cons_2; [|apply Forall_cons_2; [|apply Forall_cons_2]].
    + apply (produced_indexForItem _ Example.FeedB). by vm_compute.
    + apply produced_default.
    + apply (produced_index _ 0 1 QModelIndex.invalid);
        [apply produced_default|].
      by vm_compute.
    + apply Forall_nil_2.
  - exists payload. split; [exact Hp|]. rewrite Htok. by vm_compute.
Defined.

Lemma dropMimeData_move_only_witness :
  Example.drop Example.payload (Example.indexOfItem 0 Example.CategoryX)
  <> Ret (false, Example.model, [])
  /\ DragDrop.dropMimeData Example.MIME_TYPE_ITEM_POINTER
       StandardItem.performDragDropChange Example.model Example.payload
       CopyAction 0 0 (Example.indexOfItem 0 Example.CategoryX)
     = Ret (false, Example.model, []).
Proof.
  split.
  - by vm_compute.
  - apply (proj2 (dropMimeData_move_only Example.MIME_TYPE_ITEM_POINTER
                    StandardItem.performDragDropChange Example.model
                    Example.payload CopyAction 0 0
                    (Example.indexOfItem 0 Example.CategoryX))).
    discriminate.
Defined.

(** C1 fails on a payload of two tokens: FeedA is already a child of the
    target CategoryX, the drop answers false, and FeedB, which came first
    in the payload, has been moved from CategoryY to CategoryX. *)
Lemma dropMimeData_partial_effect :
  (exists a, FeedsModel.items Example.model !! Example.FeedA = Some a
             /\ RootItem.parent a
                = FeedsModel.itemForIndex Example.model
                    (Example.indexOfItem 0 Example.CategoryX))
  /\ stream_tokens
       (QMimeData.data Example.payload Example.MIME_TYPE_ITEM_POINTER)
     = [Example.FeedB; Example.FeedA]
  /\ exists m' evs,
       Example.drop Example.payload (Example.indexOfItem 0 Example.CategoryX)
       = Ret (false, m', evs)
       /\ m' <> Example.model
       /\ RootItem.parent <$> FeedsModel.items Example.model !! Example.FeedB
          = Some Example.CategoryY
       /\ RootItem.parent <$> FeedsModel.items m' !! Example.FeedB
          = Some Example.CategoryX
       /\ RootItem.childItems <$> FeedsModel.items m' !! Example.CategoryX
          = Some [Example.FeedA; Example.FeedB].
Proof.
  split; [eexists; split; by vm_compute|]. split; [by vm_compute|].
  destruct (Example.drop Example.payload
              (Example.indexOfItem 0 Example.CategoryX))
    as [[[b m'] evs]| |] eqn:Hdrop; [|by vm_compute in Hdrop..].
  vm_compute in Hdrop. injection Hdrop as <- <- <-.
  eexists _, _. split; [reflexivity|].
  split; [|split; [|split]]; by vm_compute.
Qed.

Lemma dropMimeData_refuses_witness :
  Example.drop Example.payload (Example.indexOfItem 0 Example.CategoryX)
  = Ret (false, Example.after_FeedB.1, Example.after_FeedB.2)
  /\ Example.drop
       (QMimeData.setData Example.MIME_TYPE_ITEM_POINTER
          (encode_quintptr Example.FeedC) ∅)
       (Example.indexOfItem 0 Example.CategoryX)
     = Ret (false, Example.model, [showGuiMessage_Warning]).
Proof.
  split.
  - refine (eq_trans
              (proj1 (dropMimeData_refuses Example.MIME_TYPE_ITEM_POINTER
                 StandardItem.performDragDropChange Example.model
                 Example.payload 0 0 (Example.indexOfItem 0 Example.CategoryX)
                 [encode_quintptr Example.FeedB]
                 (encode_quintptr Example.FeedA) []
                 Example.after_FeedB.1 Example.after_FeedB.2
                 (RootItem.mk RootItemKind.Feed Example.CategoryX [] 3
                    Feed.Normal)
                 Example.Account1 Example.Account1 _ _ _ _ _ _ _ _)) _).
    + by vm_compute.
    + apply Forall_cons_2; [reflexivity|apply Forall_nil_2].
    + reflexivity.
    + by vm_compute.
    + by vm_compute.
    + by vm_compute.
    + by vm_compute.
    + right. left. by vm_compute.
    + by vm_compute.
  - refine (proj1 (dropMimeData_refuses Example.MIME_TYPE_ITEM_POINTER
              StandardItem.performDragDropChange Example.model
              _ 0 0 (Example.indexOfItem 0 Example.CategoryX)
              [] (encode_quintptr Example.FeedC) []
              Example.model []
              (RootItem.mk RootItemKind.Feed Example.Account2 [] 5 Feed.Normal)
              Example.Account2 Example.Account1 _ _ _ _ _ _ _ _)).
    + by vm_compute.
    + apply Forall_nil_2.
    + reflexivity.
    + reflexivity.
    + by vm_compute.
    + by vm_compute.
    + by vm_compute.
    + right. right. by vm_compute.
Defined.

Lemma debugHandler_fatal_only_witness :
  (Debugging.debugHandler_switch "rssguard" Debugging.QtFatalMsg 0 62 "stop"
     [Debugging.mkTemporary "feedsmodel.cpp" true]
   = Ret [Debugging.fprintf_stderr "rssguard" "FATAL" "feedsmodel.cpp" 62
            "stop";
          Debugging.qApp_exit Debugging.EXIT_FAILURE]
   /\ Debugging.QtFatalMsg = Debugging.QtFatalMsg
      /\ 1 = Debugging.EXIT_FAILURE)
  /\ Debugging.debugHandler_switch "rssguard" Debugging.QtWarningMsg 0 62
       "stop" [Debugging.mkTemporary "feedsmodel.cpp" true]
     = Ret [Debugging.fprintf_stderr "rssguard" "WARNING" "feedsmodel.cpp" 62
              "stop"]
  /\ Debugging.qApp_exit 1 ∉ ([] : list Debugging.Effect).
Proof.
  destruct (debugHandler_fatal_only "rssguard" Example.separator
              Debugging.QtFatalMsg
              (Debugging.mkContext "/src/core/feedsmodel.cpp" 62) "stop")
    as (_ & _ & _ & Hexit & Hline).
  destruct (debugHandler_fatal_only "rssguard" Example.separator
              Debugging.QtWarningMsg
              (Debugging.mkContext "/src/core/feedsmodel.cpp" 62) "stop")
    as (_ & _ & Hnone & _ & Hwarning).
  split; [split|split].
  - apply (Hline 0%nat [Debugging.mkTemporary "feedsmodel.cpp" true]
             "feedsmodel.cpp"); [reflexivity|done].
  - apply (Hexit 0%nat [Debugging.mkTemporary "feedsmodel.cpp" true]
             [Debugging.fprintf_stderr "rssguard" "FATAL" "feedsmodel.cpp" 62
                "stop";
              Debugging.qApp_exit 1] 1); [reflexivity|].
    right. by left.
  - apply (Hwarning 0%nat [Debugging.mkTemporary "feedsmodel.cpp" true]
             "feedsmodel.cpp"); [reflexivity|done].
  - apply (Hnone true [] 1); [done|reflexivity].
Defined.

(** A fatal message in a build that defines QT_NO_DEBUG_OUTPUT: the
    handler returns and has not asked to leave the application; and a
    QtInfoMsg message in a build with debug output writes nothing. *)
Lemma debugHandler_fatal_without_exit :
  Debugging.debugHandler "rssguard" Example.separator true
    Debugging.QtFatalMsg
    (Debugging.mkContext "/src/core/feedsmodel.cpp" 62) "stop"
  = Ret []
  /\ Debugging.debugHandler "rssguard" Example.separator false
       Debugging.QtInfoMsg
       (Debugging.mkContext "/src/core/feedsmodel.cpp" 62) "note"
     = Ret [].
Proof. split; reflexivity. Qed.

(** * More properties *)

(** ** The contract of index, parent and rowCount *)

Lemma indexOf_absent x l : x ∉ l -> indexOf x l = -1.
Proof.
  induction l as [|y l IH]; intros Hx; [done|].
  apply not_elem_of_cons in Hx as [Hne Hx]. simpl.
  rewrite decide_False by done. by rewrite (IH Hx).
Qed.

Section ViewContract.
Import FeedsModel.
Variable m : FeedsModel.t.
Hypothesis Hwf : well_formed m.

(** The parent of a valid coordinate of a child, whatever its column. *)
Lemma parent_createIndex x it pit chain r c :
  items m !! x = Some it -> RootItem.kind it <> RootItemKind.Root ->
  items m !! RootItem.parent it = Some pit ->
  attached m (RootItem.parent it) chain ->
  0 <= r -> 0 <= c ->
  parent m (createIndex m r c x)
  = Ret (coordinate m (RootItem.parent it)).
Proof using Hwf.
  intros Hx Hk Hpar Hatt Hr Hc. unfold parent.
  rewrite (isValid_createIndex m Hwf), (itemForIndex_createIndex m Hwf)
    by done.
  cbn [negb]. rewrite (deref_Some _ _ _ Hx), bind_Ret.
  destruct (RootItem.parent it =? m_rootItem m) eqn:Hq.
  - apply Z.eqb_eq in Hq. rewrite Hq. by rewrite coordinate_root.
  - apply Z.eqb_neq in Hq.
    destruct (attached_not_root m _ _ Hatt Hq)
      as (qit & qpit & chain' & -> & Hqp & Hqk & Hqpar & Hqin & _).
    pose proof (wf_range m Hwf _ _ Hqpar) as Hrange.
    unfold Item.row. rewrite (deref_Some _ _ _ Hqp), bind_Ret.
    unfold nullptr. rewrite (proj2 (Z.eqb_neq _ 0)) by lia.
    rewrite (deref_Some _ _ _ Hqpar), bind_Ret.
    by rewrite (coordinate_child m _ _ _ Hqp Hqk Hqpar).
Qed.

(** X1: index answers for every row and column once its parent coordinate
    resolves to an item: a valid coordinate exactly when the row is among
    the children, the column is one of the two columns and the parent
    coordinate is not in the counts column, then anchored at that child;
    the invalid coordinate otherwise. *)
Theorem index_in_bounds r c par pit :
  items m !! itemForIndex m par = Some pit ->
  exists i,
    index m r c par = Ret i
    /\ (QModelIndex.isValid i = true <->
        0 <= r < RootItem.childCount pit
        /\ 0 <= c < FEEDS_VIEW_COLUMN_COUNT
        /\ QModelIndex.column par <= 0)
    /\ (QModelIndex.isValid i = true ->
        exists x, RootItem.childItems pit !! Z.to_nat r = Some x
                  /\ i = createIndex m r c x)
    /\ (QModelIndex.isValid i = false -> i = QModelIndex.invalid).
Proof.
  intros Hp.
  destruct (decide (0 <= r < RootItem.childCount pit
                    /\ 0 <= c < FEEDS_VIEW_COLUMN_COUNT
                    /\ QModelIndex.column par <= 0)) as [(Hr & Hc & Hcol)|Hout].
  - unfold RootItem.childCount in Hr.
    destruct (lookup_lt_is_Some_2 (RootItem.childItems pit) (Z.to_nat r))
      as [x Hx]; [lia|].
    assert (x ∈ RootItem.childItems pit) as Hin
      by (by eapply list_elem_of_lookup_2).
    pose proof (index_child m Hwf par pit x c Hp Hcol Hin Hc) as Hidx.
    rewrite (indexOf_lookup _ _ _ (wf_nodup m Hwf _ _ Hp) Hx) in Hidx.
    rewrite Z2Nat.id in Hidx by lia.
    exists (createIndex m r c x). split; [done|].
    rewrite (isValid_createIndex m Hwf) by lia.
    split; [by unfold RootItem.childCount|]. split; [eauto|done].
  - destruct (index m r c par) as [i| |] eqn:Hidx.
    + exists i. split; [done|].
      destruct (index_inv m _ _ _ _ Hidx)
        as [->|(pit' & x & Hp' & Hx & Hr & Hc & Hcol & ->)].
      * split; [split; [done|by intros ?]|]. split; [done|done].
      * exfalso. apply Hout.
        assert (pit' = pit) as -> by congruence.
        apply lookup_lt_Some in Hx. unfold RootItem.childCount. lia.
    + exfalso. revert Hidx.
      unfold index, hasIndex, rowCount, deref. rewrite Hp.
      repeat (case_match; simpl; try done).
    + exfalso. revert Hidx.
      unfold index, hasIndex, rowCount, deref. rewrite Hp.
      repeat (case_match; simpl; try done).
Qed.

(** X2: the parent of a valid coordinate that index made below an item of
    the tree is the coordinate of that item, whatever the column of the
    child coordinate: index(r, c, p).parent() is p for the coordinate p of
    an item. *)
Theorem parent_of_index r c par chain i :
  attached m (itemForIndex m par) chain ->
  index m r c par = Ret i ->
  QModelIndex.isValid i = true ->
  parent m i = Ret (coordinate m (itemForIndex m par))
  /\ (par = coordinate m (itemForIndex m par) -> parent m i = Ret par).
Proof.
  intros Hatt Hidx Hvalid.
  destruct (index_inv m _ _ _ _ Hidx)
    as [->|(pit & x & Hp & Hx & Hr & Hc & _ & ->)]; [done|].
  assert (x ∈ RootItem.childItems pit) as Hin
    by (by eapply list_elem_of_lookup_2).
  destruct (wf_child m Hwf _ _ _ Hp Hin) as (xit & Hxit & Hxpar & Hxk).
  assert (parent m (createIndex m r c x)
          = Ret (coordinate m (itemForIndex m par))) as Hparent.
  { rewrite <- Hxpar.
    eapply parent_createIndex; rewrite ?Hxpar; eauto; lia. }
  split; [done|]. intros Heq. by rewrite Hparent, <- Heq.
Qed.

(** X3: index and indexForItem agree: from the coordinate of an item of
    the tree, rowCount is the number of its children, and index at the
    row of a child is the coordinate indexForItem gives for that child. *)
Theorem index_of_child P chain pit :
  attached m P chain ->
  items m !! P = Some pit ->
  exists cP,
    indexForItem m P = Ret cP
    /\ rowCount m cP = Ret (Z.of_nat (length (RootItem.childItems pit)))
    /\ forall (k : nat) x,
         RootItem.childItems pit !! k = Some x ->
         index m (Z.of_nat k) 0 cP = indexForItem m x
         /\ exists cx, indexForItem m x = Ret cx
                       /\ itemForIndex m cx = x
                       /\ QModelIndex.row cx = Z.of_nat k.
Proof.
  intros Hatt Hp. exists (coordinate m P).
  split; [by eapply indexForItem_attached|].
  pose proof (itemForIndex_coordinate m Hwf _ _ Hatt) as Hitem.
  pose proof (coordinate_column m P) as Hcol.
  split.
  - unfold rowCount. rewrite (proj2 (Z.ltb_ge 0 _) Hcol).
    by rewrite Hitem, (deref_Some _ _ _ Hp).
  - intros k x Hx.
    assert (x ∈ RootItem.childItems pit) as Hin
      by (by eapply list_elem_of_lookup_2).
    destruct (wf_child m Hwf _ _ _ Hp Hin) as (xit & Hxit & Hxpar & Hxk).
    pose proof (attached_child_of m Hwf _ _ _ _ Hatt Hp Hin) as Hattx.
    rewrite (indexForItem_attached m Hwf _ _ Hattx).
    assert (coordinate m x = createIndex m (Z.of_nat k) 0 x) as Hcx.
    { rewrite (coordinate_child m x xit pit) by (by rewrite ?Hxpar).
      by rewrite (indexOf_lookup _ _ _ (wf_nodup m Hwf _ _ Hp) Hx). }
    split.
    + rewrite Hcx.
      rewrite <- (indexOf_lookup _ _ _ (wf_nodup m Hwf _ _ Hp) Hx).
      apply index_child; try done. by rewrite Hitem.
    + exists (coordinate m x). split; [done|].
      split; [by eapply itemForIndex_coordinate|]. by rewrite Hcx.
Qed.

(** An item that its parent does not list has the invalid index. *)
Lemma indexForItem_unlisted x it pit chain :
  items m !! x = Some it ->
  RootItem.kind it <> RootItemKind.Root ->
  items m !! RootItem.parent it = Some pit ->
  attached m (RootItem.parent it) chain ->
  x ∉ RootItem.childItems pit ->
  indexForItem m x = Ret QModelIndex.invalid.
Proof.
  intros Hx Hk Hpar Hatt Hnot.
  pose proof (attached_depth m Hwf _ _ Hatt) as Hdepth.
  pose proof (wf_range m Hwf _ _ Hx) as Hrange.
  unfold indexForItem.
  change (2 + size (items m))%nat with (S (S (size (items m)))).
  rewrite (indexForItem_rec_S m).
  unfold nullptr. rewrite (proj2 (Z.eqb_neq x 0)) by lia.
  rewrite (deref_Some _ _ _ Hx), bind_Ret. rewrite decide_False by done.
  cbn [indexForItem_chain].
  rewrite (deref_Some _ _ _ Hx), bind_Ret. rewrite decide_False by done.
  rewrite (indexForItem_chain_attached m Hwf _ _ Hatt) by lia.
  rewrite bind_Ret, (indexForItem_rec_root m Hwf), bind_Ret.
  rewrite (indexForItem_descend_attached m Hwf _ _ Hatt).
  cbn [indexForItem_descend].
  rewrite (deref_Some _ _ _ Hx), bind_Ret, (deref_Some _ _ _ Hpar), bind_Ret.
  rewrite (indexOf_absent _ _ Hnot). reflexivity.
Qed.

(** X4: an item that its parent does not list among its children has no
    coordinate: indexForItem answers the invalid index for it, which
    resolves to the Root item, and reloadChangedItem signals no row for
    it. *)
Theorem indexForItem_detached x it pit chain :
  items m !! x = Some it ->
  RootItem.kind it <> RootItemKind.Root ->
  items m !! RootItem.parent it = Some pit ->
  attached m (RootItem.parent it) chain ->
  x ∉ RootItem.childItems pit ->
  exists i,
    indexForItem m x = Ret i
    /\ QModelIndex.isValid i = false
    /\ itemForIndex m i = m_rootItem m
    /\ reloadChangedItem m x = Ret [].
Proof.
  intros Hx Hk Hpar Hatt Hnot.
  pose proof (indexForItem_unlisted _ _ _ _ Hx Hk Hpar Hatt Hnot) as Hidx.
  exists QModelIndex.invalid. split; [done|]. split; [done|].
  split; [done|].
  unfold reloadChangedItem, reloadChangedLayout.
  rewrite Hidx, bind_Ret.
  change (length [QModelIndex.invalid] * S (size (items m)))%nat
    with (S (size (items m) + 0)).
  by destruct (size (items m) + 0)%nat.
Qed.
End ViewContract.

(** ** The accounts and their recycle bins *)

Section Accounts.
Import FeedsModel Tree.
Variable m : FeedsModel.t.
Hypothesis Hwf : well_formed m.

Lemma serviceRoots_loop_filter (l : list ptr) :
  (forall c, c ∈ l -> is_Some (items m !! c)) ->
  exists roots,
    serviceRoots_loop (items m) l = Ret roots
    /\ forall a, a ∈ roots <->
         a ∈ l /\ exists it, items m !! a = Some it
                             /\ RootItem.kind it = RootItemKind.ServiceRoot.
Proof.
  induction l as [|c l IH]; intros Hall.
  - exists []. split; [done|]. intros a. split; [by intros ?%elem_of_nil|].
    by intros [?%elem_of_nil _].
  - destruct (Hall c) as [it Hit]; [by left|].
    destruct IH as (roots & Hloop & Hmem);
      [intros c' Hc'; apply Hall; by right|].
    cbn [serviceRoots_loop]. rewrite (deref_Some _ _ _ Hit), bind_Ret.
    rewrite Hloop, bind_Ret.
    destruct (decide (RootItem.kind it = RootItemKind.ServiceRoot)) as [Hk|Hk].
    + exists (c :: roots). split; [done|]. intros a.
      rewrite !elem_of_cons, Hmem. split.
      * intros [->|[? ?]]; [eauto|eauto].
      * intros [[->|?] ?]; [by left|right; eauto].
    + exists roots. split; [done|]. intros a.
      rewrite elem_of_cons, Hmem. split.
      * intros [? ?]. eauto.
      * intros [[->|?] (it' & Hit' & Hk')]; [congruence|eauto].
Qed.

(** The loop over the children of the Root item keeps the accounts, in
    their order. *)
Lemma serviceRoots_loop_is_filter (l : list ptr) :
  (forall c, c ∈ l -> is_Some (items m !! c)) ->
  serviceRoots_loop (items m) l = Ret (List.filter (is_account (items m)) l).
Proof.
  induction l as [|c l IH]; intros Hall; [done|].
  destruct (Hall c) as [it Hit]; [by left|].
  cbn [serviceRoots_loop List.filter].
  rewrite (deref_Some _ _ _ Hit), bind_Ret.
  rewrite IH by (intros c' Hc'; apply Hall; by right). rewrite bind_Ret.
  assert (is_account (items m) c
          = bool_decide (RootItem.kind it = RootItemKind.ServiceRoot)) as ->
    by (unfold is_account; by rewrite Hit).
  destruct (decide (RootItem.kind it = RootItemKind.ServiceRoot)) as [Hk|Hk].
  - by rewrite bool_decide_eq_true_2.
  - by rewrite bool_decide_eq_false_2.
Qed.

(** The accounts of a well-formed tree: the children of the Root item
    that are service roots. *)
Lemma serviceRoots_accounts :
  exists r roots,
    items m !! m_rootItem m = Some r
    /\ serviceRoots m = Ret roots
    /\ forall a, a ∈ roots <->
         a ∈ RootItem.childItems r
         /\ exists it, items m !! a = Some it
                       /\ RootItem.kind it = RootItemKind.ServiceRoot.
Proof using Hwf.
  destruct (wf_root m Hwf) as (r & Hr & _).
  destruct (serviceRoots_loop_filter (RootItem.childItems r))
    as (roots & Hloop & Hmem).
  { intros c Hc. destruct (wf_child m Hwf _ _ _ Hr Hc) as (cit & ? & _).
    eauto. }
  exists r, roots. split; [done|]. split; [|done].
  unfold serviceRoots. by rewrite (deref_Some _ _ _ Hr).
Qed.

Section Bins.
Variable World : Type.
Variable recycleBin : ptr -> ptr.

(** The loop operates on the bin of every account that has one, in the
    order of the accounts, each call on the world the call before left,
    and keeps the conjunction of the answers. *)
Lemma allBins_loop_operate (operation : World -> ptr -> bool * World)
  (roots : list ptr) : forall result w calls,
  let bins := List.filter (fun bin => negb (bin =? nullptr))
                          (recycleBin <$> roots) in
  allBins_loop World recycleBin operation roots result w calls
  = (result && forallb id (operate operation bins w).1,
     (operate operation bins w).2,
     calls ++ zip bins (operate operation bins w).1).
Proof.
  induction roots as [|root roots IH]; intros result w calls.
  - simpl. by rewrite andb_true_r, app_nil_r.
  - cbn [allBins_loop fmap list_fmap List.filter].
    destruct (negb (recycleBin root =? nullptr)) eqn:Hbin.
    + cbn [operate].
      destruct (operation w (recycleBin root)) as [answer w'] eqn:Hop.
      rewrite IH. cbv zeta.
      destruct (operate operation _ w') as [answers w''].
      cbn [fst snd forallb zip zip_with id].
      by rewrite andb_assoc, <- app_assoc.
    + apply IH.
Qed.

(** X5: restoreAllBins and emptyAllBins go through the accounts, the
    children of the Root item of the ServiceRoot kind in their order,
    and operate once on the recycle bin of every account that has one:
    each call is made on the world as the call before left it, also
    after a call answered false, the world at the end is the one the
    last call left, the calls made are these bins with the answers of
    their calls, and the result is true exactly when every call answered
    true. *)
Theorem allBins_every_bin (restore empty : World -> ptr -> bool * World)
  (w : World) :
  exists r,
    items m !! m_rootItem m = Some r
    /\ let roots := List.filter (is_account (items m)) (RootItem.childItems r) in
       let bins := List.filter (fun bin => negb (bin =? nullptr))
                               (recycleBin <$> roots) in
       serviceRoots m = Ret roots
       /\ restoreAllBins World recycleBin restore m w
          = Ret (forallb id (operate restore bins w).1,
                 (operate restore bins w).2,
                 zip bins (operate restore bins w).1)
       /\ emptyAllBins World recycleBin empty m w
          = Ret (forallb id (operate empty bins w).1,
                 (operate empty bins w).2,
                 zip bins (operate empty bins w).1)
       /\ length (operate restore bins w).1 = length bins
       /\ length (operate empty bins w).1 = length bins.
Proof using Hwf.
  destruct (wf_root m Hwf) as (r & Hr & _).
  exists r. split; [done|]. cbv zeta.
  assert (serviceRoots m
          = Ret (List.filter (is_account (items m)) (RootItem.childItems r)))
    as Hroots.
  { unfold serviceRoots. rewrite (deref_Some _ _ _ Hr), bind_Ret.
    apply serviceRoots_loop_is_filter. intros c Hc.
    destruct (wf_child m Hwf _ _ _ Hr Hc) as (cit & ? & _). eauto. }
  assert (forall (operation : World -> ptr -> bool * World) bins w0,
            length (operate operation bins w0).1 = length bins) as Hlen.
  { intros operation bins. induction bins as [|bin bins IH]; intros w0.
    - done.
    - cbn [operate]. destruct (operation w0 bin) as [answer w1].
      specialize (IH w1). destruct (operate operation bins w1).
      simpl in *. by rewrite IH. }
  split; [done|]. split; [|split; [|split; [apply Hlen|apply Hlen]]].
  - unfold restoreAllBins. rewrite Hroots, bind_Ret.
    by rewrite allBins_loop_operate.
  - unfold emptyAllBins. rewrite Hroots, bind_Ret.
    by rewrite allBins_loop_operate.
Qed.
End Bins.
End Accounts.

(** ** The file name the message handler writes *)

Section FileName.
Import Debugging.

Lemma append_String c (a b : string) :
  String c a +:+ b = String c (a +:+ b).
Proof. reflexivity. Qed.

Lemma append_assoc_String (a : string) c (b : string) :
  (a +:+ String c EmptyString) +:+ b = a +:+ String c b.
Proof.
  induction a as [|x a IH]; [reflexivity|].
  by rewrite !append_String, IH.
Qed.

Lemma append_EmptyString_r (a : string) : a +:+ EmptyString = a.
Proof.
  induction a as [|x a IH]; [reflexivity|]. by rewrite append_String, IH.
Qed.

Lemma section_last_free separator (base acc : string) :
  separator ∉ String.list_ascii_of_string base ->
  section_last separator base acc = acc +:+ base.
Proof.
  revert acc. induction base as [|c base IH]; intros acc Hfree;
    cbn [section_last].
  - by rewrite append_EmptyString_r.
  - cbn [String.list_ascii_of_string] in Hfree.
    apply not_elem_of_cons in Hfree as [Hne Hfree].
    rewrite decide_False by done.
    by rewrite IH, append_assoc_String.
Qed.

Lemma section_last_cut separator (dir base acc : string) :
  section_last separator (dir +:+ String separator base) acc
  = section_last separator base EmptyString.
Proof.
  revert acc. induction dir as [|c dir IH]; intros acc.
  - change (EmptyString +:+ String separator base)
      with (String separator base).
    cbn [section_last]. by rewrite decide_True.
  - rewrite append_String. cbn [section_last].
    destruct (decide (c = separator)); apply IH.
Qed.

(** X6: in a build with debug output the file name the handler means to
    write, what follows the last separator of the path, is held by a
    temporary that is destroyed when the declaration of [file] ends, so
    the pointer kept in [file] dangles: the fprintf of every debug,
    warning, critical and fatal message reads through it, which is
    undefined, and the handler neither writes its line nor, for a fatal
    message, reaches the request to leave in a defined way. *)
Theorem debugHandler_dangling_file APP_LOW_NAME separator type
  (dir base : string) line message :
  separator ∉ String.list_ascii_of_string base ->
  type <> QtInfoMsg ->
  let placement := mkContext (dir +:+ String separator base) line in
  exists file mem,
    declare_file separator placement = (file, mem)
    /\ mem !! file = Some (mkTemporary base false)
    /\ c_str mem file = Undefined
    /\ (forall label,
          DEBUG_OUTPUT_WORKER APP_LOW_NAME label file line message mem
          = Undefined)
    /\ debugHandler APP_LOW_NAME separator false type placement message
       = Undefined.
Proof.
  intros Hfree Htype placement.
  assert (declare_file separator placement = (0%nat, [mkTemporary base false]))
    as Hfile.
  { unfold declare_file, qPrintable, placement. cbn [file].
    rewrite section_last_cut, (section_last_free _ _ _ Hfree).
    reflexivity. }
  exists 0%nat, [mkTemporary base false].
  split; [done|]. split; [done|]. split; [done|]. split; [done|].
  unfold debugHandler. rewrite Hfile.
  by destruct type.
Qed.
End FileName.

(** ** Scheduled updates *)

Section Scheduler.
Import FeedsModel Schedule.
Variable m : FeedsModel.t.
Hypothesis Hwf : well_formed m.

(** The feeds below an item are listed once. *)
Lemma subtree_feeds_NoDup fuel : forall p chain fs,
  attached m p chain ->
  (size (items m) < length chain + fuel)%nat ->
  Item.getSubTreeFeeds_rec fuel (items m) p = Ret fs ->
  NoDup fs.
Proof using Hwf.
  induction fuel as [|fuel IH]; intros p chain fs Hatt Hfuel; [done|].
  destruct (attached_lookup m Hwf _ _ Hatt) as (it & Hit).
  rewrite getSubTreeFeeds_rec_S, (deref_Some _ _ _ Hit), bind_Ret.
  destruct (decide (RootItem.kind it = RootItemKind.Feed)) as [Hk|Hk].
  { intros [= <-]. apply NoDup_singleton. }
  pose proof (wf_nodup m Hwf _ _ Hit) as Hnd.
  assert (forall c, c ∈ RootItem.childItems it -> attached m c (c :: chain))
    as Hchild by (intros c Hc; by eapply attached_child_of).
  revert fs Hnd Hchild.
  generalize (RootItem.childItems it) as l.
  induction l as [|c l IHl]; intros fs Hnd Hchild; simpl.
  { intros [= <-]. constructor. }
  intros H. apply bind_inv in H as (fs_c & Hc & H).
  apply bind_inv in H as (rest & Hrest & [= <-]).
  apply NoDup_cons in Hnd as [Hcl Hnd].
  assert (NoDup rest
          /\ forall f, f ∈ rest ->
               exists c', c' ∈ l /\ exists pre, attached m f (pre ++ c' :: chain))
    as [Hndrest Hin].
  { clear Hc Hcl IHl. revert rest Hrest.
    assert (forall c', c' ∈ l -> attached m c' (c' :: chain)) as Hchild'
      by (intros c' Hc'; apply Hchild; by right).
    clear Hchild. revert Hnd Hchild'.
    induction l as [|c' l IHl]; intros Hnd Hchild rest; simpl.
    { intros [= <-]. split; [constructor|]. by intros f ?%elem_of_nil. }
    intros H. apply bind_inv in H as (fs' & Hc' & H).
    apply bind_inv in H as (rest' & Hrest' & [= <-]).
    apply NoDup_cons in Hnd as [Hcl' Hnd].
    destruct (IHl Hnd (fun x Hx => Hchild x (list_elem_of_further _ _ _ Hx))
                  rest' Hrest') as [Hnd' Hin'].
    destruct (subtree_feeds m Hwf fuel c' (c' :: chain))
      as (fs'' & Hfs'' & _ & Hspec);
      [apply Hchild; by left|simpl in *; lia|].
    assert (fs'' = fs') as -> by congruence.
    split.
    - apply NoDup_app. split; [|split; [|done]].
      + eapply (IH c' (c' :: chain)); [apply Hchild; by left| |done].
        simpl in *. lia.
      + intros f Hf Hf'. apply Hspec in Hf as [_ (pre & Hpre)].
        destruct (Hin' _ Hf') as (c2 & Hc2 & pre2 & Hpre2).
        pose proof (attached_unique m Hwf _ _ _ Hpre Hpre2) as Heq.
        assert (length (c' :: chain) = length (c2 :: chain)) as Hlen by done.
        destruct (app_inj_2 _ _ _ _ Hlen Heq) as [_ [= ->]]. done.
    - intros f [Hf|Hf]%elem_of_app.
      + apply Hspec in Hf as [_ (pre & Hpre)].
        exists c'. split; [by left|eauto].
      + destruct (Hin' _ Hf) as (c2 & Hc2 & Hpre2).
        exists c2. split; [by right|done]. }
  apply NoDup_app. split; [|split; [|done]].
  - eapply (IH c (c :: chain)); [apply Hchild; by left| |done].
    simpl in *. lia.
  - intros f Hf Hf'.
    destruct (subtree_feeds m Hwf fuel c (c :: chain))
      as (fs'' & Hfs'' & _ & Hspec);
      [apply Hchild; by left|simpl in *; lia|].
    assert (fs'' = fs_c) as -> by congruence.
    apply Hspec in Hf as [_ (pre & Hpre)].
    destruct (Hin _ Hf') as (c2 & Hc2 & pre2 & Hpre2).
    pose proof (attached_unique m Hwf _ _ _ Hpre Hpre2) as Heq.
    assert (length (c :: chain) = length (c2 :: chain)) as Hlen by done.
    destruct (app_inj_2 _ _ _ _ Hlen Heq) as [_ [= ->]]. done.
Qed.

(** The feeds of the tree, as getSubTreeFeeds of the Root item lists
    them. *)
Lemma tree_feeds :
  exists feeds,
    Item.getSubTreeFeeds (items m) (m_rootItem m) = Ret feeds
    /\ NoDup feeds
    /\ forall f, f ∈ feeds <-> exists fit, feed_in_tree m f fit.
Proof using Hwf.
  destruct (notifyWithCounts_answer m Hwf)
    as (feeds & _ & Hfeeds & _ & _ & _ & Hmem).
  exists feeds. split; [done|]. split; [|done].
  eapply (subtree_feeds_NoDup _ (m_rootItem m) []);
    [constructor| |exact Hfeeds]. simpl. lia.
Qed.

(** The loop over feeds listed once: it selects the feeds that are due
    and moves the schedule of each feed it visits by one tick. *)
Lemma feedsForScheduledUpdate_loop_spec auto_update_now feeds :
  forall s,
    NoDup feeds ->
    (forall f, f ∈ feeds -> exists sch, s !! f = Some sch /\ in_range sch) ->
    exists s',
      feedsForScheduledUpdate_loop auto_update_now feeds s
      = Ret (List.filter
               (fun f => match s !! f with
                         | Some sch => due auto_update_now sch
                         | None => false
                         end) feeds, s')
      /\ (forall f, f ∈ feeds -> s' !! f = tick <$> s !! f)
      /\ (forall f, f ∉ feeds -> s' !! f = s !! f).
Proof.
  induction feeds as [|feed feeds IH]; intros s Hnd Hall.
  { exists s. split; [done|]. split; [by intros f ?%elem_of_nil|done]. }
  apply NoDup_cons in Hnd as [Hfeed Hnd].
  destruct (Hall feed) as (sch & Hsch & Hrange); [by left|].
  assert (forall s1 : gmap Z Schedule.t,
            (forall g, g ≠ feed -> s1 !! g = s !! g) ->
            List.filter (fun f => match s1 !! f with
                                  | Some sch => due auto_update_now sch
                                  | None => false
                                  end) feeds
            = List.filter (fun f => match s !! f with
                                    | Some sch => due auto_update_now sch
                                    | None => false
                                    end) feeds) as Hfilter.
  { intros s1 Hs1. apply filter_ext_in. intros g Hg%list_elem_of_In.
    rewrite Hs1; [done|]. by intros ->. }
  assert (forall (s1 : gmap Z Schedule.t) sch1,
            s1 !! feed = Some sch1 ->
            (forall g, g ≠ feed -> s1 !! g = s !! g) ->
            forall f, f ∈ feeds ->
              exists sch, s1 !! f = Some sch /\ in_range sch) as Hall1.
  { intros s1 sch1 _ Hs1 f Hf. rewrite Hs1 by (by intros ->).
    apply Hall. by right. }
  cbn [feedsForScheduledUpdate_loop List.filter]. rewrite Hsch.
  unfold due at 1. unfold in_range in Hrange.
  destruct (autoUpdateType sch) eqn:Htype.
  - destruct (IH s Hnd) as (s' & Hloop & Hin & Hout);
      [intros f Hf; apply Hall; by right|].
    exists s'. split; [done|]. split.
    + intros f [->|Hf]%elem_of_cons; [|by apply Hin].
      rewrite (Hout _ Hfeed), Hsch. cbn [fmap option_fmap option_map].
      unfold tick. by rewrite Htype.
    + intros f [Hne Hf]%not_elem_of_cons. by apply Hout.
  - destruct (IH s Hnd) as (s' & Hloop & Hin & Hout);
      [intros f Hf; apply Hall; by right|].
    exists s'. rewrite Hloop, bind_Ret. split; [by destruct auto_update_now|].
    split.
    + intros f [->|Hf]%elem_of_cons; [|by apply Hin].
      rewrite (Hout _ Hfeed), Hsch. cbn [fmap option_fmap option_map].
      unfold tick. by rewrite Htype.
    + intros f [Hne Hf]%not_elem_of_cons. by apply Hout.
  - destruct (Hrange eq_refl) as [Hrem Hinit].
    rewrite (proj2 (Z.eqb_neq _ _)) by lia.
    destruct (autoUpdateRemainingInterval sch - 1 <=? 0) eqn:Hdue.
    + set (s1 := <[feed := setAutoUpdateRemainingInterval
                             (autoUpdateInitialInterval sch) sch]> s).
      assert (forall g, g ≠ feed -> s1 !! g = s !! g) as Hs1
        by (intros g Hg; unfold s1; by rewrite lookup_insert_ne).
      destruct (IH s1 Hnd) as (s' & Hloop & Hin & Hout).
      { eapply Hall1; [|done]. unfold s1. by rewrite lookup_insert_eq. }
      exists s'. rewrite Hloop, bind_Ret, (Hfilter _ Hs1).
      split; [done|]. split.
      * intros f [->|Hf]%elem_of_cons.
        -- rewrite (Hout _ Hfeed), Hsch. unfold s1.
           rewrite lookup_insert_eq. cbn [fmap option_fmap option_map].
           unfold tick. by rewrite Htype, Hdue.
        -- rewrite (Hin _ Hf), Hs1; [done|]. by intros ->.
      * intros f [Hne Hf]%not_elem_of_cons.
        by rewrite (Hout _ Hf), Hs1.
    + set (s1 := <[feed := setAutoUpdateRemainingInterval
                             (autoUpdateRemainingInterval sch - 1) sch]> s).
      assert (forall g, g ≠ feed -> s1 !! g = s !! g) as Hs1
        by (intros g Hg; unfold s1; by rewrite lookup_insert_ne).
      destruct (IH s1 Hnd) as (s' & Hloop & Hin & Hout).
      { eapply Hall1; [|done]. unfold s1. by rewrite lookup_insert_eq. }
      exists s'. rewrite Hloop, bind_Ret, (Hfilter _ Hs1).
      split; [done|]. split.
      * intros f [->|Hf]%elem_of_cons.
        -- rewrite (Hout _ Hfeed), Hsch. unfold s1.
           rewrite lookup_insert_eq. cbn [fmap option_fmap option_map].
           unfold tick. by rewrite Htype, Hdue.
        -- rewrite (Hin _ Hf), Hs1; [done|]. by intros ->.
      * intros f [Hne Hf]%not_elem_of_cons.
        by rewrite (Hout _ Hf), Hs1.
Qed.

Lemma tick_type sch : autoUpdateType (tick sch) = autoUpdateType sch.
Proof. unfold tick. by repeat case_match. Qed.

Lemma tick_initial sch :
  autoUpdateInitialInterval (tick sch) = autoUpdateInitialInterval sch.
Proof. unfold tick. by repeat case_match. Qed.

Lemma tick_in_range sch : in_range sch -> in_range (tick sch).
Proof.
  unfold in_range. rewrite tick_type, tick_initial. intros Hr Htype.
  destruct (Hr Htype) as [Hrem Hinit]. split; [|done].
  unfold tick. rewrite Htype.
  destruct (autoUpdateRemainingInterval sch - 1 <=? 0) eqn:Hdue;
    simpl; unfold INT_MIN in *; lia.
Qed.

(** One call on a well-formed tree whose feeds all have a schedule. *)
Lemma feedsForScheduledUpdate_call s auto_update_now :
  (forall f fit, feed_in_tree m f fit ->
     exists sch, s !! f = Some sch /\ in_range sch) ->
  exists selected s',
    feedsForScheduledUpdate m s auto_update_now = Ret (selected, s')
    /\ NoDup selected
    /\ (forall f, f ∈ selected <->
          exists fit sch, feed_in_tree m f fit /\ s !! f = Some sch
                          /\ due auto_update_now sch = true)
    /\ (forall f fit, feed_in_tree m f fit -> s' !! f = tick <$> s !! f)
    /\ (forall f, (forall fit, ~ feed_in_tree m f fit) -> s' !! f = s !! f).
Proof using Hwf.
  intros Hall. destruct tree_feeds as (feeds & Hfeeds & Hnd & Hmem).
  destruct (feedsForScheduledUpdate_loop_spec auto_update_now feeds s Hnd)
    as (s' & Hloop & Hin & Hout).
  { intros f Hf. apply Hmem in Hf as (fit & Hfit). eauto. }
  eexists _, s'. unfold feedsForScheduledUpdate.
  rewrite Hfeeds, bind_Ret. split; [exact Hloop|].
  split; [by apply NoDup_ListNoDup, List.NoDup_filter, NoDup_ListNoDup|]. split; [|split].
  - intros f. rewrite list_elem_of_In, filter_In, <- list_elem_of_In, Hmem.
    split.
    + intros [(fit & Hfit) Hdue].
      destruct (s !! f) as [sch|] eqn:Hs; [|done]. eauto 10.
    + intros (fit & sch & Hfit & Hs & Hdue). split; [eauto|].
      by rewrite Hs.
  - intros f fit Hfit. apply Hin, Hmem. eauto.
  - intros f Hnot. apply Hout. intros (fit & Hfit)%Hmem. by eapply Hnot.
Qed.

(** X7: one call of feedsForScheduledUpdate on a tree whose feeds have
    their schedules: a feed that is never updated is not selected, a feed
    on the default schedule is selected exactly when the caller says the
    default interval has passed, and neither has its schedule touched; a
    feed with an interval of its own is selected exactly when one is all
    that remains of it, and its remaining interval is then its initial
    interval again, and is one less otherwise. Feeds outside the tree keep
    their schedule and no feed is selected twice. *)
Theorem feedsForScheduledUpdate_selects s auto_update_now :
  (forall f fit, feed_in_tree m f fit ->
     exists sch, s !! f = Some sch /\ in_range sch) ->
  exists selected s',
    feedsForScheduledUpdate m s auto_update_now = Ret (selected, s')
    /\ NoDup selected
    /\ (forall f, f ∈ selected -> exists fit, feed_in_tree m f fit)
    /\ (forall f, (forall fit, ~ feed_in_tree m f fit) -> s' !! f = s !! f)
    /\ forall f fit sch,
         feed_in_tree m f fit -> s !! f = Some sch ->
         match autoUpdateType sch with
         | DontAutoUpdate => (f ∉ selected) /\ s' !! f = Some sch
         | DefaultAutoUpdate =>
             (f ∈ selected <-> auto_update_now = true)
             /\ s' !! f = Some sch
         | SpecificAutoUpdate =>
             (f ∈ selected <-> autoUpdateRemainingInterval sch <= 1)
             /\ s' !! f
                = Some (setAutoUpdateRemainingInterval
                          (if autoUpdateRemainingInterval sch <=? 1
                           then autoUpdateInitialInterval sch
                           else autoUpdateRemainingInterval sch - 1) sch)
         end.
Proof using Hwf.
  intros Hall.
  destruct (feedsForScheduledUpdate_call s auto_update_now Hall)
    as (selected & s' & Hcall & Hnd & Hsel & Hin & Hout).
  exists selected, s'. split; [done|]. split; [done|]. split.
  { intros f (fit & _ & Hfit & _)%Hsel. eauto. }
  split; [done|].
  intros f fit sch Hfit Hs.
  assert (f ∈ selected <-> due auto_update_now sch = true) as Hdue.
  { rewrite Hsel. split.
    - intros (fit' & sch' & _ & Hs' & Hd). congruence.
    - intros Hd. eauto 10. }
  pose proof (Hin _ _ Hfit) as Hs'. rewrite Hs in Hs'.
  cbn [fmap option_fmap option_map] in Hs'.
  unfold due in Hdue. unfold tick in Hs'.
  destruct (autoUpdateType sch).
  - split; [|done]. rewrite Hdue. done.
  - by split.
  - replace (autoUpdateRemainingInterval sch <=? 1)
      with (autoUpdateRemainingInterval sch - 1 <=? 0) by lia.
    split; [rewrite Hdue; lia|].
    rewrite Hs'. by destruct (autoUpdateRemainingInterval sch - 1 <=? 0).
Qed.

(** Successive calls move the schedule of each feed of the tree by one
    tick each. *)
Lemma calls_spec auto_update_now k : forall s,
  (forall f fit, feed_in_tree m f fit ->
     exists sch, s !! f = Some sch /\ in_range sch) ->
  exists sel s_k,
    calls k m s auto_update_now = Ret (sel, s_k)
    /\ length sel = k
    /\ (forall (j : nat) selj, sel !! j = Some selj ->
          forall f, f ∈ selj <->
            exists fit sch, feed_in_tree m f fit /\ s !! f = Some sch
                            /\ due auto_update_now (Nat.iter j tick sch) = true)
    /\ (forall f fit, feed_in_tree m f fit ->
          s_k !! f = Nat.iter k tick <$> s !! f).
Proof using Hwf.
  induction k as [|k IH]; intros s Hall.
  { exists [], s. split; [done|]. split; [done|]. split; [done|].
    intros f fit Hfit. by destruct (s !! f). }
  destruct (feedsForScheduledUpdate_call s auto_update_now Hall)
    as (selected & s' & Hcall & _ & Hsel & Hin & _).
  assert (forall f fit, feed_in_tree m f fit ->
            exists sch, s' !! f = Some sch /\ in_range sch) as Hall'.
  { intros f fit Hfit. destruct (Hall _ _ Hfit) as (sch & Hs & Hr).
    exists (tick sch). rewrite (Hin _ _ Hfit), Hs.
    split; [done|]. by apply tick_in_range. }
  destruct (IH s' Hall') as (later & s'' & Hcalls & Hlen & Hlater & Hend).
  exists (selected :: later), s''. cbn [calls].
  rewrite Hcall, bind_Ret, Hcalls, bind_Ret.
  split; [done|]. split; [simpl; by rewrite Hlen|]. split.
  - intros [|j] selj Hj f; simpl in Hj.
    + injection Hj as <-. apply Hsel.
    + rewrite (Hlater _ _ Hj f). split.
      * intros (fit & sch' & Hfit & Hs' & Hdue).
        destruct (Hall _ _ Hfit) as (sch & Hs & _).
        rewrite (Hin _ _ Hfit), Hs in Hs'. injection Hs' as <-.
        exists fit, sch. split; [done|]. split; [done|].
        by rewrite Nat.iter_succ_r.
      * intros (fit & sch & Hfit & Hs & Hdue).
        exists fit, (tick sch). split; [done|].
        rewrite (Hin _ _ Hfit), Hs. split; [done|].
        by rewrite <- Nat.iter_succ_r.
  - intros f fit Hfit. rewrite (Hend _ _ Hfit), (Hin _ _ Hfit).
    destruct (s !! f) as [sch|]; [|done].
    cbn [fmap option_fmap option_map]. by rewrite Nat.iter_succ_r.
Qed.

(** What remains of an interval of at least one after so many ticks. *)
Lemma tick_iter_remaining sch (j : nat) :
  autoUpdateType sch = SpecificAutoUpdate ->
  1 <= autoUpdateInitialInterval sch ->
  1 <= autoUpdateRemainingInterval sch ->
  autoUpdateType (Nat.iter j tick sch) = SpecificAutoUpdate
  /\ autoUpdateInitialInterval (Nat.iter j tick sch)
     = autoUpdateInitialInterval sch
  /\ autoUpdateRemainingInterval (Nat.iter j tick sch)
     = if Z.of_nat j <? autoUpdateRemainingInterval sch
       then autoUpdateRemainingInterval sch - Z.of_nat j
       else autoUpdateInitialInterval sch
            - (Z.of_nat j - autoUpdateRemainingInterval sch)
              mod autoUpdateInitialInterval sch.
Proof.
  intros Htype Hn Hr.
  set (n := autoUpdateInitialInterval sch) in *.
  set (r := autoUpdateRemainingInterval sch) in *.
  induction j as [|j (IHt & IHn & IHr)].
  { simpl. split; [done|]. split; [done|].
    change (Z.of_nat 0) with 0.
    replace (0 <? r) with true by lia. fold r. lia. }
  rewrite Nat.iter_succ, tick_type, tick_initial.
  split; [done|]. split; [done|].
  revert IHt IHn IHr. generalize (Nat.iter j tick sch). intros x IHt IHn IHr.
  unfold tick. rewrite IHt, IHr, IHn. clear IHt IHn IHr.
  replace (Z.of_nat (S j)) with (Z.of_nat j + 1) by lia.
  generalize (Z.of_nat j) (Nat2Z.is_nonneg j). intros J HJ.
  destruct (J <? r) eqn:EJ.
  - destruct (r - J - 1 <=? 0) eqn:Edue; simpl.
    + replace (J + 1 <? r) with false by lia.
      replace (J + 1 - r) with 0 by lia. rewrite Z.mod_0_l by lia. lia.
    + replace (J + 1 <? r) with true by lia. lia.
  - replace (J + 1 <? r) with false by lia.
    assert (0 <= J - r) as Ha by lia.
    replace (J + 1 - r) with (J - r + 1) by lia.
    generalize dependent (J - r). intros a Ha.
    pose proof (Z.mod_pos_bound a n ltac:(lia)) as Hq.
    destruct (n - a mod n - 1 <=? 0) eqn:Edue; simpl.
    + assert (a mod n = n - 1) as Hqn by lia.
      assert ((a + 1) mod n = 0) as ->; [|lia].
      rewrite <- Z.add_mod_idemp_l by lia. rewrite Hqn.
      replace (n - 1 + 1) with (1 * n) by lia. apply Z.mod_mul. lia.
    + assert ((a + 1) mod n = a mod n + 1) as ->; [|lia].
      rewrite <- Z.add_mod_idemp_l by lia.
      apply Z.mod_small. lia.
Qed.

(** X8: over successive calls, a feed of the tree with an interval of its
    own of n calls, n at least one, of which r remain, r at least one, is
    selected at the r-th call and then at every n-th call after it, and at
    no other call. *)
Theorem specific_interval_period s auto_update_now f fit sch (k : nat) :
  (forall g git, feed_in_tree m g git ->
     exists sch, s !! g = Some sch /\ in_range sch) ->
  feed_in_tree m f fit ->
  s !! f = Some sch ->
  autoUpdateType sch = SpecificAutoUpdate ->
  1 <= autoUpdateInitialInterval sch ->
  1 <= autoUpdateRemainingInterval sch ->
  exists sel s',
    calls k m s auto_update_now = Ret (sel, s')
    /\ length sel = k
    /\ forall (j : nat) selj,
         sel !! j = Some selj ->
         (f ∈ selj <->
          autoUpdateRemainingInterval sch <= Z.of_nat j + 1
          /\ (Z.of_nat j + 1 - autoUpdateRemainingInterval sch)
             mod autoUpdateInitialInterval sch = 0).
Proof using Hwf.
  intros Hall Hfit Hs Htype Hn Hr.
  destruct (calls_spec auto_update_now k s Hall)
    as (sel & s' & Hcalls & Hlen & Hsel & _).
  exists sel, s'. split; [done|]. split; [done|].
  intros j selj Hj. rewrite (Hsel _ _ Hj f).
  destruct (tick_iter_remaining sch j Htype Hn Hr) as (Ht & _ & Hrem).
  assert (due auto_update_now (Nat.iter j tick sch) = true
          <-> autoUpdateRemainingInterval sch <= Z.of_nat j + 1
              /\ (Z.of_nat j + 1 - autoUpdateRemainingInterval sch)
                 mod autoUpdateInitialInterval sch = 0) as Hdue.
  { unfold due. rewrite Ht, Hrem. clear Ht Hrem.
    set (n := autoUpdateInitialInterval sch) in *.
    set (r := autoUpdateRemainingInterval sch) in *.
    generalize (Z.of_nat j) (Nat2Z.is_nonneg j). intros J HJ.
    destruct (J <? r) eqn:EJ.
    - rewrite Z.leb_le. split.
      + intros Hd. assert (J + 1 - r = 0) as -> by lia.
        split; [lia|]. apply Z.mod_0_l. lia.
      + intros [Hle _]. lia.
    - rewrite Z.leb_le.
      replace (J + 1 - r) with (J - r + 1) by lia.
      assert (0 <= J - r) as Ha by lia.
      generalize dependent (J - r). intros a Ha.
      pose proof (Z.mod_pos_bound a n ltac:(lia)) as Hq.
      split.
      + intros Hd. split; [lia|].
        assert (a mod n = n - 1) as Hqn by lia.
        rewrite <- Z.add_mod_idemp_l by lia. rewrite Hqn.
        replace (n - 1 + 1) with (1 * n) by lia. apply Z.mod_mul. lia.
      + intros [_ Hz].
        destruct (decide (a mod n = n - 1)) as [?|Hne]; [lia|].
        rewrite <- Z.add_mod_idemp_l in Hz by lia.
        rewrite Z.mod_small in Hz by lia. lia. }
  rewrite <- Hdue. split.
  - intros (fit' & sch' & _ & Hs' & Hd). congruence.
  - intros Hd. eauto 10.
Qed.
End Scheduler.

(** ** Changes of the tree *)

Lemma indexOf_last x l :
  x ∉ l -> indexOf x (l ++ [x]) = Z.of_nat (length l).
Proof.
  induction l as [|c l IH]; intros Hx; simpl.
  - by rewrite decide_True.
  - apply not_elem_of_cons in Hx as [Hne Hx].
    rewrite decide_False by done. rewrite (IH Hx).
    destruct (Z.of_nat (length l) <? 0) eqn:E; lia.
Qed.

Lemma removeOne_elem x y l : y ∈ removeOne x l -> y ∈ l.
Proof.
  induction l as [|z l IH]; simpl; [done|].
  destruct (decide (x = z)); [by right|].
  intros [->|?]%elem_of_cons; [by left|right; auto].
Qed.

Lemma removeOne_other x y l : y <> x -> y ∈ l -> y ∈ removeOne x l.
Proof.
  intros Hne. induction l as [|z l IH]; simpl; [done|].
  intros [->|Hy]%elem_of_cons.
  - rewrite decide_False by done. by left.
  - destruct (decide (x = z)); [done|]. right. auto.
Qed.

Lemma removeOne_NoDup x l : NoDup l -> NoDup (removeOne x l).
Proof.
  induction 1 as [|z l Hz Hnd IH]; simpl; [constructor|].
  destruct (decide (x = z)); [done|].
  constructor; [|done]. intros Hin. by apply Hz, (removeOne_elem x).
Qed.

Lemma removeOne_gone x l : NoDup l -> x ∉ removeOne x l.
Proof.
  induction 1 as [|z l Hz Hnd IH]; simpl; [by intros ?%elem_of_nil|].
  destruct (decide (x = z)) as [->|Hne]; [done|].
  by intros [?|?]%elem_of_cons.
Qed.

Lemma removeOne_absent x l : x ∉ l -> removeOne x l = l.
Proof.
  induction l as [|z l IH]; simpl; [done|].
  intros [Hne Hx]%not_elem_of_cons.
  rewrite decide_False by done. by rewrite IH.
Qed.

(** Removing an element that is there deletes the row indexOf finds. *)
Lemma removeOne_delete x l :
  x ∈ l -> removeOne x l = delete (Z.to_nat (indexOf x l)) l.
Proof.
  induction l as [|z l IH]; intros Hx; [by apply elem_of_nil in Hx|].
  simpl. destruct (decide (x = z)) as [->|Hne]; [done|].
  apply elem_of_cons in Hx as [?|Hx]; [done|].
  destruct (indexOf_elem _ _ Hx) as [Hge _].
  destruct (indexOf x l <? 0) eqn:E; [lia|].
  replace (Z.to_nat (indexOf x l + 1)) with (S (Z.to_nat (indexOf x l)))
    by lia.
  simpl. by rewrite IH.
Qed.

Lemma child_ok_ext (h h' : store) p c :
  (RootItem.parent <$> h' !! c) = (RootItem.parent <$> h !! c) ->
  (RootItem.kind <$> h' !! c) = (RootItem.kind <$> h !! c) ->
  child_ok h' p c = child_ok h p c.
Proof.
  unfold child_ok. intros Hp Hk.
  destruct (h' !! c) as [it'|], (h !! c) as [it|]; simpl in *; try done.
  by injection Hp as ->; injection Hk as ->.
Qed.

Lemma item_ok_intro (h : store) p it :
  0 < p < 2 ^ 64 ->
  NoDup (RootItem.childItems it) ->
  (forall c, c ∈ RootItem.childItems it -> child_ok h p c = true) ->
  (RootItem.kind it = RootItemKind.Feed -> RootItem.childItems it = []) ->
  item_ok h (p, it) = true.
Proof.
  intros Hr Hnd Hc Hleaf. unfold item_ok.
  repeat (apply andb_true_intro; split); try lia.
  - by apply bool_decide_eq_true.
  - apply forallb_forall. intros c Hin. by apply Hc, list_elem_of_In.
  - destruct (RootItem.kind it) eqn:Hk; try done.
    by rewrite Hleaf.
Qed.

Lemma item_ok_elim (h : store) p it :
  item_ok h (p, it) = true ->
  0 < p < 2 ^ 64
  /\ NoDup (RootItem.childItems it)
  /\ (forall c, c ∈ RootItem.childItems it -> child_ok h p c = true)
  /\ (RootItem.kind it = RootItemKind.Feed -> RootItem.childItems it = []).
Proof.
  unfold item_ok. intros H.
  repeat (apply andb_prop in H as [H ?]).
  split; [lia|]. split; [by eapply bool_decide_eq_true|]. split.
  - intros c Hc.
    match goal with Hf : forallb _ _ = true |- _ =>
      rewrite forallb_forall in Hf; apply Hf end.
    by apply list_elem_of_In.
  - intros Hk.
    match goal with Hl : match RootItem.kind it with _ => _ end = true |- _ =>
      rewrite Hk in Hl; by destruct (RootItem.childItems it) end.
Qed.

Lemma well_formed_intro (m : FeedsModel.t) :
  FeedsModel.this m <> nullptr ->
  (exists r, FeedsModel.items m !! FeedsModel.m_rootItem m = Some r
             /\ RootItem.kind r = RootItemKind.Root
             /\ RootItem.parent r = nullptr) ->
  (forall p it, FeedsModel.items m !! p = Some it ->
     item_ok (FeedsModel.items m) (p, it) = true) ->
  well_formed m.
Proof.
  intros Hthis (r & Hr & Hk & Hp) Hitems.
  unfold well_formed, well_formedb.
  repeat (apply andb_true_intro; split).
  - apply negb_true_iff. by apply Z.eqb_neq.
  - rewrite Hr. apply andb_true_intro. split.
    + by apply bool_decide_eq_true.
    + by apply Z.eqb_eq.
  - apply forallb_forall. intros [p it] Hin.
    apply Hitems. by apply elem_of_map_to_list, list_elem_of_In.
Qed.

(** What a change of the tree leaves as it was: the kind and the parent
    of every item the chain of an attached item meets, and the place of
    the item among the children of its parent. *)
Lemma attached_transfer (m m' : FeedsModel.t) y chain :
  attached m y chain ->
  FeedsModel.m_rootItem m' = FeedsModel.m_rootItem m ->
  (forall p it pit,
     p ∈ chain ->
     FeedsModel.items m !! p = Some it ->
     FeedsModel.items m !! RootItem.parent it = Some pit ->
     p ∈ RootItem.childItems pit ->
     exists it' pit',
       FeedsModel.items m' !! p = Some it'
       /\ RootItem.kind it' = RootItem.kind it
       /\ RootItem.parent it' = RootItem.parent it
       /\ FeedsModel.items m' !! RootItem.parent it = Some pit'
       /\ p ∈ RootItem.childItems pit') ->
  attached m' y chain.
Proof.
  intros Hatt Hroot.
  induction Hatt as [|p it pit chain Hp Hk Hpar Hin Hatt IH]; intros Hsame.
  - rewrite <- Hroot. constructor.
  - destruct (Hsame p it pit) as (it' & pit' & Hp' & Hk' & Hpar' & Hpit' & Hin');
      [by left|done..|].
    rewrite <- Hpar' in Hpit'.
    eapply attached_child; eauto; [congruence|].
    rewrite Hpar'. apply IH. intros q qit qpit Hq. apply Hsame. by right.
Qed.

Lemma setChildItems_same it :
  RootItem.setChildItems (RootItem.childItems it) it = it.
Proof. by destruct it. Qed.

(** Removing a child that the item does not list changes nothing. *)
Lemma removeChild_absent (h : store) P x :
  (forall pit, h !! P = Some pit -> x ∉ RootItem.childItems pit) ->
  Item.removeChild h P x = h.
Proof.
  intros Hnot. unfold Item.removeChild. apply map_eq. intros p.
  rewrite lookup_alter. destruct (decide (P = p)) as [<-|]; [|done].
  destruct (h !! P) as [pit|] eqn:Hp; [|done]. simpl.
  by rewrite (removeOne_absent _ _ (Hnot _ eq_refl)), setChildItems_same.
Qed.

Section RemoveChild.
Import FeedsModel Tree.
Variable m : FeedsModel.t.
Hypothesis Hwf : well_formed m.
Variables P x : ptr.

Local Abbreviation m' := (withItems m (Item.removeChild (items m) P x)).

Lemma removeChild_lookup p :
  items m' !! p
  = if decide (P = p)
    then (fun it => RootItem.setChildItems
                      (removeOne x (RootItem.childItems it)) it)
           <$> items m !! P
    else items m !! p.
Proof. unfold withItems, Item.removeChild. simpl. apply lookup_alter. Qed.

Lemma removeChild_same {A} p (f : RootItem.t -> A) :
  (forall it l, f (RootItem.setChildItems l it) = f it) ->
  f <$> items m' !! p = f <$> items m !! p.
Proof.
  intros Hf. rewrite removeChild_lookup.
  destruct (decide (P = p)) as [<-|]; [|done].
  destruct (items m !! P) as [it|]; [|done]. simpl. by rewrite Hf.
Qed.

Lemma removeChild_child_ok p c : child_ok (items m') p c = child_ok (items m) p c.
Proof. apply child_ok_ext; by apply removeChild_same. Qed.

(** Removing a child keeps the invariants of the tree. *)
Lemma removeChild_well_formed : well_formed m'.
Proof.
  apply well_formed_intro.
  - apply (wf_this m Hwf).
  - destruct (wf_root_item m Hwf) as (r & Hr & Hk & Hp).
    rewrite removeChild_lookup. simpl.
    destruct (decide (P = m_rootItem m)) as [He|]; [|eauto].
    rewrite He, Hr. simpl. eauto.
  - intros p it'. rewrite removeChild_lookup.
    destruct (decide (P = p)) as [<-|].
    + destruct (items m !! P) as [it|] eqn:Hit; [|done].
      intros [= <-].
      destruct (item_ok_elim _ _ _ (wf_item m Hwf _ _ Hit))
        as (Hr & Hnd & Hc & Hleaf).
      apply item_ok_intro; simpl; [done|by apply removeOne_NoDup| |].
      * intros c Hc'. rewrite removeChild_child_ok.
        by apply Hc, (removeOne_elem x).
      * intros Hk. by rewrite (Hleaf Hk).
    + intros Hit.
      destruct (item_ok_elim _ _ _ (wf_item m Hwf _ _ Hit))
        as (Hr & Hnd & Hc & Hleaf).
      apply item_ok_intro; [done..| |done].
      intros c Hc'. rewrite removeChild_child_ok. by apply Hc.
Qed.

Lemma removeChild_lookup_Some p it :
  items m !! p = Some it ->
  exists it',
    items m' !! p = Some it'
    /\ RootItem.kind it' = RootItem.kind it
    /\ RootItem.parent it' = RootItem.parent it
    /\ forall c, c <> x -> c ∈ RootItem.childItems it ->
         c ∈ RootItem.childItems it'.
Proof.
  intros Hit. rewrite removeChild_lookup.
  destruct (decide (P = p)) as [He|].
  - rewrite He, Hit. simpl. eexists. split; [done|].
    split; [done|]. split; [done|]. simpl.
    intros c Hne Hc. by apply removeOne_other.
  - exists it. eauto.
Qed.

(** The items whose chain does not meet the removed child stay where
    they are. *)
Lemma removeChild_attached y chain :
  attached m y chain -> x ∉ chain -> attached m' y chain.
Proof.
  intros Hatt Hx. eapply attached_transfer; [done|done|].
  intros p it pit Hp Hit Hpit Hin.
  assert (p <> x) as Hne by (by intros ->).
  destruct (removeChild_lookup_Some _ _ Hit) as (it' & Hit' & Hk & Hpar & _).
  destruct (removeChild_lookup_Some _ _ Hpit) as (pit' & Hpit' & _ & _ & Hc).
  exists it', pit'. eauto 10.
Qed.

Lemma removeChild_lookup_inv p it' :
  items m' !! p = Some it' ->
  exists it,
    items m !! p = Some it
    /\ RootItem.kind it' = RootItem.kind it
    /\ RootItem.parent it' = RootItem.parent it
    /\ RootItem.unread it' = RootItem.unread it
    /\ RootItem.status it' = RootItem.status it
    /\ forall c, c ∈ RootItem.childItems it' -> c ∈ RootItem.childItems it.
Proof.
  rewrite removeChild_lookup.
  destruct (decide (P = p)) as [He|].
  - rewrite He. destruct (items m !! p) as [it|]; [|done].
    intros [= <-]. exists it. simpl. repeat (split; [done|]).
    intros c. apply removeOne_elem.
  - intros Hit. exists it'. eauto 10.
Qed.

(** What is in the tree once the child is removed was in the tree. *)
Lemma removeChild_attached_inv y chain : attached m' y chain -> attached m y chain.
Proof.
  intros Hatt. eapply attached_transfer; [done|done|].
  intros p it' pit' Hp Hit' Hpit' Hin.
  destruct (removeChild_lookup_inv _ _ Hit') as (it & Hit & Hk & Hpar & _).
  destruct (removeChild_lookup_inv _ _ Hpit')
    as (pit & Hpit & _ & _ & _ & _ & Hc).
  exists it, pit. rewrite Hpar in Hpit.
  split; [done|]. split; [done|]. split; [done|]. split; [by rewrite Hpar|].
  by apply Hc.
Qed.

(** The removed child is not in the tree any more. *)
Lemma removeChild_detached it pit chain :
  items m !! x = Some it ->
  RootItem.parent it = P ->
  items m !! P = Some pit ->
  x <> m_rootItem m ->
  x <> P ->
  ~ attached m' x chain.
Proof.
  intros Hit Hpar Hpit Hroot HxP Hatt.
  inversion Hatt as [Hr|? it' pit' chain' Hit' Hk' Hpit' Hin' _ Hx Hc].
  { apply Hroot. by rewrite <- Hr. }
  clear Hx Hc. rewrite removeChild_lookup in Hit'.
  rewrite decide_False in Hit' by done.
  assert (it' = it) as He by congruence. rewrite He, Hpar in Hpit'.
  rewrite removeChild_lookup in Hpit'. rewrite decide_True in Hpit' by done.
  rewrite Hpit in Hpit'. simpl in Hpit'.
  assert (RootItem.childItems pit'
          = removeOne x (RootItem.childItems pit)) as Hch
    by (by injection Hpit' as <-).
  rewrite Hch in Hin'.
  by apply (removeOne_gone x _ (wf_nodup m Hwf _ _ Hpit)).
Qed.
End RemoveChild.

Lemma serviceRoots_loop_ext (h h' : store) (l : list ptr) :
  (forall c, RootItem.kind <$> h' !! c = RootItem.kind <$> h !! c) ->
  Tree.serviceRoots_loop h' l = Tree.serviceRoots_loop h l.
Proof.
  intros Hk. induction l as [|c l IH]; [done|].
  cbn [Tree.serviceRoots_loop]. rewrite IH. unfold deref.
  specialize (Hk c).
  destruct (h' !! c) as [cit'|], (h !! c) as [cit|]; simpl in Hk; try done.
  injection Hk as Hk. simpl. by rewrite Hk.
Qed.

Lemma serviceRoots_loop_app (h : store) (l1 l2 r1 r2 : list ptr) :
  Tree.serviceRoots_loop h l1 = Ret r1 ->
  Tree.serviceRoots_loop h l2 = Ret r2 ->
  Tree.serviceRoots_loop h (l1 ++ l2) = Ret (r1 ++ r2).
Proof.
  revert r1. induction l1 as [|c l1 IH]; intros r1 H1 H2.
  - injection H1 as <-. done.
  - cbn [app Tree.serviceRoots_loop] in *.
    destruct (deref h c) as [cit| |]; [|done..].
    rewrite bind_Ret in *.
    destruct (Tree.serviceRoots_loop h l1) as [rs| |] eqn:Hl; [|done..].
    rewrite bind_Ret in H1. rewrite (IH rs eq_refl H2), bind_Ret.
    destruct (decide (RootItem.kind cit = RootItemKind.ServiceRoot));
      by injection H1 as <-.
Qed.

Section AppendChild.
Import FeedsModel Tree.
Variable m : FeedsModel.t.
Hypothesis Hwf : well_formed m.
Variables N x : ptr.
Variables nit xit : RootItem.t.
Hypothesis HN : items m !! N = Some nit.
Hypothesis Hx : items m !! x = Some xit.
Hypothesis HxN : x <> N.

Local Abbreviation m' := (withItems m (Item.appendChild (items m) N x)).

Lemma appendChild_lookup p :
  items m' !! p
  = if decide (p = x) then Some (RootItem.setParent N xit)
    else if decide (p = N)
         then Some (RootItem.setChildItems (RootItem.childItems nit ++ [x]) nit)
         else items m !! p.
Proof.
  unfold withItems, Item.appendChild. simpl.
  rewrite lookup_alter. destruct (decide (x = p)) as [He|Hne].
  - rewrite decide_True by done. rewrite lookup_alter_ne by done.
    by rewrite Hx.
  - rewrite decide_False by done. rewrite lookup_alter.
    destruct (decide (N = p)) as [He|Hne'].
    + rewrite decide_True by done. by rewrite HN.
    + by rewrite decide_False.
Qed.

Lemma appendChild_lookup_Some q qit :
  items m !! q = Some qit ->
  exists qit',
    items m' !! q = Some qit'
    /\ RootItem.kind qit' = RootItem.kind qit
    /\ (q <> x -> RootItem.parent qit' = RootItem.parent qit)
    /\ forall c, c ∈ RootItem.childItems qit -> c ∈ RootItem.childItems qit'.
Proof.
  intros Hq. rewrite appendChild_lookup.
  destruct (decide (q = x)) as [He|Hne].
  - rewrite He, Hx in Hq. injection Hq as <-.
    eexists. split; [done|]. simpl. split; [done|]. split; [done|done].
  - destruct (decide (q = N)) as [He|Hne'].
    + rewrite He, HN in Hq. injection Hq as <-.
      eexists. split; [done|]. simpl. split; [done|]. split; [done|].
      intros c Hc. apply elem_of_app. by left.
    + exists qit. eauto.
Qed.

Lemma appendChild_child_ok p c :
  c <> x -> child_ok (items m') p c = child_ok (items m) p c.
Proof.
  intros Hne. destruct (items m !! c) as [cit|] eqn:Hc.
  - destruct (appendChild_lookup_Some _ _ Hc) as (cit' & Hc' & Hk & Hp & _).
    unfold child_ok. rewrite Hc', Hc, Hk, Hp; done.
  - unfold child_ok. rewrite appendChild_lookup, Hc.
    rewrite decide_False by done.
    destruct (decide (c = N)) as [He|]; [|done].
    rewrite He, HN in Hc. done.
Qed.

Lemma appendChild_kind c :
  RootItem.kind <$> items m' !! c = RootItem.kind <$> items m !! c.
Proof.
  rewrite appendChild_lookup.
  destruct (decide (c = x)) as [He|]; [by rewrite He, Hx|].
  destruct (decide (c = N)) as [He|]; [by rewrite He, HN|done].
Qed.

(** Appending an item that no item lists keeps the invariants of the
    tree, provided the new parent is not a feed and the item is not the
    Root item. *)
Lemma appendChild_well_formed :
  RootItem.kind nit <> RootItemKind.Feed ->
  RootItem.kind xit <> RootItemKind.Root ->
  (forall q qit, items m !! q = Some qit -> x ∉ RootItem.childItems qit) ->
  well_formed m'.
Proof.
  intros HkN Hkx Hfresh. apply well_formed_intro.
  - apply (wf_this m Hwf).
  - destruct (wf_root_item m Hwf) as (r & Hr & Hk & Hp).
    destruct (appendChild_lookup_Some _ _ Hr) as (r' & Hr' & Hk' & Hp' & _).
    exists r'. split; [done|]. split; [congruence|].
    rewrite Hp'; [done|]. intros He. simpl in He. congruence.
  - intros p it'. rewrite appendChild_lookup.
    destruct (decide (p = x)) as [He|Hne].
    + intros [= <-]. rewrite He.
      destruct (item_ok_elim _ _ _ (wf_item m Hwf _ _ Hx))
        as (Hr & Hnd & Hc & Hleaf).
      apply item_ok_intro; simpl; [done|done| |done].
      intros c Hc'. rewrite appendChild_child_ok; [by apply Hc|].
      intros ->. by apply (Hfresh _ _ Hx).
    + destruct (decide (p = N)) as [He|Hne'].
      * intros [= <-]. rewrite He.
        destruct (item_ok_elim _ _ _ (wf_item m Hwf _ _ HN))
          as (Hr & Hnd & Hc & Hleaf).
        apply item_ok_intro; simpl; [done| | |done].
        -- apply NoDup_app. split; [done|]. split; [|apply NoDup_singleton].
           intros c Hc' ->%list_elem_of_singleton. by apply (Hfresh _ _ HN).
        -- intros c [Hc'| ->%list_elem_of_singleton]%elem_of_app.
           ++ rewrite appendChild_child_ok; [by apply Hc|].
              intros ->. by apply (Hfresh _ _ HN).
           ++ unfold child_ok. rewrite appendChild_lookup.
              rewrite decide_True by done. simpl.
              rewrite Z.eqb_refl. simpl.
              by rewrite bool_decide_eq_false_2.
      * intros Hit.
        destruct (item_ok_elim _ _ _ (wf_item m Hwf _ _ Hit))
          as (Hr & Hnd & Hc & Hleaf).
        apply item_ok_intro; [done..| |done].
        intros c Hc'. rewrite appendChild_child_ok; [by apply Hc|].
        intros ->. by apply (Hfresh _ _ Hit).
Qed.

(** The items whose chain does not meet the appended item stay where
    they are. *)
Lemma appendChild_attached y chain :
  attached m y chain -> x ∉ chain -> attached m' y chain.
Proof.
  intros Hatt Hnot. eapply attached_transfer; [done|done|].
  intros p it pit Hp Hit Hpit Hin.
  assert (p <> x) as Hne by (by intros ->).
  destruct (appendChild_lookup_Some _ _ Hit) as (it' & Hit' & Hk & Hpar & _).
  destruct (appendChild_lookup_Some _ _ Hpit) as (pit' & Hpit' & _ & _ & Hc).
  exists it', pit'. eauto 10.
Qed.

(** The appended item is in the tree, below its new parent. *)
Lemma appendChild_attached_new chain :
  RootItem.kind xit <> RootItemKind.Root ->
  attached m N chain -> x ∉ chain -> attached m' x (x :: chain).
Proof.
  intros Hkx Hatt Hnot.
  assert (items m' !! x = Some (RootItem.setParent N xit)) as Hx'
    by (rewrite appendChild_lookup; by rewrite decide_True).
  assert (items m' !! N
          = Some (RootItem.setChildItems (RootItem.childItems nit ++ [x]) nit))
    as HN'.
  { rewrite appendChild_lookup. rewrite decide_False by done.
    by rewrite decide_True. }
  eapply (attached_child m' x (RootItem.setParent N xit)); simpl; eauto.
  - apply elem_of_app. right. by left.
  - by apply appendChild_attached.
Qed.
End AppendChild.

Section Feeds.
Import FeedsModel.
Variable m : FeedsModel.t.
Hypothesis Hwf : well_formed m.

(** An item met on the way up from an attached item is attached by the
    rest of the way. *)
Lemma attached_through f c x :
  attached m f c -> x ∈ c ->
  exists pre rest, c = pre ++ x :: rest /\ attached m x (x :: rest).
Proof.
  induction 1 as [|p it pit chain Hit Hk Hpit Hin Hpar IH]; intros Hx.
  { by apply elem_of_nil in Hx. }
  apply elem_of_cons in Hx as [->|Hx].
  - exists [], chain. split; [done|]. by econstructor.
  - destruct (IH Hx) as (pre & rest & -> & Hatt).
    exists (p :: pre), rest. by split.
Qed.

Lemma total_unread_Permutation (h : store) (l1 l2 : list ptr) :
  l1 ≡ₚ l2 -> total_unread h l1 = total_unread h l2.
Proof.
  induction 1 as [|a l1 l2 _ IH|a b l|l1 l2 l3 _ IH1 _ IH2]; simpl;
    [done|by rewrite IH|lia|congruence].
Qed.

Lemma total_unread_ext (h h' : store) (l : list ptr) :
  (forall f, RootItem.unread <$> h' !! f = RootItem.unread <$> h !! f) ->
  total_unread h' l = total_unread h l.
Proof.
  intros He. induction l as [|f l IH]; [done|]. simpl. rewrite IH. f_equal.
  unfold unread_of. specialize (He f).
  destruct (h' !! f), (h !! f); simpl in He; congruence.
Qed.

(** The count of the tree and the feeds it is taken over, each listed
    once. *)
Lemma tree_counts :
  exists feeds any_new,
    countOfUnreadMessages m = Ret (total_unread (items m) feeds)
    /\ notifyWithCounts m
       = Ret [messageCountsChanged (total_unread (items m) feeds) any_new]
    /\ NoDup feeds
    /\ (forall f, f ∈ feeds <-> exists fit, feed_in_tree m f fit).
Proof using Hwf.
  destruct (notifyWithCounts_answer m Hwf)
    as (feeds & b & Hfeeds & Hcount & _ & Hn & Hmem).
  exists feeds, b. split; [done|]. split; [done|]. split; [|done].
  eapply (subtree_feeds_NoDup m Hwf _ (m_rootItem m) []);
    [constructor| |exact Hfeeds]. simpl. lia.
Qed.
End Feeds.

Section TreeChanges.
Import FeedsModel Tree.
Variable m : FeedsModel.t.
Hypothesis Hwf : well_formed m.

Lemma attached_parent_differs x it chain :
  attached m x (x :: chain) -> items m !! x = Some it ->
  attached m (RootItem.parent it) chain
  /\ x <> RootItem.parent it /\ x <> m_rootItem m /\ (x ∉ chain)
  /\ RootItem.kind it <> RootItemKind.Root.
Proof using Hwf.
  intros Hatt Hit.
  pose proof (attached_NoDup m Hwf _ _ Hatt) as Hnd.
  apply NoDup_cons in Hnd as [Hnot _].
  inversion Hatt as [|? it' pit' ? Hit' Hk' Hpit' Hin' Hatt']; subst.
  assert (it' = it) as -> by congruence.
  split; [done|]. split; [|split; [|done]].
  - intros He. rewrite <- He in Hatt'.
    pose proof (attached_unique m Hwf _ _ _ Hatt Hatt') as Heq.
    apply (f_equal length) in Heq. simpl in Heq. lia.
  - intros He. destruct (wf_root m Hwf) as (r & Hr & Hkr). congruence.
Qed.

Lemma attached_listed x it pit chain :
  attached m x (x :: chain) ->
  items m !! x = Some it ->
  items m !! RootItem.parent it = Some pit ->
  x ∈ RootItem.childItems pit.
Proof.
  intros Hatt Hit Hpit.
  inversion Hatt as [|? it' pit' ? Hit' _ Hpit' Hin' _]; subst.
  assert (it' = it) as -> by congruence. congruence.
Qed.

(** What removeItem answers on an item of the tree below the Root. *)
Lemma removeItem_result x it pit chain :
  attached m x (x :: chain) ->
  items m !! x = Some it ->
  items m !! RootItem.parent it = Some pit ->
  exists unread_count any_new,
    removeItem m x
    = Ret (withItems m (Item.removeChild (items m) (RootItem.parent it) x),
           [emit (beginRemoveRows (coordinate m (RootItem.parent it))
                    (indexOf x (RootItem.childItems pit))
                    (indexOf x (RootItem.childItems pit)));
            emit endRemoveRows;
            deleteLater x;
            emit (messageCountsChanged unread_count any_new)])
    /\ notifyWithCounts
         (withItems m (Item.removeChild (items m) (RootItem.parent it) x))
       = Ret [messageCountsChanged unread_count any_new].
Proof using Hwf.
  intros Hatt Hit Hpit.
  set (m' := withItems m (Item.removeChild (items m) (RootItem.parent it) x)).
  destruct (attached_parent_differs _ _ _ Hatt Hit)
    as (HattP & HxP & Hroot & Hnot & Hk).
  pose proof (attached_listed _ _ _ _ Hatt Hit Hpit) as Hin.
  pose proof (removeChild_well_formed m Hwf (RootItem.parent it) x) as Hwf'.
  destruct (notifyWithCounts_answer _ Hwf')
    as (feeds & b & _ & _ & _ & Hn & _).
  pose proof (wf_range m Hwf _ _ Hit) as Hrange.
  exists (total_unread (items m') feeds), b. split; [|done].
  unfold removeItem. unfold nullptr.
  rewrite (proj2 (Z.eqb_neq x 0)) by lia. cbn [negb].
  rewrite (indexForItem_attached m Hwf _ _ Hatt), bind_Ret.
  rewrite (parentOf_coordinate m Hwf _ _ _ _ Hit Hk Hpit Hin HattP), bind_Ret.
  rewrite (deref_Some _ _ _ Hit), bind_Ret.
  rewrite (deref_Some _ _ _ Hpit), bind_Ret.
  rewrite Hn, bind_Ret.
  by rewrite (coordinate_child m _ _ _ Hit Hk Hpit).
Qed.

(** X9: removeItem on an item of the tree below the Root: it brackets
    the removal of the item's row under the coordinate of its parent,
    defers the deletion of the item and notifies the counts of the tree
    without it; both overloads do the same. The parent loses that one
    row, the item stays in the store but is in the tree no more, the
    items that are not below it stay in the tree, and the invariants of
    the tree are kept. *)
Theorem removeItem_attached x it pit chain :
  attached m x (x :: chain) ->
  items m !! x = Some it ->
  items m !! RootItem.parent it = Some pit ->
  let r := indexOf x (RootItem.childItems pit) in
  let m' :=
    withItems m (Item.removeChild (items m) (RootItem.parent it) x) in
  exists unread_count any_new,
    removeItem m x
    = Ret (m',
           [emit (beginRemoveRows (coordinate m (RootItem.parent it)) r r);
            emit endRemoveRows;
            deleteLater x;
            emit (messageCountsChanged unread_count any_new)])
    /\ removeItem_index m (coordinate m x) = removeItem m x
    /\ well_formed m'
    /\ RootItem.childItems <$> items m' !! RootItem.parent it
       = Some (delete (Z.to_nat r) (RootItem.childItems pit))
    /\ items m' !! x = Some it
    /\ (forall c, ~ attached m' x c)
    /\ (forall y c, attached m y c -> x ∉ c -> attached m' y c).
Proof using Hwf.
  intros Hatt Hit Hpit. cbv zeta.
  set (r := indexOf x (RootItem.childItems pit)).
  set (m' := withItems m (Item.removeChild (items m) (RootItem.parent it) x)).
  destruct (attached_parent_differs _ _ _ Hatt Hit)
    as (HattP & HxP & Hroot & Hnot & Hk).
  pose proof (attached_listed _ _ _ _ Hatt Hit Hpit) as Hin.
  destruct (removeItem_result _ _ _ _ Hatt Hit Hpit) as (u & b & Hrm & Hn).
  exists u, b. split; [done|]. split; [|split; [|split; [|split; [|split]]]].
  - rewrite Hrm. unfold removeItem_index.
    pose proof (itemForIndex_coordinate m Hwf _ _ Hatt) as Hitem.
    assert (QModelIndex.isValid (coordinate m x) = true) as Hvalid.
    { rewrite (coordinate_child m _ _ _ Hit Hk Hpit).
      apply (isValid_createIndex m Hwf); [|done].
      by apply indexOf_elem. }
    rewrite Hvalid, Hitem.
    rewrite (parentOf_coordinate m Hwf _ _ _ _ Hit Hk Hpit Hin HattP), bind_Ret.
    rewrite (deref_Some _ _ _ Hit), bind_Ret.
    rewrite (deref_Some _ _ _ Hpit), bind_Ret.
    rewrite Hn, bind_Ret.
    by rewrite (coordinate_child m _ _ _ Hit Hk Hpit).
  - apply (removeChild_well_formed m Hwf).
  - unfold m'. rewrite removeChild_lookup. rewrite decide_True by done.
    rewrite Hpit. simpl. by rewrite removeOne_delete.
  - unfold m'. rewrite removeChild_lookup. by rewrite decide_False.
  - intros c. by eapply (removeChild_detached m Hwf).
  - intros y c. apply removeChild_attached.
Qed.

(** X10: removeItem leaves the tree alone for a null item and for an
    invalid index, and it is undefined on the Root item, whose parent is
    null. *)
Theorem removeItem_null_and_root :
  removeItem m nullptr = Ret (m, [])
  /\ removeItem_index m QModelIndex.invalid = Ret (m, [])
  /\ removeItem m (m_rootItem m) = Undefined.
Proof using Hwf.
  split; [done|]. split; [done|].
  destruct (wf_root_item m Hwf) as (r & Hr & Hk & Hp).
  pose proof (wf_range m Hwf _ _ Hr) as Hrange.
  unfold removeItem. unfold nullptr in *.
  rewrite (proj2 (Z.eqb_neq _ 0)) by lia. cbn [negb].
  rewrite (indexForItem_attached m Hwf _ [] (attached_root m)), bind_Ret.
  rewrite (coordinate_root m Hwf).
  change (parentOf m QModelIndex.invalid) with (Ret QModelIndex.invalid).
  rewrite bind_Ret, (deref_Some _ _ _ Hr), bind_Ret, Hp.
  unfold deref. destruct (items m !! 0) as [z|] eqn:Hz; [|done].
  pose proof (wf_range m Hwf _ _ Hz). lia.
Qed.

(** What reassignNodeToNewParent answers when the node moves. *)
Lemma reassignNodeToNewParent_result node nit pit N nnit chain chainN :
  attached m node (node :: chain) ->
  items m !! node = Some nit ->
  items m !! RootItem.parent nit = Some pit ->
  attached m N chainN ->
  items m !! N = Some nnit ->
  RootItem.parent nit <> N ->
  RootItem.kind nnit <> RootItemKind.Feed ->
  node ∉ chainN ->
  let r := indexOf node (RootItem.childItems pit) in
  let n := Z.of_nat (length (RootItem.childItems nnit)) in
  let m1 :=
    withItems m (Item.removeChild (items m) (RootItem.parent nit) node) in
  let m' := withItems m1 (Item.appendChild (items m1) N node) in
  reassignNodeToNewParent m node N
  = Ret (m',
         [beginRemoveRows (coordinate m (RootItem.parent nit)) r r;
          endRemoveRows;
          beginInsertRows (coordinate m1 N) n n;
          endInsertRows])
  /\ well_formed m'
  /\ attached m' node (node :: chainN)
  /\ items m' !! node = Some (RootItem.setParent N nit)
  /\ items m' !! N
     = Some (RootItem.setChildItems (RootItem.childItems nnit ++ [node]) nnit)
  /\ items m1 !! RootItem.parent nit
     = Some (RootItem.setChildItems
               (removeOne node (RootItem.childItems pit)) pit)
  /\ (node ∉ RootItem.childItems nnit)
  /\ node <> N.
Proof using Hwf.
  intros Hatt Hnit Hpit HattN HN HPN HkN HnotN r n m1 m'.
  destruct (attached_parent_differs _ _ _ Hatt Hnit)
    as (HattP & HxP & Hroot & Hnot & Hk).
  pose proof (attached_listed _ _ _ _ Hatt Hnit Hpit) as Hin.
  set (P := RootItem.parent nit) in *.
  pose proof (wf_range m Hwf _ _ Hpit) as HrangeP.
  pose proof (removeChild_well_formed m Hwf P node) as Hwf1.
  assert (node <> N) as HnodeN.
  { intros He. rewrite <- He in HattN.
    destruct (attached_not_root m _ _ HattN Hroot) as (? & ? & c & Hc & _).
    apply HnotN. rewrite Hc. by left. }
  assert (items m1 !! node = Some nit) as Hnit1.
  { unfold m1. rewrite removeChild_lookup. by rewrite decide_False. }
  assert (items m1 !! N = Some nnit) as HN1.
  { unfold m1. rewrite removeChild_lookup. by rewrite decide_False. }
  assert (items m1 !! P
          = Some (RootItem.setChildItems
                    (removeOne node (RootItem.childItems pit)) pit)) as HP1.
  { unfold m1. rewrite removeChild_lookup. rewrite decide_True by done.
    by rewrite Hpit. }
  pose proof (removeChild_attached m P node _ _ HattN HnotN) as HattN1.
  assert (forall q qit, items m1 !! q = Some qit ->
            node ∉ RootItem.childItems qit) as Hfresh.
  { intros q qit Hq Hc.
    destruct (wf_child m1 Hwf1 _ _ _ Hq Hc) as (cit & Hcit & Hpar & _).
    assert (cit = nit) as -> by congruence.
    fold P in Hpar. rewrite <- Hpar in Hq. rewrite HP1 in Hq.
    injection Hq as <-. simpl in Hc.
    by apply (removeOne_gone node _ (wf_nodup m Hwf _ _ Hpit)). }
  pose proof (appendChild_well_formed m1 Hwf1 N node nnit nit HN1 Hnit1 HnodeN
                HkN Hk Hfresh) as Hwf'.
  pose proof (appendChild_attached_new m1 N node nnit nit HN1 Hnit1 HnodeN
                _ Hk HattN1 HnotN) as Hatt'.
  split; [|split; [done|split; [done|split; [|split; [|split; [done|split]]]]]].
  - unfold reassignNodeToNewParent.
    rewrite (deref_Some _ _ _ Hnit), bind_Ret. fold P.
    rewrite (proj2 (Z.eqb_neq _ _) HPN).
    unfold nullptr. rewrite (proj2 (Z.eqb_neq P 0)) by lia.
    rewrite (deref_Some _ _ _ Hpit), bind_Ret.
    rewrite (proj2 (Z.leb_le 0 _)) by (by apply indexOf_elem).
    rewrite (indexForItem_attached m Hwf _ _ HattP), !bind_Ret.
    change (mk (this m) (m_rootItem m) (Item.removeChild (items m) P node))
      with m1.
    rewrite (deref_Some _ _ _ HN1), bind_Ret.
    rewrite (indexForItem_attached m1 Hwf1 _ _ HattN1), bind_Ret.
    reflexivity.
  - unfold m'. rewrite (appendChild_lookup m1 N node nnit nit HN1 Hnit1 HnodeN).
    by rewrite decide_True.
  - unfold m'. rewrite (appendChild_lookup m1 N node nnit nit HN1 Hnit1 HnodeN).
    rewrite decide_False by done. by rewrite decide_True.
  - by eapply Hfresh.
  - done.
Qed.

(** X11: reassignNodeToNewParent does nothing when the new parent is the
    parent the node has. Otherwise, for a node of the tree and a new
    parent of the tree that is not a feed and is not below the node, it
    brackets the removal of the node's row under its old parent and then
    the insertion of a last row under the new parent, whose coordinate it
    takes once the node is removed; the node is then the last child of
    the new parent and no child of the old one, and the invariants of the
    tree are kept. *)
Theorem reassignNodeToNewParent_moves node nit pit N nnit chain chainN :
  attached m node (node :: chain) ->
  items m !! node = Some nit ->
  items m !! RootItem.parent nit = Some pit ->
  attached m N chainN ->
  items m !! N = Some nnit ->
  (RootItem.parent nit = N ->
   reassignNodeToNewParent m node N = Ret (m, []))
  /\ (RootItem.parent nit <> N ->
      RootItem.kind nnit <> RootItemKind.Feed ->
      node ∉ chainN ->
      let r := indexOf node (RootItem.childItems pit) in
      let n := Z.of_nat (length (RootItem.childItems nnit)) in
      let m1 :=
        withItems m (Item.removeChild (items m) (RootItem.parent nit) node) in
      let m' := withItems m1 (Item.appendChild (items m1) N node) in
      reassignNodeToNewParent m node N
      = Ret (m',
             [beginRemoveRows (coordinate m (RootItem.parent nit)) r r;
              endRemoveRows;
              beginInsertRows (coordinate m1 N) n n;
              endInsertRows])
      /\ well_formed m'
      /\ attached m' node (node :: chainN)
      /\ RootItem.parent <$> items m' !! node = Some N
      /\ RootItem.childItems <$> items m' !! N
         = Some (RootItem.childItems nnit ++ [node])
      /\ RootItem.childItems <$> items m' !! RootItem.parent nit
         = Some (delete (Z.to_nat r) (RootItem.childItems pit))
      /\ indexForItem m' node = Ret (createIndex m' n 0 node)).
Proof using Hwf.
  intros Hatt Hnit Hpit HattN HN. split.
  { intros He. unfold reassignNodeToNewParent.
    rewrite (deref_Some _ _ _ Hnit), bind_Ret.
    by rewrite (proj2 (Z.eqb_eq _ _) He). }
  intros HPN HkN HnotN r n m1 m'.
  destruct (reassignNodeToNewParent_result _ _ _ _ _ _ _
              Hatt Hnit Hpit HattN HN HPN HkN HnotN)
    as (Heq & Hwf' & Hatt' & Hnode' & HN' & HP1 & Hfresh & HnodeN).
  fold m1 m' in Heq, Hwf', Hatt', Hnode', HN', HP1.
  destruct (attached_parent_differs _ _ _ Hatt Hnit)
    as (_ & HxP & _ & _ & Hk).
  pose proof (attached_listed _ _ _ _ Hatt Hnit Hpit) as Hin.
  split; [done|]. split; [done|]. split; [done|].
  split; [by rewrite Hnode'|]. split; [by rewrite HN'|]. split.
  - assert (items m' !! RootItem.parent nit = items m1 !! RootItem.parent nit)
      as ->.
    { unfold m'. unfold withItems, Item.appendChild. simpl.
      rewrite lookup_alter_ne by done. by rewrite lookup_alter_ne. }
    rewrite HP1. simpl. by rewrite removeOne_delete.
  - rewrite (indexForItem_attached m' Hwf' _ _ Hatt').
    rewrite (coordinate_child m' node _ _ Hnode' Hk HN').
    simpl. by rewrite (indexOf_last _ _ Hfresh).
Qed.

(** What addServiceAccount answers on an account that no item lists
    yet. *)
Lemma addServiceAccount_result account ait freshly_activated r roots :
  items m !! account = Some ait ->
  RootItem.kind ait = RootItemKind.ServiceRoot ->
  (forall q qit, items m !! q = Some qit -> account ∉ RootItem.childItems qit) ->
  items m !! m_rootItem m = Some r ->
  serviceRoots m = Ret roots ->
  let n := Z.of_nat (length (RootItem.childItems r)) in
  let m' :=
    withItems m (Item.appendChild (items m) (m_rootItem m) account) in
  exists actions,
    addServiceAccount m account freshly_activated
    = Ret (true, m',
           emit (beginInsertRows QModelIndex.invalid n n)
           :: emit endInsertRows :: actions)
    /\ last actions = Some (ServiceRoot_start account freshly_activated)
    /\ started actions = [(account, freshly_activated)]
    /\ well_formed m'
    /\ items m' !! account = Some (RootItem.setParent (m_rootItem m) ait)
    /\ items m' !! m_rootItem m
       = Some (RootItem.setChildItems (RootItem.childItems r ++ [account]) r)
    /\ serviceRoots m' = Ret (roots ++ [account]).
Proof using Hwf.
  intros Hait Hk Hfresh Hr Hroots n m'.
  destruct (wf_root m Hwf) as (r0 & Hr0 & Hkr).
  assert (r0 = r) as -> by congruence.
  assert (account <> m_rootItem m) as Hne by (intros ->; congruence).
  assert (RootItem.kind r <> RootItemKind.Feed) as HkF by congruence.
  assert (RootItem.kind ait <> RootItemKind.Root) as HkR by congruence.
  pose proof (appendChild_well_formed m Hwf _ _ _ _ Hr Hait Hne HkF HkR Hfresh)
    as Hwf'.
  fold m' in Hwf'.
  assert (items m' !! account = Some (RootItem.setParent (m_rootItem m) ait))
    as Ha'.
  { unfold m'. rewrite (appendChild_lookup m _ _ _ _ Hr Hait Hne).
    by rewrite decide_True. }
  assert (items m' !! m_rootItem m
          = Some (RootItem.setChildItems (RootItem.childItems r ++ [account]) r))
    as Hr'.
  { unfold m'. rewrite (appendChild_lookup m _ _ _ _ Hr Hait Hne).
    rewrite decide_False by done. by rewrite decide_True. }
  eexists. split; [|split; [|split; [|split; [done|split; [done|split;
    [done|]]]]]].
  - unfold addServiceAccount.
    rewrite (deref_Some _ _ _ Hr), bind_Ret.
    rewrite (indexForItem_attached m Hwf _ _ (attached_root m)), bind_Ret.
    rewrite (coordinate_root m Hwf).
    rewrite (deref_Some _ _ _ Hait), bind_Ret. reflexivity.
  - reflexivity.
  - reflexivity.
  - unfold serviceRoots in *.
    change (m_rootItem m') with (m_rootItem m).
    rewrite (deref_Some _ _ _ Hr'), bind_Ret.
    rewrite (deref_Some _ _ _ Hr), bind_Ret in Hroots.
    rewrite (serviceRoots_loop_ext (items m) (items m'))
      by apply (appendChild_kind m _ _ _ _ Hr Hait Hne).
    apply serviceRoots_loop_app; [done|].
    cbn [serviceRoots_loop]. rewrite (deref_Some _ _ _ Hait), bind_Ret.
    rewrite bind_Ret. by rewrite decide_True.
Qed.

(** X12: addServiceAccount on an account that no item lists yet: it
    answers true and does, in this order: the bracket of the insertion
    of a last row under the Root item; the six connections of the
    account, its requests to remove and to reassign an item and its
    changed data to removeItem, reassignNodeToNewParent and
    onItemDataChanged of the model, and its three other signals to the
    members of the model with the same names; and the start of the
    account with the flag given. The account is then the last child of the Root item and
    last among the accounts, index finds it at the new row, and the
    invariants of the tree are kept. *)
Theorem addServiceAccount_appends account ait freshly_activated r roots :
  items m !! account = Some ait ->
  RootItem.kind ait = RootItemKind.ServiceRoot ->
  (forall q qit, items m !! q = Some qit -> account ∉ RootItem.childItems qit) ->
  items m !! m_rootItem m = Some r ->
  serviceRoots m = Ret roots ->
  let n := Z.of_nat (length (RootItem.childItems r)) in
  let m' :=
    withItems m (Item.appendChild (items m) (m_rootItem m) account) in
  addServiceAccount m account freshly_activated
  = Ret (true, m',
         [emit (beginInsertRows QModelIndex.invalid n n);
         emit endInsertRows;
         connect account "itemRemovalRequested(RootItem*)"
                 "removeItem(RootItem*)";
         connect account "itemReassignmentRequested(RootItem*,RootItem*)"
                 "reassignNodeToNewParent(RootItem*,RootItem*)";
         connect account "dataChanged(QList<RootItem*>)"
                 "onItemDataChanged(QList<RootItem*>)";
         connect account "reloadMessageListRequested(bool)"
                 "reloadMessageListRequested(bool)";
         connect account "itemExpandRequested(QList<RootItem*>,bool)"
                 "itemExpandRequested(QList<RootItem*>,bool)";
         connect account "itemExpandStateSaveRequested(RootItem*)"
                 "itemExpandStateSaveRequested(RootItem*)";
         ServiceRoot_start account freshly_activated])
  /\ well_formed m'
  /\ attached m' account [account]
  /\ rowCount m' QModelIndex.invalid = Ret (n + 1)
  /\ index m' n 0 QModelIndex.invalid = Ret (createIndex m' n 0 account)
  /\ indexForItem m' account = Ret (createIndex m' n 0 account)
  /\ serviceRoots m' = Ret (roots ++ [account]).
Proof using Hwf.
  intros Hait Hk Hfresh Hr Hroots n m'.
  destruct (addServiceAccount_result _ _ freshly_activated _ _
              Hait Hk Hfresh Hr Hroots)
    as (actions & _ & _ & _ & Hwf' & Ha' & Hr' & Hroots').
  fold n m' in Hwf', Ha', Hr', Hroots'.
  assert (addServiceAccount m account freshly_activated
          = Ret (true, m',
         [emit (beginInsertRows QModelIndex.invalid n n);
         emit endInsertRows;
         connect account "itemRemovalRequested(RootItem*)"
                 "removeItem(RootItem*)";
         connect account "itemReassignmentRequested(RootItem*,RootItem*)"
                 "reassignNodeToNewParent(RootItem*,RootItem*)";
         connect account "dataChanged(QList<RootItem*>)"
                 "onItemDataChanged(QList<RootItem*>)";
         connect account "reloadMessageListRequested(bool)"
                 "reloadMessageListRequested(bool)";
         connect account "itemExpandRequested(QList<RootItem*>,bool)"
                 "itemExpandRequested(QList<RootItem*>,bool)";
         connect account "itemExpandStateSaveRequested(RootItem*)"
                 "itemExpandStateSaveRequested(RootItem*)";
         ServiceRoot_start account freshly_activated])) as Heq.
  { unfold addServiceAccount.
    rewrite (deref_Some _ _ _ Hr), bind_Ret.
    rewrite (indexForItem_attached m Hwf _ _ (attached_root m)), bind_Ret.
    rewrite (coordinate_root m Hwf).
    rewrite (deref_Some _ _ _ Hait), bind_Ret. reflexivity. }
  destruct (wf_root m Hwf) as (r0 & Hr0 & Hkr).
  assert (r0 = r) as -> by congruence.
  assert (account <> m_rootItem m) as Hne by (intros ->; congruence).
  assert (RootItem.kind ait <> RootItemKind.Root) as HkR by congruence.
  pose proof (appendChild_attached_new m _ _ _ _ Hr Hait Hne [] HkR
                (attached_root m) ltac:(by intros ?%elem_of_nil)) as Hatt'.
  fold m' in Hatt'.
  assert (account ∉ RootItem.childItems r) as Hnot by (by eapply Hfresh).
  assert (coordinate m' account = createIndex m' n 0 account) as Hcoord.
  { rewrite (coordinate_child m' account _ _ Ha' HkR Hr').
    simpl. by rewrite (indexOf_last _ _ Hnot). }
  split; [done|]. split; [done|].
  split; [done|]. split; [|split; [|split; [|done]]].
  - unfold rowCount.
    change (0 <? QModelIndex.column QModelIndex.invalid) with false.
    change (itemForIndex m' QModelIndex.invalid) with (m_rootItem m).
    cbv iota.
    rewrite (deref_Some _ _ _ Hr'), bind_Ret. unfold RootItem.childCount.
    simpl. rewrite length_app. simpl. f_equal. unfold n. lia.
  - pose proof (index_child m' Hwf' QModelIndex.invalid _ account 0 Hr')
      as Hidx.
    simpl in Hidx. rewrite (indexOf_last _ _ Hnot) in Hidx.
    apply Hidx; [done| |done].
    apply elem_of_app. right. by left.
  - rewrite (indexForItem_attached m' Hwf' _ _ Hatt'). by rewrite Hcoord.
Qed.

(** The feeds of the tree are those below an attached item and those of
    the tree without it. *)
Lemma removeItem_feeds x it pit chain feeds below feeds' :
  attached m x (x :: chain) ->
  items m !! x = Some it ->
  items m !! RootItem.parent it = Some pit ->
  NoDup feeds ->
  (forall f, f ∈ feeds <-> exists fit, feed_in_tree m f fit) ->
  NoDup below ->
  (forall f, f ∈ below <->
     (exists fit, items m !! f = Some fit
                  /\ RootItem.kind fit = RootItemKind.Feed)
     /\ exists pre, attached m f (pre ++ x :: chain)) ->
  NoDup feeds' ->
  (forall f, f ∈ feeds' <->
     exists fit,
       feed_in_tree
         (withItems m (Item.removeChild (items m) (RootItem.parent it) x))
         f fit) ->
  feeds ≡ₚ below ++ feeds'.
Proof using Hwf.
  intros Hatt Hit Hpit Hnd Hmem Hndb Hmemb Hnd' Hmem'.
  set (m' := withItems m (Item.removeChild (items m) (RootItem.parent it) x))
    in *.
  destruct (attached_parent_differs _ _ _ Hatt Hit)
    as (HattP & HxP & Hroot & Hnot & Hk).
  assert (forall f, f ∈ feeds' ->
            exists fit c, items m !! f = Some fit
                          /\ RootItem.kind fit = RootItemKind.Feed
                          /\ attached m f c /\ x ∉ c) as Hfeeds'.
  { intros f (fit' & Hfit' & Hkf & c & Hc)%Hmem'.
    destruct (removeChild_lookup_inv m _ _ _ _ Hfit')
      as (fit & Hfit & Hkind & _).
    exists fit, c. split; [done|]. split; [congruence|].
    split; [by eapply removeChild_attached_inv|].
    intros Hx. destruct (attached_through m' _ _ _ Hc Hx)
      as (pre & rest & _ & Hx').
    by eapply (removeChild_detached m Hwf _ _ it pit). }
  apply NoDup_Permutation; [done| |].
  - apply NoDup_app. split; [done|]. split; [|done].
    intros f (_ & pre & Hpre)%Hmemb (fit & c & _ & _ & Hc & Hx)%Hfeeds'.
    rewrite (attached_unique m Hwf _ _ _ Hc Hpre) in Hx.
    apply Hx. apply elem_of_app. right. by left.
  - intros f. rewrite elem_of_app, Hmem. split.
    + intros (fit & Hfit & Hkf & c & Hc).
      destruct (decide (x ∈ c)) as [Hx|Hx].
      * left. apply Hmemb. split; [eauto|].
        destruct (attached_through m _ _ _ Hc Hx) as (pre & rest & -> & Hx').
        exists pre. by rewrite (attached_unique m Hwf _ _ _ Hatt Hx').
      * right. apply Hmem'.
        pose proof (removeChild_same m (RootItem.parent it) x f RootItem.kind
                      ltac:(done)) as Hsame.
        fold m' in Hsame. rewrite Hfit in Hsame.
        destruct (items m' !! f) as [fit'|] eqn:Hfit'; [|done].
        exists fit'. split; [done|]. split; [simpl in Hsame; congruence|].
        exists c. by apply removeChild_attached.
    + intros [(Hf & pre & Hpre)%Hmemb|(fit & c & ? & ? & ? & _)%Hfeeds'].
      * destruct Hf as (fit & ? & ?). exists fit. repeat split; eauto.
      * exists fit. repeat split; eauto.
Qed.

(** X13: removeItem on an item of the tree a second time, before the
    deferred deletion: the item has no coordinate then, so the removal
    is announced for row -1 under the invalid index, the deletion is
    deferred once more, and the tree stays as the first removal left
    it. *)
Theorem removeItem_twice x it pit chain :
  attached m x (x :: chain) ->
  items m !! x = Some it ->
  items m !! RootItem.parent it = Some pit ->
  exists m' actions unread_count any_new,
    removeItem m x = Ret (m', actions)
    /\ removeItem m' x
       = Ret (m',
              [emit (beginRemoveRows QModelIndex.invalid (-1) (-1));
               emit endRemoveRows;
               deleteLater x;
               emit (messageCountsChanged unread_count any_new)])
    /\ last actions = Some (emit (messageCountsChanged unread_count any_new)).
Proof using Hwf.
  intros Hatt Hit Hpit.
  destruct (attached_parent_differs _ _ _ Hatt Hit)
    as (HattP & HxP & Hroot & Hnot & Hk).
  destruct (removeItem_result _ _ _ _ Hatt Hit Hpit) as (u & b & Hrm & Hn).
  set (P := RootItem.parent it) in *.
  set (m' := withItems m (Item.removeChild (items m) P x)) in *.
  pose proof (removeChild_well_formed m Hwf P x) as Hwf'. fold m' in Hwf'.
  pose proof (wf_range m Hwf _ _ Hit) as Hrange.
  assert (items m' !! x = Some it) as Hit'.
  { unfold m'. rewrite removeChild_lookup. by rewrite decide_False. }
  assert (items m' !! P
          = Some (RootItem.setChildItems
                    (removeOne x (RootItem.childItems pit)) pit)) as HP'.
  { unfold m'. rewrite removeChild_lookup. rewrite decide_True by done.
    by rewrite Hpit. }
  assert (x ∉ removeOne x (RootItem.childItems pit)) as Hgone
    by apply (removeOne_gone _ _ (wf_nodup m Hwf _ _ Hpit)).
  assert (withItems m' (Item.removeChild (items m') P x) = m') as Hsame.
  { unfold withItems. simpl. f_equal. apply removeChild_absent.
    intros pit'. change (Item.removeChild (items m) P x) with (items m').
    rewrite HP'. by intros [= <-]. }
  eexists m', _, u, b. split; [exact Hrm|]. split; [|done].
  unfold removeItem. unfold nullptr.
  rewrite (proj2 (Z.eqb_neq x 0)) by lia. cbn [negb].
  rewrite (indexForItem_unlisted m' Hwf' x it _ chain Hit' Hk HP'
             (removeChild_attached m P x _ _ HattP Hnot) Hgone), bind_Ret.
  change (parentOf m' QModelIndex.invalid) with (Ret QModelIndex.invalid).
  rewrite bind_Ret, (deref_Some _ _ _ Hit'), bind_Ret.
  fold P. rewrite (deref_Some _ _ _ HP'), bind_Ret.
  rewrite Hsame, Hn, bind_Ret. reflexivity.
Qed.

(** X14: removeItem on an item of the tree takes the unread messages
    that the item counts out of the count of the tree: the count it
    notifies, and the count of the tree afterwards, is the count before
    less the count of the item, which for a feed is the feed's own. *)
Theorem removeItem_counts x it pit chain unread_count item_count :
  attached m x (x :: chain) ->
  items m !! x = Some it ->
  items m !! RootItem.parent it = Some pit ->
  countOfUnreadMessages m = Ret unread_count ->
  Item.countOfUnreadMessages (items m) x = Ret item_count ->
  exists m' actions any_new,
    removeItem m x = Ret (m', actions)
    /\ last actions
       = Some (emit (messageCountsChanged (unread_count - item_count) any_new))
    /\ countOfUnreadMessages m' = Ret (unread_count - item_count)
    /\ (RootItem.kind it = RootItemKind.Feed ->
        item_count = RootItem.unread it).
Proof using Hwf.
  intros Hatt Hit Hpit Hu Hux.
  set (m' := withItems m (Item.removeChild (items m) (RootItem.parent it) x)).
  destruct (removeItem_result _ _ _ _ Hatt Hit Hpit) as (u' & b & Hrm & Hn).
  fold m' in Hrm, Hn.
  pose proof (removeChild_well_formed m Hwf (RootItem.parent it) x) as Hwf'.
  fold m' in Hwf'.
  destruct (tree_counts m Hwf) as (feeds & b0 & Hcount & _ & Hnd & Hmem).
  destruct (tree_counts m' Hwf')
    as (feeds' & b' & Hcount' & Hn' & Hnd' & Hmem').
  destruct (subtree_feeds m Hwf (S (size (items m))) x (x :: chain) Hatt)
    as (below & Hbelow & Hcountb & Hmemb); [simpl; lia|].
  assert (NoDup below) as Hndb.
  { eapply (subtree_feeds_NoDup m Hwf _ _ _ _ Hatt); [|exact Hbelow].
    simpl. lia. }
  pose proof (removeItem_feeds _ _ _ _ _ _ _ Hatt Hit Hpit
                Hnd Hmem Hndb Hmemb Hnd' Hmem') as Hperm.
  assert (total_unread (items m') feeds' = unread_count - item_count) as Heq.
  { rewrite (total_unread_ext (items m) (items m')).
    - rewrite Hcount in Hu. injection Hu as <-.
      unfold Item.countOfUnreadMessages in Hux. rewrite Hcountb in Hux.
      injection Hux as <-.
      rewrite (total_unread_Permutation _ _ _ Hperm), total_unread_app. lia.
    - intros f. by apply (removeChild_same m). }
  rewrite Hn' in Hn. injection Hn as <- <-.
  eexists m', _, b'. split; [exact Hrm|]. split; [by rewrite <- Heq|].
  split; [by rewrite Hcount', Heq|].
  intros Hkf. unfold Item.countOfUnreadMessages in Hux.
  rewrite countOfUnreadMessages_rec_S, (deref_Some _ _ _ Hit), bind_Ret in Hux.
  rewrite Hkf in Hux. by injection Hux as <-.
Qed.
End TreeChanges.

(** ** Loading the accounts *)

Section Loading.
Import Tree.

Lemma unlistedb_sound (h : store) (a : ptr) :
  unlistedb h a = true ->
  forall q qit, h !! q = Some qit -> a ∉ RootItem.childItems qit.
Proof.
  unfold unlistedb. rewrite forallb_forall. intros Hu q qit Hq.
  specialize (Hu (q, qit)). simpl in Hu.
  assert (negb (bool_decide (a ∈ RootItem.childItems qit)) = true) as Hn.
  { apply Hu. apply list_elem_of_In. by apply elem_of_map_to_list. }
  apply negb_true_iff in Hn. by apply bool_decide_eq_false in Hn.
Qed.

Lemma new_account_elim (h : store) (a : ptr) :
  new_account h a ->
  exists ait,
    h !! a = Some ait
    /\ RootItem.kind ait = RootItemKind.ServiceRoot
    /\ forall q qit, h !! q = Some qit -> a ∉ RootItem.childItems qit.
Proof.
  unfold new_account, new_accountb.
  intros [Ha Hu]%andb_prop.
  destruct (h !! a) as [ait|]; [|done]. exists ait. split; [done|].
  split; [by apply bool_decide_eq_true in Ha|].
  by apply unlistedb_sound.
Qed.

Lemma new_account_intro (h : store) (a : ptr) ait :
  h !! a = Some ait ->
  RootItem.kind ait = RootItemKind.ServiceRoot ->
  (forall q qit, h !! q = Some qit -> a ∉ RootItem.childItems qit) ->
  new_account h a.
Proof.
  intros Ha Hk Hfresh.
  unfold new_account, Tree.new_accountb, Tree.unlistedb. rewrite Ha.
  apply andb_true_intro. split; [by apply bool_decide_eq_true|].
  apply forallb_forall. intros [q qit] Hin. simpl.
  apply negb_true_iff, bool_decide_eq_false.
  apply list_elem_of_In, elem_of_map_to_list in Hin. by eapply Hfresh.
Qed.

(** An account that is not in the tree stays out of it when another
    account is added. *)
Lemma addServiceAccount_new_account (m : FeedsModel.t) a ait r b :
  FeedsModel.items m !! a = Some ait ->
  FeedsModel.items m !! FeedsModel.m_rootItem m = Some r ->
  a <> FeedsModel.m_rootItem m ->
  new_account (FeedsModel.items m) b -> b <> a ->
  new_account
    (Item.appendChild (FeedsModel.items m) (FeedsModel.m_rootItem m) a) b.
Proof.
  intros Ha Hr Hne (bit & Hb & Hk & Hfresh)%new_account_elim Hba.
  pose proof (appendChild_lookup m _ _ _ _ Hr Ha Hne) as Hlookup.
  simpl in Hlookup.
  pose proof (appendChild_kind m _ _ _ _ Hr Ha Hne b) as Hkb.
  simpl in Hkb. rewrite Hb in Hkb.
  destruct (Item.appendChild (FeedsModel.items m) (FeedsModel.m_rootItem m) a
            !! b) as [bit'|] eqn:Hb'; [|done].
  simpl in Hkb. injection Hkb as Hkb.
  apply (new_account_intro _ _ bit'); [done|congruence|].
  intros q qit. rewrite Hlookup.
  destruct (decide (q = a)) as [->|].
  { intros [= <-]. simpl. by eapply Hfresh. }
  destruct (decide (q = FeedsModel.m_rootItem m)) as [->|].
  { intros [= <-]. simpl. rewrite elem_of_app, list_elem_of_singleton.
    intros [Hin|Heq]; [by apply (Hfresh _ _ Hr)|by apply Hba]. }
  apply Hfresh.
Qed.

(** The inner loop of loadActivatedServiceAccounts, over the accounts of
    one entry point. *)
Lemma loadActivatedServiceAccounts_roots_result (accounts : list ptr) :
  forall (m : FeedsModel.t) r roots others,
  well_formed m ->
  NoDup (accounts ++ others) ->
  Forall (new_account (FeedsModel.items m)) (accounts ++ others) ->
  FeedsModel.items m !! FeedsModel.m_rootItem m = Some r ->
  Tree.serviceRoots m = Ret roots ->
  exists m' actions r',
    Tree.loadActivatedServiceAccounts_roots m accounts = Ret (m', actions)
    /\ well_formed m'
    /\ Forall (new_account (FeedsModel.items m')) others
    /\ FeedsModel.items m' !! FeedsModel.m_rootItem m' = Some r'
    /\ RootItem.childItems r' = RootItem.childItems r ++ accounts
    /\ Tree.serviceRoots m' = Ret (roots ++ accounts)
    /\ Tree.started actions = (fun a => (a, false)) <$> accounts.
Proof.
  induction accounts as [|a accounts IH];
    intros m r roots others Hwf Hnd Hnew Hr Hroots.
  { exists m, [], r. rewrite !app_nil_r. by repeat split. }
  cbn [app] in Hnd, Hnew.
  apply NoDup_cons in Hnd as [Ha Hnd].
  apply Forall_cons in Hnew as [Hnewa Hnew].
  destruct (new_account_elim _ _ Hnewa) as (ait & Hait & Hk & Hfresh).
  destruct (addServiceAccount_result m Hwf a ait false r roots
              Hait Hk Hfresh Hr Hroots)
    as (acts & Heq & _ & Hstarted & Hwf1 & _ & Hr1 & Hroots1).
  set (m1 := Tree.withItems m
               (Item.appendChild (FeedsModel.items m)
                  (FeedsModel.m_rootItem m) a)) in *.
  destruct (wf_root m Hwf) as (r0 & Hr0 & Hkr).
  assert (a <> FeedsModel.m_rootItem m) as Hne by (intros ->; congruence).
  destruct (IH m1 (RootItem.setChildItems (RootItem.childItems r ++ [a]) r)
              (roots ++ [a]) others Hwf1 Hnd) as
    (m' & later & r' & Hloop & Hwf' & Hothers & Hr' & Hchildren & Hroots'
     & Hstarted'); [|exact Hr1|exact Hroots1|].
  { apply Forall_forall. intros b Hb.
    apply (addServiceAccount_new_account m a ait r b Hait Hr Hne).
    - rewrite Forall_forall in Hnew. by apply Hnew.
    - by intros ->. }
  exists m', (emit (beginInsertRows QModelIndex.invalid
                      (Z.of_nat (length (RootItem.childItems r)))
                      (Z.of_nat (length (RootItem.childItems r))))
              :: emit endInsertRows :: acts ++ later), r'.
  split; [|split; [done|split; [done|split; [done|split; [|split]]]]].
  - cbn [Tree.loadActivatedServiceAccounts_roots].
    rewrite Heq, bind_Ret. cbv beta iota. rewrite Hloop, bind_Ret.
    reflexivity.
  - rewrite Hchildren. simpl. by rewrite <- app_assoc.
  - rewrite Hroots'. by rewrite <- app_assoc.
  - unfold Tree.started in *. cbn [omap list_omap]. rewrite omap_app.
    by rewrite Hstarted, Hstarted'.
Qed.

(** X15: loadActivatedServiceAccounts over entry points whose accounts
    are distinct and not in the tree yet: every account is added in the
    order of the entry points and, within an entry point, in the order
    it gives them; each one is started once, as not freshly activated;
    afterwards the accounts follow the former children of the Root item
    and the former accounts in that order, and the invariants of the
    tree hold. *)
Theorem loadActivatedServiceAccounts_appends (m : FeedsModel.t)
    (feedServices : list (list ptr)) r roots :
  well_formed m ->
  NoDup (concat feedServices) ->
  Forall (new_account (FeedsModel.items m)) (concat feedServices) ->
  FeedsModel.items m !! FeedsModel.m_rootItem m = Some r ->
  Tree.serviceRoots m = Ret roots ->
  exists m' actions r',
    Tree.loadActivatedServiceAccounts m feedServices = Ret (m', actions)
    /\ well_formed m'
    /\ FeedsModel.items m' !! FeedsModel.m_rootItem m' = Some r'
    /\ RootItem.childItems r' = RootItem.childItems r ++ concat feedServices
    /\ Tree.serviceRoots m' = Ret (roots ++ concat feedServices)
    /\ Tree.started actions = (fun a => (a, false)) <$> concat feedServices.
Proof.
  revert m r roots.
  induction feedServices as [|accounts feedServices IH];
    intros m r roots Hwf Hnd Hnew Hr Hroots.
  { exists m, [], r. simpl. rewrite !app_nil_r. by repeat split. }
  cbn [concat] in *.
  destruct (loadActivatedServiceAccounts_roots_result accounts m r roots
              (concat feedServices) Hwf Hnd Hnew Hr Hroots)
    as (m1 & acts & r1 & Hloop & Hwf1 & Hothers & Hr1 & Hchildren1 & Hroots1
        & Hstarted1).
  apply NoDup_app in Hnd as (_ & _ & Hnd).
  destruct (IH m1 r1 (roots ++ accounts) Hwf1 Hnd Hothers Hr1 Hroots1)
    as (m' & later & r' & Hload & Hwf' & Hr' & Hchildren & Hroots' & Hstarted).
  exists m', (acts ++ later), r'.
  split; [|split; [done|split; [done|split; [|split]]]].
  - cbn [Tree.loadActivatedServiceAccounts].
    rewrite Hloop, bind_Ret. cbv beta iota. rewrite Hload, bind_Ret.
    reflexivity.
  - rewrite Hchildren, Hchildren1. by rewrite <- app_assoc.
  - rewrite Hroots'. by rewrite <- app_assoc.
  - unfold Tree.started in *. rewrite omap_app, fmap_app.
    by rewrite Hstarted1, Hstarted.
Qed.
End Loading.

(** ** Dragging and dropping *)

Section DragAndDrop.
Import FeedsModel DragDrop.
Variable MIME_TYPE_ITEM_POINTER : string.
Variable performDragDropChange :
  FeedsModel.t -> ptr -> ptr -> res (bool * FeedsModel.t * list Event).
Variable m : FeedsModel.t.
Hypothesis Hwf : well_formed m.

(** The loop of dropMimeData reads the token that the stream starts
    with. *)
Lemma dropMimeData_loop_token p stream (m0 : t) parent log :
  dropMimeData_loop performDragDropChange (encode_quintptr p ++ stream)
    m0 parent log
  = '(returned, m', evs) ←
      dropMimeData_item performDragDropChange m0 parent
        (decode_quintptr (encode_quintptr p));
    match returned with
    | Some b => Ret (b, m', log ++ evs)
    | None =>
        dropMimeData_loop performDragDropChange stream m' parent (log ++ evs)
    end.
Proof. reflexivity. Qed.

(** The payload that mimeData makes for the coordinate of an item. *)
Lemma mimeData_coordinate node chain :
  attached m node (node :: chain) ->
  mimeData MIME_TYPE_ITEM_POINTER m [coordinate m node]
  = Ret (QMimeData.setData MIME_TYPE_ITEM_POINTER (encode_quintptr node) ∅).
Proof using Hwf.
  intros Hatt.
  assert (node <> m_rootItem m) as Hroot.
  { intros He. rewrite He in Hatt.
    pose proof (attached_unique m Hwf _ _ _ Hatt (attached_root m)). done. }
  destruct (attached_not_root m _ _ Hatt Hroot)
    as (it & pit & chain' & _ & Hit & Hk & Hpit & _ & _).
  unfold mimeData. cbn [mimeData_stream].
  rewrite (itemForIndex_coordinate m Hwf _ _ Hatt).
  rewrite (coordinate_child m _ _ _ Hit Hk Hpit).
  change (QModelIndex.column (createIndex m _ 0 node) =? 0) with true.
  cbn [negb]. rewrite (deref_Some _ _ _ Hit), !bind_Ret.
  rewrite decide_False by done. by rewrite bind_Ret, app_nil_r.
Qed.

(** X16: dragging an item of the tree and dropping it: the payload that
    mimeData makes for the coordinate of the item, dropped with the move
    action on the coordinate of a target of the same account that is
    neither the item nor its parent, offers the item and the target to
    performDragDropChange once. dropMimeData answers true whether the
    item accepts the move or not, leaves the model as the item left it,
    and asks for the validation of the item's new index only when the
    item accepted. *)
Theorem mimeData_dropMimeData node nit target chain chainT account
    accepted m' evs i row column :
  attached m node (node :: chain) ->
  items m !! node = Some nit ->
  attached m target chainT ->
  node <> target ->
  RootItem.parent nit <> target ->
  Item.getParentServiceRoot (items m) node = Ret account ->
  Item.getParentServiceRoot (items m) target = Ret account ->
  performDragDropChange m node target = Ret (accepted, m', evs) ->
  (accepted = true -> indexForItem m' node = Ret i) ->
  exists data,
    mimeData MIME_TYPE_ITEM_POINTER m [coordinate m node] = Ret data
    /\ dropMimeData MIME_TYPE_ITEM_POINTER performDragDropChange m data
         MoveAction row column (coordinate m target)
       = Ret (true, m',
              performDragDropChange_called node target
              :: evs
              ++ (if accepted then [requireItemValidationAfterDragDrop i]
                  else [])).
Proof using Hwf.
  intros Hatt Hnit HattT Hne Hpar Hdr Htr Hperform Hidx.
  pose proof (wf_range m Hwf _ _ Hnit) as Hrange.
  eexists. split; [by eapply mimeData_coordinate|].
  unfold dropMimeData, QMimeData.data, QMimeData.setData.
  rewrite lookup_insert_eq. cbn [default from_option id].
  rewrite <- (app_nil_r (encode_quintptr node)).
  change (match encode_quintptr node ++ [] with
          | [] => Ret (false, m, [])
          | _ :: _ =>
              dropMimeData_loop performDragDropChange
                (encode_quintptr node ++ []) m (coordinate m target) []
          end)
    with (dropMimeData_loop performDragDropChange
            (encode_quintptr node ++ []) m (coordinate m target) []).
  rewrite dropMimeData_loop_token.
  rewrite decode_encode_quintptr by lia.
  unfold dropMimeData_item.
  rewrite (itemForIndex_coordinate m Hwf _ _ HattT).
  rewrite Hdr, bind_Ret, Htr, bind_Ret, (deref_Some _ _ _ Hnit), bind_Ret.
  rewrite (proj2 (Z.eqb_neq _ _) Hne), (proj2 (Z.eqb_neq _ _) Hpar).
  rewrite Z.eqb_refl. cbn [orb negb].
  rewrite Hperform, bind_Ret.
  destruct accepted.
  - rewrite (Hidx eq_refl), !bind_Ret. reflexivity.
  - rewrite !bind_Ret. cbn [dropMimeData_loop]. by rewrite app_nil_r.
Qed.
End DragAndDrop.

(** ** The theorems on the examples *)

Lemma Example_Account1_attached :
  attached Example.model Example.Account1 [Example.Account1].
Proof. apply attachedb_sound. by vm_compute. Qed.

Lemma Example_CategoryX_attached :
  attached Example.model Example.CategoryX
    [Example.CategoryX; Example.Account1].
Proof. apply attachedb_sound. by vm_compute. Qed.

Lemma Scenario_well_formed : well_formed Scenario.model.
Proof. by vm_compute. Qed.

Lemma Scenario_without_FeedB_well_formed :
  well_formed Scenario.without_FeedB.
Proof. by vm_compute. Qed.

(** The check of the schedules is sound. *)
Lemma scheduledb_sound (m : FeedsModel.t) (s : gmap Z Schedule.t) :
  Schedule.scheduledb (FeedsModel.items m) s = true ->
  forall f fit, feed_in_tree m f fit ->
    exists sch, s !! f = Some sch /\ Schedule.in_range sch.
Proof.
  unfold Schedule.scheduledb. rewrite forallb_forall.
  intros Hall f fit (Hf & Hk & _).
  specialize (Hall (f, fit)). simpl in Hall. rewrite Hk in Hall.
  destruct (s !! f) as [sch|].
  - exists sch. split; [done|].
    assert (Schedule.in_rangeb sch = true) as Hr.
    { apply Hall, list_elem_of_In. by apply elem_of_map_to_list. }
    unfold Schedule.in_range, Schedule.in_rangeb in *. intros Ht.
    rewrite Ht in Hr. apply andb_prop in Hr as [H1 H2]. lia.
  - assert (false = true) as Hr; [|done].
    apply Hall, list_elem_of_In. by apply elem_of_map_to_list.
Qed.

Lemma index_in_bounds_witness :
  exists i,
    FeedsModel.index Example.model 1 0 QModelIndex.invalid = Ret i
    /\ (QModelIndex.isValid i = true <->
        0 <= 1 < 2 /\ 0 <= 0 < FEEDS_VIEW_COLUMN_COUNT
        /\ QModelIndex.column QModelIndex.invalid <= 0)
    /\ (QModelIndex.isValid i = true ->
        exists x, [Example.Account1; Example.Account2] !! Z.to_nat 1 = Some x
                  /\ i = FeedsModel.createIndex Example.model 1 0 x)
    /\ (QModelIndex.isValid i = false -> i = QModelIndex.invalid).
Proof.
  apply (index_in_bounds Example.model Example_well_formed 1 0
           QModelIndex.invalid
           (RootItem.mk RootItemKind.Root nullptr
              [Example.Account1; Example.Account2] 0 Feed.Normal)).
  by vm_compute.
Defined.

Lemma parent_of_index_witness :
  FeedsModel.parent Example.model
    (FeedsModel.createIndex Example.model 0 1 Example.CategoryX)
  = Ret (coordinate Example.model
           (FeedsModel.itemForIndex Example.model
              (Example.indexOfItem 0 Example.Account1)))
  /\ (Example.indexOfItem 0 Example.Account1
      = coordinate Example.model
          (FeedsModel.itemForIndex Example.model
             (Example.indexOfItem 0 Example.Account1)) ->
      FeedsModel.parent Example.model
        (FeedsModel.createIndex Example.model 0 1 Example.CategoryX)
      = Ret (Example.indexOfItem 0 Example.Account1)).
Proof.
  apply (parent_of_index Example.model Example_well_formed 0 1
           (Example.indexOfItem 0 Example.Account1) [Example.Account1]).
  - apply attachedb_sound. by vm_compute.
  - by vm_compute.
  - by vm_compute.
Defined.

Lemma index_of_child_witness :
  exists cP,
    FeedsModel.indexForItem Example.model Example.Account1 = Ret cP
    /\ FeedsModel.rowCount Example.model cP = Ret 2
    /\ forall (k : nat) x,
         [Example.CategoryX; Example.CategoryY] !! k = Some x ->
         FeedsModel.index Example.model (Z.of_nat k) 0 cP
         = FeedsModel.indexForItem Example.model x
         /\ exists cx, FeedsModel.indexForItem Example.model x = Ret cx
                       /\ FeedsModel.itemForIndex Example.model cx = x
                       /\ QModelIndex.row cx = Z.of_nat k.
Proof.
  apply (index_of_child Example.model Example_well_formed Example.Account1
           [Example.Account1]
           (RootItem.mk RootItemKind.ServiceRoot Example.Root
              [Example.CategoryX; Example.CategoryY] 0 Feed.Normal)).
  - exact Example_Account1_attached.
  - by vm_compute.
Defined.

Lemma indexForItem_detached_witness :
  exists i,
    FeedsModel.indexForItem Scenario.without_FeedB Example.FeedB = Ret i
    /\ QModelIndex.isValid i = false
    /\ FeedsModel.itemForIndex Scenario.without_FeedB i = Example.Root
    /\ FeedsModel.reloadChangedItem Scenario.without_FeedB Example.FeedB
       = Ret [].
Proof.
  apply (indexForItem_detached Scenario.without_FeedB
           Scenario_without_FeedB_well_formed Example.FeedB
           (RootItem.mk RootItemKind.Feed Example.CategoryY [] 4
              Feed.NewMessages)
           (RootItem.mk RootItemKind.Category Example.Account1 [] 0
              Feed.Normal)
           [Example.CategoryY; Example.Account1]).
  - by vm_compute.
  - done.
  - by vm_compute.
  - apply attachedb_sound. by vm_compute.
  - by intros ?%elem_of_nil.
Defined.

Lemma debugHandler_dangling_file_witness :
  exists file mem,
    Debugging.declare_file Example.separator
      (Debugging.mkContext
         ("src/core" +:+ String Example.separator "feedsmodel.cpp") 283)
    = (file, mem)
    /\ mem !! file = Some (Debugging.mkTemporary "feedsmodel.cpp" false)
    /\ Debugging.c_str mem file = Undefined
    /\ (forall label,
          Debugging.DEBUG_OUTPUT_WORKER "rssguard" label file 283
            "Item removed" mem
          = Undefined)
    /\ Debugging.debugHandler "rssguard" Example.separator false
         Debugging.QtWarningMsg
         (Debugging.mkContext
            ("src/core" +:+ String Example.separator "feedsmodel.cpp") 283)
         "Item removed"
       = Undefined.
Proof.
  apply (debugHandler_dangling_file "rssguard" Example.separator
           Debugging.QtWarningMsg "src/core" "feedsmodel.cpp" 283
           "Item removed").
  - apply (bool_decide_unpack _). by vm_compute.
  - done.
Defined.

Lemma allBins_every_bin_witness :
  exists r,
    FeedsModel.items Example.model !! FeedsModel.m_rootItem Example.model
    = Some r
    /\ let roots :=
         List.filter (is_account (FeedsModel.items Example.model))
                     (RootItem.childItems r) in
       let bins := List.filter (fun bin => negb (bin =? nullptr))
                               (Scenario.recycleBin <$> roots) in
       Tree.serviceRoots Example.model = Ret roots
       /\ Tree.restoreAllBins (list ptr) Scenario.recycleBin Scenario.restore
            Example.model []
          = Ret (forallb id (operate Scenario.restore bins []).1,
                 (operate Scenario.restore bins []).2,
                 zip bins (operate Scenario.restore bins []).1)
       /\ Tree.emptyAllBins (list ptr) Scenario.recycleBin Scenario.empty
            Example.model []
          = Ret (forallb id (operate Scenario.empty bins []).1,
                 (operate Scenario.empty bins []).2,
                 zip bins (operate Scenario.empty bins []).1)
       /\ length (operate Scenario.restore bins []).1 = length bins
       /\ length (operate Scenario.empty bins []).1 = length bins.
Proof.
  exact (allBins_every_bin Example.model Example_well_formed (list ptr)
           Scenario.recycleBin Scenario.restore Scenario.empty []).
Defined.

Lemma feedsForScheduledUpdate_selects_witness :
  exists selected s',
    Schedule.feedsForScheduledUpdate Example.model Scenario.schedules true
    = Ret (selected, s')
    /\ NoDup selected
    /\ (forall f, f ∈ selected -> exists fit, feed_in_tree Example.model f fit)
    /\ (forall f, (forall fit, ~ feed_in_tree Example.model f fit) ->
          s' !! f = Scenario.schedules !! f)
    /\ forall f fit sch,
         feed_in_tree Example.model f fit ->
         Scenario.schedules !! f = Some sch ->
         match Schedule.autoUpdateType sch with
         | Schedule.DontAutoUpdate => (f ∉ selected) /\ s' !! f = Some sch
         | Schedule.DefaultAutoUpdate =>
             (f ∈ selected <-> true = true)
             /\ s' !! f = Some sch
         | Schedule.SpecificAutoUpdate =>
             (f ∈ selected <-> Schedule.autoUpdateRemainingInterval sch <= 1)
             /\ s' !! f
                = Some (Schedule.setAutoUpdateRemainingInterval
                          (if Schedule.autoUpdateRemainingInterval sch <=? 1
                           then Schedule.autoUpdateInitialInterval sch
                           else Schedule.autoUpdateRemainingInterval sch - 1)
                          sch)
         end.
Proof.
  apply (feedsForScheduledUpdate_selects Example.model Example_well_formed
           Scenario.schedules true).
  apply scheduledb_sound. by vm_compute.
Defined.

Lemma specific_interval_period_witness :
  exists sel s',
    Schedule.calls 6 Example.model Scenario.schedules false = Ret (sel, s')
    /\ length sel = 6%nat
    /\ forall (j : nat) selj,
         sel !! j = Some selj ->
         (Example.FeedC ∈ selj <->
          2 <= Z.of_nat j + 1 /\ (Z.of_nat j + 1 - 2) mod 3 = 0).
Proof.
  apply (specific_interval_period Example.model Example_well_formed
           Scenario.schedules false Example.FeedC
           (RootItem.mk RootItemKind.Feed Example.Account2 [] 5 Feed.Normal)
           (Schedule.mk Schedule.SpecificAutoUpdate 3 2) 6).
  - apply scheduledb_sound. by vm_compute.
  - split; [by vm_compute|]. split; [done|].
    eexists. exact Example_FeedC_attached.
  - by vm_compute.
  - done.
  - simpl. lia.
  - simpl. lia.
Defined.

Lemma removeItem_attached_witness :
  exists unread_count any_new,
    Tree.removeItem Example.model Example.FeedB
    = Ret (Scenario.without_FeedB,
           [emit (beginRemoveRows
                    (coordinate Example.model Example.CategoryY) 0 0);
            emit endRemoveRows;
            deleteLater Example.FeedB;
            emit (messageCountsChanged unread_count any_new)])
    /\ Tree.removeItem_index Example.model
         (coordinate Example.model Example.FeedB)
       = Tree.removeItem Example.model Example.FeedB
    /\ well_formed Scenario.without_FeedB
    /\ RootItem.childItems
       <$> FeedsModel.items Scenario.without_FeedB !! Example.CategoryY
       = Some (delete (Z.to_nat 0) [Example.FeedB])
    /\ FeedsModel.items Scenario.without_FeedB !! Example.FeedB
       = Some (RootItem.mk RootItemKind.Feed Example.CategoryY [] 4
                 Feed.NewMessages)
    /\ (forall c, ~ attached Scenario.without_FeedB Example.FeedB c)
    /\ (forall y c, attached Example.model y c -> Example.FeedB ∉ c ->
          attached Scenario.without_FeedB y c).
Proof.
  apply (removeItem_attached Example.model Example_well_formed Example.FeedB
           (RootItem.mk RootItemKind.Feed Example.CategoryY [] 4
              Feed.NewMessages)
           (RootItem.mk RootItemKind.Category Example.Account1
              [Example.FeedB] 0 Feed.Normal)
           [Example.CategoryY; Example.Account1]).
  - exact Example_FeedB_attached.
  - by vm_compute.
  - by vm_compute.
Defined.

Lemma removeItem_null_and_root_witness :
  Tree.removeItem Example.model nullptr = Ret (Example.model, [])
  /\ Tree.removeItem_index Example.model QModelIndex.invalid
     = Ret (Example.model, [])
  /\ Tree.removeItem Example.model Example.Root = Undefined.
Proof.
  exact (removeItem_null_and_root Example.model Example_well_formed).
Defined.

Lemma reassignNodeToNewParent_moves_witness :
  FeedsModel.reassignNodeToNewParent Example.model Example.FeedB
    Example.CategoryY
  = Ret (Example.model, [])
  /\ (let m' :=
        Tree.withItems Scenario.without_FeedB
          (Item.appendChild (FeedsModel.items Scenario.without_FeedB)
             Example.CategoryX Example.FeedB) in
      FeedsModel.reassignNodeToNewParent Example.model Example.FeedB
        Example.CategoryX
      = Ret (m',
             [beginRemoveRows (coordinate Example.model Example.CategoryY) 0 0;
              endRemoveRows;
              beginInsertRows
                (coordinate Scenario.without_FeedB Example.CategoryX) 1 1;
              endInsertRows])
      /\ well_formed m'
      /\ attached m' Example.FeedB
           [Example.FeedB; Example.CategoryX; Example.Account1]
      /\ RootItem.parent <$> FeedsModel.items m' !! Example.FeedB
         = Some Example.CategoryX
      /\ RootItem.childItems <$> FeedsModel.items m' !! Example.CategoryX
         = Some ([Example.FeedA] ++ [Example.FeedB])
      /\ RootItem.childItems <$> FeedsModel.items m' !! Example.CategoryY
         = Some (delete (Z.to_nat 0) [Example.FeedB])
      /\ FeedsModel.indexForItem m' Example.FeedB
         = Ret (FeedsModel.createIndex m' 1 0 Example.FeedB)).
Proof.
  split.
  - apply (proj1 (reassignNodeToNewParent_moves Example.model
                    Example_well_formed Example.FeedB
                    (RootItem.mk RootItemKind.Feed Example.CategoryY [] 4
                       Feed.NewMessages)
                    (RootItem.mk RootItemKind.Category Example.Account1
                       [Example.FeedB] 0 Feed.Normal)
                    Example.CategoryY
                    (RootItem.mk RootItemKind.Category Example.Account1
                       [Example.FeedB] 0 Feed.Normal)
                    [Example.CategoryY; Example.Account1]
                    [Example.CategoryY; Example.Account1]
                    Example_FeedB_attached eq_refl eq_refl
                    ltac:(apply attachedb_sound; by vm_compute) eq_refl)).
    reflexivity.
  - apply (proj2 (reassignNodeToNewParent_moves Example.model
                    Example_well_formed Example.FeedB
                    (RootItem.mk RootItemKind.Feed Example.CategoryY [] 4
                       Feed.NewMessages)
                    (RootItem.mk RootItemKind.Category Example.Account1
                       [Example.FeedB] 0 Feed.Normal)
                    Example.CategoryX
                    (RootItem.mk RootItemKind.Category Example.Account1
                       [Example.FeedA] 0 Feed.Normal)
                    [Example.CategoryY; Example.Account1]
                    [Example.CategoryX; Example.Account1]
                    Example_FeedB_attached eq_refl eq_refl
                    Example_CategoryX_attached eq_refl)).
    + by vm_compute.
    + done.
    + apply (bool_decide_unpack _). by vm_compute.
Defined.

Lemma addServiceAccount_appends_witness :
  let m' :=
    Tree.withItems Scenario.model
      (Item.appendChild Scenario.heap Example.Root Scenario.Account3) in
  Tree.addServiceAccount Scenario.model Scenario.Account3 true
  = Ret (true, m',
         [emit (beginInsertRows QModelIndex.invalid 2 2);
          emit endInsertRows;
          connect Scenario.Account3 "itemRemovalRequested(RootItem*)"
                  "removeItem(RootItem*)";
          connect Scenario.Account3
                  "itemReassignmentRequested(RootItem*,RootItem*)"
                  "reassignNodeToNewParent(RootItem*,RootItem*)";
          connect Scenario.Account3 "dataChanged(QList<RootItem*>)"
                  "onItemDataChanged(QList<RootItem*>)";
          connect Scenario.Account3 "reloadMessageListRequested(bool)"
                  "reloadMessageListRequested(bool)";
          connect Scenario.Account3
                  "itemExpandRequested(QList<RootItem*>,bool)"
                  "itemExpandRequested(QList<RootItem*>,bool)";
          connect Scenario.Account3 "itemExpandStateSaveRequested(RootItem*)"
                  "itemExpandStateSaveRequested(RootItem*)";
          ServiceRoot_start Scenario.Account3 true])
  /\ well_formed m'
  /\ attached m' Scenario.Account3 [Scenario.Account3]
  /\ FeedsModel.rowCount m' QModelIndex.invalid = Ret (2 + 1)
  /\ FeedsModel.index m' 2 0 QModelIndex.invalid
     = Ret (FeedsModel.createIndex m' 2 0 Scenario.Account3)
  /\ FeedsModel.indexForItem m' Scenario.Account3
     = Ret (FeedsModel.createIndex m' 2 0 Scenario.Account3)
  /\ Tree.serviceRoots m'
     = Ret ([Example.Account1; Example.Account2] ++ [Scenario.Account3]).
Proof.
  apply (addServiceAccount_appends Scenario.model Scenario_well_formed
           Scenario.Account3
           (RootItem.mk RootItemKind.ServiceRoot nullptr [] 0 Feed.Normal)
           true
           (RootItem.mk RootItemKind.Root nullptr
              [Example.Account1; Example.Account2] 0 Feed.Normal)
           [Example.Account1; Example.Account2]).
  - by vm_compute.
  - done.
  - apply unlistedb_sound. by vm_compute.
  - by vm_compute.
  - by vm_compute.
Defined.

Lemma mimeData_dropMimeData_witness :
  exists data,
    DragDrop.mimeData Example.MIME_TYPE_ITEM_POINTER Example.model
      [coordinate Example.model Example.FeedB] = Ret data
    /\ DragDrop.dropMimeData Example.MIME_TYPE_ITEM_POINTER
         StandardItem.performDragDropChange Example.model data
         MoveAction 0 0 (coordinate Example.model Example.CategoryX)
       = Ret (true, Scenario.moved.1,
              performDragDropChange_called Example.FeedB Example.CategoryX
              :: Scenario.moved.2
              ++ [requireItemValidationAfterDragDrop
                    (Example.indexOfItem 1 Example.FeedB)]).
Proof.
  apply (mimeData_dropMimeData Example.MIME_TYPE_ITEM_POINTER
           StandardItem.performDragDropChange Example.model
           Example_well_formed Example.FeedB
           (RootItem.mk RootItemKind.Feed Example.CategoryY [] 4
              Feed.NewMessages)
           Example.CategoryX
           [Example.CategoryY; Example.Account1]
           [Example.CategoryX; Example.Account1]
           Example.Account1 true Scenario.moved.1 Scenario.moved.2
           (Example.indexOfItem 1 Example.FeedB) 0 0).
  - exact Example_FeedB_attached.
  - by vm_compute.
  - exact Example_CategoryX_attached.
  - done.
  - done.
  - by vm_compute.
  - by vm_compute.
  - by vm_compute.
  - intros _. by vm_compute.
Defined.

Lemma removeItem_twice_witness :
  exists m' actions unread_count any_new,
    Tree.removeItem Example.model Example.FeedB = Ret (m', actions)
    /\ Tree.removeItem m' Example.FeedB
       = Ret (m',
              [emit (beginRemoveRows QModelIndex.invalid (-1) (-1));
               emit endRemoveRows;
               deleteLater Example.FeedB;
               emit (messageCountsChanged unread_count any_new)])
    /\ last actions = Some (emit (messageCountsChanged unread_count any_new)).
Proof.
  apply (removeItem_twice Example.model Example_well_formed Example.FeedB
           (RootItem.mk RootItemKind.Feed Example.CategoryY [] 4
              Feed.NewMessages)
           (RootItem.mk RootItemKind.Category Example.Account1
              [Example.FeedB] 0 Feed.Normal)
           [Example.CategoryY; Example.Account1]).
  - exact Example_FeedB_attached.
  - by vm_compute.
  - by vm_compute.
Defined.

Lemma removeItem_counts_witness :
  exists m' actions any_new,
    Tree.removeItem Example.model Example.Account1 = Ret (m', actions)
    /\ last actions = Some (emit (messageCountsChanged (12 - 7) any_new))
    /\ FeedsModel.countOfUnreadMessages m' = Ret (12 - 7)
    /\ (RootItemKind.ServiceRoot = RootItemKind.Feed -> 7 = 0).
Proof.
  apply (removeItem_counts Example.model Example_well_formed Example.Account1
           (RootItem.mk RootItemKind.ServiceRoot Example.Root
              [Example.CategoryX; Example.CategoryY] 0 Feed.Normal)
           (RootItem.mk RootItemKind.Root nullptr
              [Example.Account1; Example.Account2] 0 Feed.Normal)
           [] 12 7).
  - exact Example_Account1_attached.
  - by vm_compute.
  - by vm_compute.
  - by vm_compute.
  - by vm_compute.
Defined.

Lemma loadActivatedServiceAccounts_appends_witness :
  exists m' actions r',
    Tree.loadActivatedServiceAccounts Scenario.model
      [[Scenario.Account3]; []; [Scenario.Account4]]
    = Ret (m', actions)
    /\ well_formed m'
    /\ FeedsModel.items m' !! FeedsModel.m_rootItem m' = Some r'
    /\ RootItem.childItems r'
       = [Example.Account1; Example.Account2]
         ++ concat [[Scenario.Account3]; []; [Scenario.Account4]]
    /\ Tree.serviceRoots m'
       = Ret ([Example.Account1; Example.Account2]
              ++ concat [[Scenario.Account3]; []; [Scenario.Account4]])
    /\ Tree.started actions
       = (fun a => (a, false))
         <$> concat [[Scenario.Account3]; []; [Scenario.Account4]].
Proof.
  apply (loadActivatedServiceAccounts_appends Scenario.model
           [[Scenario.Account3]; []; [Scenario.Account4]]
           (RootItem.mk RootItemKind.Root nullptr
              [Example.Account1; Example.Account2] 0 Feed.Normal)
           [Example.Account1; Example.Account2] Scenario_well_formed).
  - apply (bool_decide_unpack _). by vm_compute.
  - repeat apply Forall_cons_2; [by vm_compute..|apply Forall_nil_2].
  - by vm_compute.
  - by vm_compute.
Defined.
